(** * xnmt search strategies: a shallow embedding of [xnmt/search_strategy.py]
    and [xnmt/vocab.py]

    The first half of the file holds the definitions, in the order of the
    Python module: the reserved vocabulary ids, [HypScore], [SearchOutput],
    [GreedySearch], [BeamSearch] and [SamplingSearch], then the class [Vocab],
    followed by a few concrete translators and files.  The second half holds
    the theorems.

    Conventions.
    - Log-probabilities and scores are exact integers ([Z]); no statement
      below depends on rounding.
    - Word ids are vocabulary indices ([nat]).
    - A batched DyNet expression of log-probabilities is a list with one
      distribution ([list Z], indexed by word id) per batch element; the
      batch dimension is kept also for a batch of one.
    - Python exceptions are values of [exn]; a call that raises returns
      [Raise e] together with the world it had reached.  An error of DyNet is
      reported where the model reads the value of the expression.
    - The translator ("scorer") is a total function; every call to
      [output_one_step] is appended to a log carried by the monad. *)

From Stdlib Require Import List ZArith Bool Arith Lia Permutation Sorted.
From Stdlib Require String Ascii.
Import ListNotations.

Set Implicit Arguments.

(** ** Exceptions and the state-and-error monad *)

Inductive exn : Type :=
| AssertionError
| IndexError
| TypeError
| ValueError
| AttributeError
| DynetError.

Inductive result (A : Type) : Type :=
| Ok (a : A)
| Raise (e : exn).
Arguments Ok {A} a.
Arguments Raise {A} e.

Definition M (S A : Type) : Type := S -> result A * S.

Definition ret {S A : Type} (a : A) : M S A := fun s => (Ok a, s).

Definition raise {S A : Type} (e : exn) : M S A := fun s => (Raise e, s).

Definition bind {S A B : Type} (m : M S A) (k : A -> M S B) : M S B :=
  fun s => match m s with
           | (Ok a, s') => k a s'
           | (Raise e, s') => (Raise e, s')
           end.

Definition lift {S A : Type} (r : result A) : M S A := fun s => (r, s).

Declare Scope monad_scope.
Delimit Scope monad_scope with monad.
Notation "x <- m ;; k" := (bind m (fun x => k))
  (at level 100, m at next level, right associativity) : monad_scope.
Notation "' p <- m ;; k" := (bind m (fun x => let p := x in k))
  (at level 100, p pattern, m at next level, right associativity) : monad_scope.
Open Scope monad_scope.

(** [[f(x) for x in l]] for a body that may raise. *)
Fixpoint mapM {S A B : Type} (f : A -> M S B) (l : list A) : M S (list B) :=
  match l with
  | [] => ret []
  | x :: l' => y <- f x ;; ys <- mapM f l' ;; ret (y :: ys)
  end.

(** [for x in l: acc = f(acc, x)] for a body that may raise. *)
Fixpoint foldM {S A B : Type} (f : A -> B -> M S A) (l : list B) (a : A)
  : M S A :=
  match l with
  | [] => ret a
  | x :: l' => a' <- f a x ;; foldM f l' a'
  end.

(** ** [xnmt/vocab.py]: the reserved ids *)

Module Vocab.
Definition SS : nat := 0.
Definition ES : nat := 1.
End Vocab.

(** ** Python built-ins used by the searches *)

(** [l[i]] for a non-negative index. *)
Definition getitem {S A : Type} (l : list A) (i : nat) : M S A :=
  match nth_error l i with
  | Some x => ret x
  | None => raise IndexError
  end.

(** [l[-n:]]; note that [l[-0:]] is [l[0:]], the whole list. *)
Definition slice_last {A : Type} (n : nat) (l : list A) : list A :=
  if n =? 0 then l else skipn (length l - n) l.

(** [sorted(l, key=key, reverse=True)]: a stable sort, so that elements with
    equal keys keep their original order. *)
Fixpoint insert_desc {A : Type} (key : A -> Z) (x : A) (l : list A) : list A :=
  match l with
  | [] => [x]
  | y :: l' => if (key x <? key y)%Z then y :: insert_desc key x l'
               else x :: y :: l'
  end.

Definition sorted_desc {A : Type} (key : A -> Z) (l : list A) : list A :=
  fold_right (insert_desc key) [] l.

(** [all(l)] *)
Definition all (l : list bool) : bool := forallb (fun b => b) l.

(** Truth value of a Python object, as [or] and [if] compute it. *)
Class PyTruth (V : Type) : Type := py_bool : V -> result bool.

(** A float (or int) is false exactly when it is zero. *)
#[export] Instance float_truth : PyTruth Z :=
  fun z => Ok (negb (z =? 0)%Z).

(** A numpy array: an empty one is false, a one-element one has the truth
    value of its element, any other raises. *)
#[export] Instance ndarray_truth : PyTruth (list Z) :=
  fun a => match a with
           | [] => Ok false
           | [z] => Ok (negb (z =? 0)%Z)
           | _ => Raise ValueError
           end.

(** ** [HypScore] *)

Record HypScore (V : Type) : Type := mkHypScore
  { normalized : V;
    unnormalized : V }.

(** [HypScore.__init__(self, normalized, unnormalized=None)]:
    [self.unnormalized = unnormalized or normalized].  [None or x] is [x]
    without looking at [x]; otherwise [or] keeps its left operand when that is
    true and returns the right one when it is false. *)
Definition HypScore_init {V : Type} `{PyTruth V}
    (normalized : V) (unnormalized : option V) : result (HypScore V) :=
  match unnormalized with
  | None => Ok (mkHypScore normalized normalized)
  | Some u =>
      match py_bool u with
      | Ok true => Ok (mkHypScore normalized u)
      | Ok false => Ok (mkHypScore normalized normalized)
      | Raise e => Raise e
      end
  end.

(** ** [SearchOutput]

    The named tuple is built with different Python types by the three
    strategies, hence the parameters: [Att] for [attentions], [Sc] for
    [score], [LS] for the entries of [logsoftmaxes], [St] for the entries of
    [state] and [Mk] for [mask]. *)
Record SearchOutput (Att Sc LS St Mk : Type) : Type := mkSearchOutput
  { word_ids : list (list nat);
    attentions : Att;
    score : Sc;
    logsoftmaxes : list LS;
    state : list St;
    mask : Mk }.

(** ** Batched translators, shared by [GreedySearch] and [SamplingSearch] *)

Module Batched.
Section Batched.

Context {State Attention : Type}.

(** What [translator.output_one_step] returns for a batch: [t_logsoftmax]
    holds one distribution per batch element. *)
Record TranslatorOutput : Type := mkTranslatorOutput
  { t_state : State;
    t_logsoftmax : list (list Z);
    t_attention : Attention }.

(** The world: the log of the calls made to the translator, oldest first. *)
Definition World : Type := list (option (list nat) * State).

Variable output_one_step : option (list nat) -> State -> TranslatorOutput.

(** [translator.output_one_step(prev_word, current_state)], logged. *)
Definition call_translator (prev_word : option (list nat))
    (current_state : State) : M World TranslatorOutput :=
  fun log => (Ok (output_one_step prev_word current_state),
              log ++ [(prev_word, current_state)]).

End Batched.

(** [dy.pick_batch(e, indices)], evaluated: the entry [indices[i]] of the
    distribution of batch element [i].  DyNet refuses a list of indices that
    does not match the batch, and an index outside the distribution. *)
Fixpoint pick_batch {W : Type} (e : list (list Z)) (indices : list nat)
  : M W (list Z) :=
  match e, indices with
  | [], [] => ret []
  | d :: e', i :: indices' =>
      x <- match nth_error d i with
           | Some x => ret x
           | None => raise DynetError
           end ;;
      xs <- pick_batch e' indices' ;;
      ret (x :: xs)
  | _, _ => raise DynetError
  end.

(** [dy.cmult(x, dy.inputTensor(mask, batched=True))], evaluated: the product
    per batch element. *)
Fixpoint cmult {W : Type} (x mask : list Z) : M W (list Z) :=
  match x, mask with
  | [], [] => ret []
  | a :: x', m :: mask' => r <- cmult x' mask' ;; ret ((a * m)%Z :: r)
  | _, _ => raise DynetError
  end.

(** [[word_id[i] if not done[i] else Vocab.ES for i in range(len(done))]],
    from index [i] on. *)
Fixpoint mask_words {W : Type} (done : list bool) (i : nat)
    (word_id : list nat) : M W (list nat) :=
  match done with
  | [] => ret []
  | d :: done' =>
      w <- (if negb d then getitem word_id i else ret Vocab.ES) ;;
      ws <- mask_words done' (S i) word_id ;;
      ret (w :: ws)
  end.

(** [[1 if not done[i] else 0 for i in range(len(done))]] *)
Definition mask_of (done : list bool) : list Z :=
  map (fun d : bool => if negb d then 1%Z else 0%Z) done.

(** [[x == Vocab.ES for x in word_id]] *)
Definition done_of (word_id : list nat) : list bool :=
  map (fun x => x =? Vocab.ES) word_id.

(** [[1 for _ in range(len(done))]]; [len(None)] raises. *)
Definition ones_like {W : Type} (done : option (list bool)) : M W (list Z) :=
  match done with
  | Some d => ret (map (fun _ => 1%Z) d)
  | None => raise TypeError
  end.

(** [np.stack(cols, axis=1)] for one-dimensional arrays: row [i] collects the
    entries [i].  numpy refuses an empty list and arrays of different
    lengths. *)
Definition stack_axis1 {W : Type} (cols : list (list nat))
  : M W (list (list nat)) :=
  match cols with
  | [] => raise ValueError
  | c0 :: _ =>
      if forallb (fun c => length c =? length c0) cols
      then ret (map (fun i => map (fun c => nth i c 0) cols)
                    (seq 0 (length c0)))
      else raise ValueError
  end.

(** [np.sum(rows, axis=0)] for one-dimensional arrays of one length (and
    [dy.esum(rows).npvalue()]): the sum per batch element. *)
Definition sum_axis0 {W : Type} (rows : list (list Z)) : M W (list Z) :=
  match rows with
  | [] => raise ValueError
  | r0 :: _ =>
      if forallb (fun r => length r =? length r0) rows
      then ret (map (fun i => fold_right Z.add 0%Z
                                (map (fun r => nth i r 0%Z) rows))
                    (seq 0 (length r0)))
      else raise ValueError
  end.

(** [np.argmax] of a one-dimensional array: the first index of the maximum. *)
Fixpoint argmax_from (best_i : nat) (best : Z) (i : nat) (l : list Z) : nat :=
  match l with
  | [] => best_i
  | x :: l' => if (best <? x)%Z then argmax_from i x (S i) l'
               else argmax_from best_i best (S i) l'
  end.

(** [np.argmax(logsoftmax.npvalue(), axis=0)]: one index per batch element;
    numpy raises on an empty distribution. *)
Definition argmax {W : Type} (d : list Z) : M W nat :=
  match d with
  | [] => raise ValueError
  | x :: d' => ret (argmax_from 0 x 1 d')
  end.

End Batched.

(** ** [GreedySearch] *)

Module GreedySearch.
Import Batched.
Section Greedy.

Context {State NobpState Attention : Type}.

Local Abbreviation TranslatorOutput := (@TranslatorOutput State Attention).
Local Abbreviation World := (@World State).

(** [forced_trg_ids], with the answer of [xnmt.batcher.is_batched]: one
    target, or one target per batch element. *)
Inductive forced : Type :=
| Unbatched (trg : list nat)
| Batched (trgs : list (list nat)).

(** An entry of [logsoftmaxes]: the expression
    [dy.pick_batch(current_output.logsoftmax, word_id)], which the search does
    not evaluate. *)
Definition PickBatch : Type := (list (list Z) * list nat)%type.

Definition GreedyOutput : Type :=
  SearchOutput (list Attention) (HypScore (list Z)) PickBatch NobpState
               (list (list Z)).

(** The local variables of [generate_output]. *)
Record Locals : Type := mkLocals
  { v_score : list (list Z);
    v_word_ids : list (list nat);
    v_attentions : list Attention;
    v_logsoftmaxes : list PickBatch;
    v_states : list NobpState;
    v_masks : list (list Z);
    v_done : option (list bool);
    v_current_state : State }.

Variable output_one_step : option (list nat) -> State -> TranslatorOutput.
Variable get_nobp_state : State -> NobpState.

(** [self.max_len] *)
Variable max_len : nat.

(** The choice of [word_id] at step [length]. *)
Definition choose (forced_trg_ids : option forced) (length : nat)
    (current_output : TranslatorOutput) : M World (list nat) :=
  match forced_trg_ids with
  | None => mapM argmax (t_logsoftmax current_output)
  | Some (Batched trgs) => mapM (fun trg => getitem trg length) trgs
  | Some (Unbatched trg) => w <- getitem trg length ;; ret [w]
  end.

(** Body of [for length in range(self.max_len)], up to the test of [done]. *)
Definition greedy_step (forced_trg_ids : option forced) (length : nat)
    (v : Locals) : M World Locals :=
  prev_word <- (if 0 <? length
                then w <- getitem (v_word_ids v) (length - 1) ;; ret (Some w)
                else ret None) ;;
  current_output <- call_translator output_one_step prev_word
                                    (v_current_state v) ;;
  let current_state := t_state current_output in
  word_id0 <- choose forced_trg_ids length current_output ;;
  st <- match v_done v with
        | Some done =>
            word_id <- mask_words done 0 word_id0 ;;
            let mask := mask_of done in
            logsoft0 <- pick_batch (t_logsoftmax current_output) word_id0 ;;
            logsoft <- cmult logsoft0 mask ;;
            ret (word_id, logsoft, v_masks v ++ [mask])
        | None =>
            logsoft <- pick_batch (t_logsoftmax current_output) word_id0 ;;
            ret (word_id0, logsoft, v_masks v)
        end ;;
  let '(word_id, logsoft, masks) := st in
  ret (mkLocals (v_score v ++ [logsoft])
                (v_word_ids v ++ [word_id])
                (v_attentions v ++ [t_attention current_output])
                (v_logsoftmaxes v
                   ++ [(t_logsoftmax current_output, word_id)])
                (v_states v ++ [get_nobp_state current_state])
                masks
                (Some (done_of word_id))
                current_state).

Definition all_done (done : option (list bool)) : bool :=
  match done with
  | Some d => all d
  | None => false
  end.

(** [for length in range(self.max_len)], with [steps] iterations left. *)
Fixpoint greedy_loop (forced_trg_ids : option forced) (steps length : nat)
    (v : Locals) : M World Locals :=
  match steps with
  | 0 => ret v
  | S steps' =>
      v' <- greedy_step forced_trg_ids length v ;;
      if all_done (v_done v') then ret v'
      else greedy_loop forced_trg_ids steps' (S length) v'
  end.

(** The statements after the loop. *)
Definition finish (v : Locals) : M World (list GreedyOutput) :=
  ones <- ones_like (v_done v) ;;
  let masks := ones :: v_masks v in
  words <- stack_axis1 (v_word_ids v) ;;
  score <- sum_axis0 (v_score v) ;;
  hs <- lift (HypScore_init score None) ;;
  ret [mkSearchOutput words (v_attentions v) hs (v_logsoftmaxes v)
                      (v_states v) masks].

(** [GreedySearch.generate_output] *)
Definition generate_output (initial_state : State)
    (src_length : option nat) (forced_trg_ids : option forced)
  : M World (list GreedyOutput) :=
  v <- greedy_loop forced_trg_ids max_len 0
         (mkLocals [] [] [] [] [] [] None initial_state) ;;
  finish v.

End Greedy.
End GreedySearch.

(** ** [BeamSearch] *)

Module BeamSearch.
Section Beam.

Context {State Attention : Type}.

(** What [translator.output_one_step] returns. *)
Record TranslatorOutput : Type := mkTranslatorOutput
  { t_state : State;
    t_logsoftmax : list Z;
    t_attention : Attention }.

(** [Hypothesis = namedtuple('Hypothesis',
      ['score', 'output', 'parent', 'word', 'unnormalized'])].
    The tuple is built at two places only: the root
    [Hypothesis(0, None, None, None, 0)] and the children
    [Hypothesis(new_score, current_output, hyp, cur_word, new_original)]. *)
Inductive hypothesis : Type :=
| Root
| Child (score : Z) (output : TranslatorOutput) (parent : hypothesis)
        (word : nat) (unnormalized : Z).

Definition h_score (h : hypothesis) : Z :=
  match h with Root => 0%Z | Child s _ _ _ _ => s end.
Definition h_output (h : hypothesis) : option TranslatorOutput :=
  match h with Root => None | Child _ o _ _ _ => Some o end.
Definition h_parent (h : hypothesis) : option hypothesis :=
  match h with Root => None | Child _ _ p _ _ => Some p end.
Definition h_word (h : hypothesis) : option nat :=
  match h with Root => None | Child _ _ _ w _ => Some w end.
Definition h_unnormalized (h : hypothesis) : Z :=
  match h with Root => 0%Z | Child _ _ _ _ u => u end.

(** The world: the log of the calls made to the translator, oldest first. *)
Definition World : Type := list (option nat * State).

Definition BeamOutput : Type :=
  SearchOutput (list (list Attention)) (list (HypScore Z)) Z State
               (option (list (list Z))).

(** The translator, the length normalization and numpy's [argpartition]
    ([argpartition score kth] is [np.argpartition(score, kth)] for a valid
    [kth]; numpy leaves the order inside the two parts open). *)
Variable output_one_step : option nat -> State -> TranslatorOutput.
Variable normalize_partial : Z -> Z -> nat -> Z.
Variable normalize_completed : list hypothesis -> option nat -> list Z.
Variable argpartition : list Z -> Z -> list nat.

(** [self.beam_size], [self.max_len], [self.one_best] *)
Variable beam_size : nat.
Variable max_len : nat.
Variable one_best : bool.

(** [translator.output_one_step(prev_word, prev_state)], logged. *)
Definition call_translator (prev_word : option nat) (prev_state : State)
  : M World TranslatorOutput :=
  fun log => (Ok (output_one_step prev_word prev_state),
              log ++ [(prev_word, prev_state)]).

(** [np.argpartition(score, max(-len(score), -self.beam_size))[-self.beam_size:]];
    numpy checks [kth] against the bounds for an array with elements only:
    for an empty array it returns the empty array of indices. *)
Definition top_words (score : list Z) : M World (list nat) :=
  if length score =? 0 then ret []
  else ret (slice_last beam_size
              (argpartition score
                 (Z.max (- Z.of_nat (length score)) (- Z.of_nat beam_size)))).

(** Body of [for cur_word in top_words]. *)
Definition queue_next (length : nat) (hyp : hypothesis)
    (current_output : TranslatorOutput) (new_set : list hypothesis)
    (cur_word : nat) : M World (list hypothesis) :=
  let score := t_logsoftmax current_output in
  s <- getitem score cur_word ;;
  let new_score := normalize_partial (h_score hyp) s (length + 1) in
  let new_original := (s + h_unnormalized hyp)%Z in
  ret (new_set ++ [Child new_score current_output hyp cur_word new_original]).

Definition is_ES (prev_word : option nat) : bool :=
  match prev_word with
  | Some w => w =? Vocab.ES
  | None => false
  end.

(** Body of [for hyp in active_hyp]; the accumulator is
    [(completed_hyp, new_set)]. *)
Definition expand_hyp (initial_state : State)
    (forced_trg_ids : option (list nat)) (length : nat)
    (acc : list hypothesis * list hypothesis) (hyp : hypothesis)
  : M World (list hypothesis * list hypothesis) :=
  let '(completed_hyp, new_set) := acc in
  prev <- (if 0 <? length
           then match h_output hyp with
                | Some o => ret (h_word hyp, t_state o)
                | None => raise AttributeError
                end
           else ret (None, initial_state)) ;;
  let '(prev_word, prev_state) := prev in
  if is_ES prev_word then ret (completed_hyp ++ [hyp], new_set)
  else
    current_output <- call_translator prev_word prev_state ;;
    let score := t_logsoftmax current_output in
    top <- match forced_trg_ids with
           | None => top_words score
           | Some f => w <- getitem f length ;; ret [w]
           end ;;
    new_set' <- foldM (queue_next length hyp current_output) top new_set ;;
    ret (completed_hyp, new_set').

(** One pass of the outer loop after the early-exit test: expand every active
    hypothesis, then keep the best [beam_size] of the new set. *)
Definition beam_step (initial_state : State)
    (forced_trg_ids : option (list nat)) (length : nat)
    (active_hyp completed_hyp : list hypothesis)
  : M World (list hypothesis * list hypothesis) :=
  acc <- foldM (expand_hyp initial_state forced_trg_ids length)
               active_hyp (completed_hyp, []) ;;
  let '(completed_hyp', new_set) := acc in
  ret (completed_hyp', firstn beam_size (sorted_desc h_score new_set)).

(** [for length in range(self.max_len)], with [steps] iterations left;
    returns [(completed_hyp, active_hyp)] as they are when the loop is left. *)
Fixpoint beam_loop (initial_state : State)
    (forced_trg_ids : option (list nat)) (steps length : nat)
    (active_hyp completed_hyp : list hypothesis)
  : M World (list hypothesis * list hypothesis) :=
  match steps with
  | 0 => ret (completed_hyp, active_hyp)
  | S steps' =>
      if beam_size <=? List.length completed_hyp
      then ret (completed_hyp, active_hyp)
      else
        st <- beam_step initial_state forced_trg_ids length
                        active_hyp completed_hyp ;;
        let '(completed_hyp', active_hyp') := st in
        beam_loop initial_state forced_trg_ids steps' (S length)
                  active_hyp' completed_hyp'
  end.

(** The [while current.parent != None] loop: words and attentions in the
    order they are appended, the end of the sequence first. *)
Fixpoint backtrace (current : hypothesis) : list nat * list Attention :=
  match current with
  | Root => ([], [])
  | Child _ output parent word _ =>
      let '(word_ids, attentions) := backtrace parent in
      (word :: word_ids, t_attention output :: attentions)
  end.

(** Body of [for end_hyp, score in hyp_and_score]. *)
Definition pack (p : hypothesis * Z) : M World BeamOutput :=
  let '(end_hyp, score) := p in
  let '(word_ids, attentions) := backtrace end_hyp in
  hs <- lift (HypScore_init score (Some (h_unnormalized end_hyp))) ;;
  ret (mkSearchOutput [rev word_ids] [rev attentions] [hs]
                      (rev []) (rev []) None).

Definition is_None {A : Type} (o : option A) : bool :=
  match o with None => true | Some _ => false end.

(** [BeamSearch.generate_output] *)
Definition generate_output (initial_state : State) (src_length : option nat)
    (forced_trg_ids : option (list nat)) : M World (list BeamOutput) :=
  if negb (is_None forced_trg_ids || (beam_size =? 1)) then raise AssertionError
  else
    st <- beam_loop initial_state forced_trg_ids max_len 0 [Root] [] ;;
    let '(completed_hyp, active_hyp) := st in
    let completed_hyp :=
      if List.length completed_hyp =? 0 then active_hyp else completed_hyp in
    let normalized_scores := normalize_completed completed_hyp src_length in
    let hyp_and_score :=
      sorted_desc snd (combine completed_hyp normalized_scores) in
    hyp_and_score <- (if one_best
                      then x <- getitem hyp_and_score 0 ;; ret [x]
                      else ret hyp_and_score) ;;
    mapM pack hyp_and_score.

End Beam.
End BeamSearch.

(** ** [SamplingSearch] *)

Module SamplingSearch.
Import Batched.
Section Sampling.

Context {State NobpState Attention Rng : Type}.

Local Abbreviation TranslatorOutput := (@TranslatorOutput State Attention).

(** The world: the log of the calls made to the translator, and the state of
    the random number generator. *)
Definition World : Type := (@Batched.World State * Rng)%type.

Definition SamplingOutput : Type :=
  SearchOutput (list Attention) (HypScore (list Z)) (list Z) NobpState
               (list (list Z)).

Variable output_one_step : option (list nat) -> State -> TranslatorOutput.
Variable get_nobp_state : State -> NobpState.

(** [logsoftmax.tensor_value().categorical_sample_log_prob().as_numpy()],
    brought to one dimension: one word per batch element, drawn with the
    generator. *)
Variable categorical_sample : list (list Z) -> Rng -> list nat * Rng.

(** [self.max_length], [self.sample_size] *)
Variable max_length : nat.
Variable sample_size : nat.

(** [translator.output_one_step(current_words, current_state)], logged. *)
Definition call_translator (current_words : option (list nat))
    (current_state : State) : M World TranslatorOutput :=
  fun w => let '(r, log') :=
             Batched.call_translator output_one_step current_words
                                     current_state (fst w) in
           (r, (log', snd w)).

Definition draw (logsoftmax : list (list Z)) : M World (list nat) :=
  fun w => let '(sample, rng') := categorical_sample logsoftmax (snd w) in
           (Ok sample, (fst w, rng')).

(** An element of [forced_trg_ids]: a sentence, where the caller passes a
    batch of sentences, or a word id, where the caller passes the words of
    one sentence. *)
Inductive target : Type :=
| Sentence (words : list nat)
| Word (word : nat).

(** [forced_trg[length] if len(forced_trg) > length else Vocab.ES]; the
    condition is evaluated first, and [len] of an [int] raises. *)
Definition forced_word (length : nat) (forced_trg : target) : M World nat :=
  match forced_trg with
  | Sentence words =>
      if length <? List.length words then getitem words length
      else ret Vocab.ES
  | Word _ => raise TypeError
  end.

(** The local variables of [sample_one]. *)
Record Locals : Type := mkLocals
  { v_current_words : option (list nat);
    v_current_state : State;
    v_done : option (list bool);
    v_logsofts : list (list Z);
    v_samples : list (list nat);
    v_states : list NobpState;
    v_attentions : list Attention;
    v_masks : list (list Z) }.

(** Body of [for length in range(self.max_length)], up to the test of
    [done]. *)
Definition sample_step (forced_trg_ids : option (list target))
    (length : nat) (v : Locals) : M World Locals :=
  translator_output <- call_translator (v_current_words v)
                                       (v_current_state v) ;;
  sample0 <- match forced_trg_ids with
             | None => draw (t_logsoftmax translator_output)
             | Some trgs => mapM (forced_word length) trgs
             end ;;
  st <- match v_done v with
        | Some done =>
            sample <- mask_words done 0 sample0 ;;
            let mask := mask_of done in
            logsoft0 <- pick_batch (t_logsoftmax translator_output) sample0 ;;
            logsoft <- cmult logsoft0 mask ;;
            ret (sample, logsoft, v_masks v ++ [mask])
        | None =>
            logsoft <- pick_batch (t_logsoftmax translator_output) sample0 ;;
            ret (sample0, logsoft, v_masks v)
        end ;;
  let '(sample, logsoft, masks) := st in
  ret (mkLocals (Some sample)
                (t_state translator_output)
                (Some (done_of sample))
                (v_logsofts v ++ [logsoft])
                (v_samples v ++ [sample])
                (v_states v ++ [get_nobp_state (t_state translator_output)])
                (v_attentions v ++ [t_attention translator_output])
                masks).

Definition all_done (done : option (list bool)) : bool :=
  match done with
  | Some d => all d
  | None => false
  end.

(** [for length in range(self.max_length)], with [steps] iterations left. *)
Fixpoint sample_loop (forced_trg_ids : option (list target))
    (steps length : nat) (v : Locals) : M World Locals :=
  match steps with
  | 0 => ret v
  | S steps' =>
      v' <- sample_step forced_trg_ids length v ;;
      if all_done (v_done v') then ret v'
      else sample_loop forced_trg_ids steps' (S length) v'
  end.

(** [dy.esum(logsofts).npvalue()]; DyNet refuses an empty list. *)
Definition esum (logsofts : list (list Z)) : M World (list Z) :=
  match logsofts with
  | [] => raise DynetError
  | _ => sum_axis0 logsofts
  end.

(** [SamplingSearch.sample_one] *)
Definition sample_one (initial_state : State)
    (forced_trg_ids : option (list target)) : M World SamplingOutput :=
  v <- sample_loop forced_trg_ids max_length 0
         (mkLocals None initial_state None [] [] [] [] []) ;;
  scores <- esum (v_logsofts v) ;;
  ones <- ones_like (v_done v) ;;
  let masks := ones :: v_masks v in
  samples <- stack_axis1 (v_samples v) ;;
  hs <- lift (HypScore_init scores None) ;;
  ret (mkSearchOutput samples (v_attentions v) hs (v_logsofts v)
                      (v_states v) masks).

Definition is_Some {A : Type} (o : option A) : bool :=
  match o with Some _ => true | None => false end.

(** [SamplingSearch.generate_output] *)
Definition generate_output (initial_state : State)
    (src_length : option nat) (forced_trg_ids : option (list target))
  : M World (list SamplingOutput) :=
  mapM (fun k => if (k =? 0) && is_Some forced_trg_ids
                 then sample_one initial_state forced_trg_ids
                 else sample_one initial_state None)
       (seq 0 sample_size).

End Sampling.
End SamplingSearch.

(** ** [xnmt/vocab.py]: the class [Vocab]

    Words are Python strings, ids are list positions.  The decorator
    [serializable_init] and the calls of [save_processed_arg] keep the records
    of the YAML serialization and do not touch the four attributes modelled
    here; they are left out. *)

Module VocabClass.
Import String.StringSyntax.
Local Open Scope string_scope.
Local Open Scope list_scope.

Local Abbreviation string := String.string.

Definition SS_STR : string := "<s>".
Definition ES_STR : string := "</s>".
Definition UNK_STR : string := "<unk>".

(** The exceptions of this class; [RuntimeError] carries its message. *)
Inductive error : Type :=
| AssertionError
| AttributeError
| IndexError
| KeyError
| OSError
| RuntimeError (message : string).

(** A [dict] from words to ids: its items in insertion order. *)
Definition dict : Type := list (string * nat).

(** [d[k]]; [None] stands for [KeyError]. *)
Fixpoint dict_get (d : dict) (k : string) : option nat :=
  match d with
  | [] => None
  | (k', v) :: d' => if String.eqb k k' then Some v else dict_get d' k
  end.

(** [k in d] *)
Definition dict_contains (d : dict) (k : string) : bool :=
  match dict_get d k with
  | Some _ => true
  | None => false
  end.

(** [d[k] = v]: the value of a key that is present is replaced where it
    stands, a new key is appended. *)
Fixpoint dict_set (d : dict) (k : string) (v : nat) : dict :=
  match d with
  | [] => [(k, v)]
  | (k', v') :: d' =>
      if String.eqb k k' then (k', v) :: d'
      else (k', v') :: dict_set d' k v
  end.

(** The attributes of an instance.  [unk_token] is [None] while the attribute
    has not been assigned, [Some None] when it holds Python's [None]. *)
Record vocab : Type := mkVocab
  { i2w : list string;
    w2i : dict;
    frozen : bool;
    unk_token : option (option nat) }.

(** [enumerate(l)], counting from [n]. *)
Fixpoint enumerate_from (n : nat) (l : list string) : list (nat * string) :=
  match l with
  | [] => []
  | x :: l' => (n, x) :: enumerate_from (S n) l'
  end.

(** [{word: word_id for (word_id, word) in enumerate(self.i2w)}] *)
Definition index_words (i2w : list string) : dict :=
  fold_left (fun d (p : nat * string) => dict_set d (snd p) (fst p))
            (enumerate_from 0 i2w) [].

(** [set([Vocab.SS_STR, Vocab.ES_STR, Vocab.UNK_STR])] *)
Definition reserved : list string := [SS_STR; ES_STR; UNK_STR].

(** [word in reserved], and [elem in self.i2w] for a string. *)
Definition mem (word : string) (l : list string) : bool :=
  existsb (String.eqb word) l.

Section Files.

(** The file system: the lines of the text file at a path, or [None] where
    [open] fails.  [strip] is [str.strip]. *)
Variable read_lines : string -> option (list string).
Variable strip : string -> string.

(** [for line in f], with the list [vocab] built so far. *)
Fixpoint read_words (vocab_file : string) (lines : list string)
    (vocab : list string) : error + list string :=
  match lines with
  | [] => inr vocab
  | line :: lines' =>
      let word := strip line in
      if mem word reserved
      then inl (RuntimeError
                  (String.append "Vocab file "
                     (String.append vocab_file
                        (String.append " contains a reserved word: " word))))
      else read_words vocab_file lines' (vocab ++ [word])
  end.

(** [Vocab.i2w_from_vocab_file] *)
Definition i2w_from_vocab_file (vocab_file : string) : error + list string :=
  match read_lines vocab_file with
  | None => inl OSError
  | Some lines => read_words vocab_file lines [SS_STR; ES_STR]
  end.

Definition is_None {A : Type} (o : option A) : bool :=
  match o with None => true | Some _ => false end.

(** [Vocab.__init__(self, i2w=None, vocab_file=None)].  [if vocab_file:] is
    false for [None] and for the empty string. *)
Definition init (i2w : option (list string)) (vocab_file : option string)
  : error + vocab :=
  if negb (is_None i2w || is_None vocab_file) then inl AssertionError
  else
    let loaded :=
      match vocab_file with
      | Some f =>
          if negb (String.eqb f "")
          then match i2w_from_vocab_file f with
               | inr l => inr (Some l)
               | inl e => inl e
               end
          else inr i2w
      | None => inr i2w
      end in
    match loaded with
    | inl e => inl e
    | inr (Some l) => inr (mkVocab l (index_words l) true None)
    | inr None =>
        let w2i := dict_set (dict_set [] SS_STR Vocab.SS) ES_STR Vocab.ES in
        inr (mkVocab ([] ++ [SS_STR] ++ [ES_STR]) w2i false (Some None))
    end.

End Files.

(** [self.w2i[w] = len(self.i2w); self.i2w.append(w)] *)
Definition add_word (self : vocab) (w : string) : vocab :=
  mkVocab (i2w self ++ [w]) (dict_set (w2i self) w (length (i2w self)))
          (frozen self) (unk_token self).

(** [return self.w2i[w]] *)
Definition lookup (self : vocab) (w : string) : (error + nat) * vocab :=
  match dict_get (w2i self) w with
  | Some word_id => (inr word_id, self)
  | None => (inl KeyError, self)
  end.

(** [Vocab.convert]: the result and the instance after the call. *)
Definition convert (self : vocab) (w : string) : (error + nat) * vocab :=
  if negb (dict_contains (w2i self) w)
  then
    if frozen self
    then match unk_token self with
         | None => (inl AttributeError, self)
         | Some None => (inl AssertionError, self)
         | Some (Some unk) => (inr unk, self)
         end
    else lookup (add_word self w) w
  else lookup self w.

(** The argument of [in]: an [int] or a [str]. *)
Inductive value : Type :=
| Int (z : Z)
| Str (s : string).

(** [elem == word] for a word of [i2w]: an [int] is never equal to a
    [str]. *)
Definition value_eqb (elem : value) (word : string) : bool :=
  match elem with
  | Int _ => false
  | Str s => String.eqb s word
  end.

(** [Vocab.__contains__] *)
Definition contains (self : vocab) (elem : value) : bool :=
  match elem with
  | Int _ => existsb (value_eqb elem) (i2w self)
  | Str s => dict_contains (w2i self) s
  end.

(** [Vocab.__getitem__]: [self.i2w[i]], where a negative index counts from
    the end. *)
Definition getitem (self : vocab) (i : Z) : error + string :=
  let n := Z.of_nat (length (i2w self)) in
  let j := if (i <? 0)%Z then (i + n)%Z else i in
  if ((0 <=? j) && (j <? n))%Z
  then match nth_error (i2w self) (Z.to_nat j) with
       | Some w => inr w
       | None => inl IndexError
       end
  else inl IndexError.

(** [Vocab.__len__] *)
Definition len (self : vocab) : nat := length (i2w self).

(** [Vocab.freeze] *)
Definition freeze (self : vocab) : vocab :=
  mkVocab (i2w self) (w2i self) true (unk_token self).

(** [Vocab.set_unk]: the result and the instance after the call. *)
Definition set_unk (self : vocab) (w : string) : (error + unit) * vocab :=
  if negb (frozen self) then (inl AssertionError, self)
  else
    let self1 := if negb (dict_contains (w2i self) w)
                 then add_word self w else self in
    match dict_get (w2i self1) w with
    | Some word_id =>
        (inr tt, mkVocab (i2w self1) (w2i self1) (frozen self1)
                         (Some (Some word_id)))
    | None => (inl KeyError, self1)
    end.

End VocabClass.

(** ** Instances: translators, a length normalization, a partial sort *)

Module Demo.
Import BeamSearch.

(** A full sort of the indices by score, smallest first: one of the results
    [np.argpartition] may return, for every [kth]. *)
Definition argsort (score : list Z) (kth : Z) : list nat :=
  rev (sorted_desc (fun i => nth i score 0%Z) (seq 0 (length score))).

(** A length normalization that adds the log-probabilities and reports the
    running score of each hypothesis. *)
Definition add_partial (score_so_far score_to_add : Z) (new_len : nat) : Z :=
  (score_so_far + score_to_add)%Z.

Definition running_scores {State Attention : Type}
    (hyps : list (@hypothesis State Attention)) (src_length : option nat)
  : list Z :=
  map h_score hyps.

(** Vocabulary of five words: 0 start, 1 end, 2, 3, 4.  The state counts the
    calls.  The distribution peaks at word 3 at the first call and at the
    end-of-sequence word from the second call on. *)
Definition peaked_distribution (calls : nat) : list Z :=
  if calls =? 0 then [-9; -8; -7; -1; -6]%Z else [-9; -1; -7; -8; -6]%Z.

Definition peaked (prev_word : option nat) (calls : nat)
  : @TranslatorOutput nat unit :=
  mkTranslatorOutput (S calls) (peaked_distribution calls) tt.



(** Vocabulary of four words.  The state is the path read in base four.  The
    two best words are: end and 2 at the start; 2 and 3 after [2]; end and 3
    after [2, 2] and after [2, 3]. *)
Definition branching_distribution (path : nat) : list Z :=
  (-9)%Z :: match path with
            | 0 => [-1; -2; -8]%Z
            | 2 => [-8; -1; -2]%Z
            | 10 => [-1; -8; -3]%Z
            | _ => [-1; -8; -4]%Z
            end.

Definition branching (prev_word : option nat) (path : nat)
  : @TranslatorOutput nat unit :=
  let path' := match prev_word with
               | Some w => 4 * path + w
               | None => path
               end in
  mkTranslatorOutput path' (branching_distribution path') tt.

(** The batched translator for one sentence that peaks at word 3, then at the
    end-of-sequence word. *)
Definition peaked_batch (prev_word : option (list nat)) (calls : nat)
  : @Batched.TranslatorOutput nat unit :=
  Batched.mkTranslatorOutput (S calls) [peaked_distribution calls] tt.

(** A sampler whose generator is a counter: every batch element gets the
    counter modulo five. *)
Definition counter_sample (logsoftmax : list (list Z)) (rng : nat)
  : list nat * nat :=
  (map (fun _ => rng mod 5) logsoftmax, S rng).

(** A batch of two sentences: the first peaks at the end-of-sequence word
    from the second call on, the second from the third call on. *)
Definition staggered_batch (prev_word : option (list nat)) (calls : nat)
  : @Batched.TranslatorOutput nat unit :=
  Batched.mkTranslatorOutput (S calls)
    [peaked_distribution calls; peaked_distribution (calls - 1)] tt.

(** Beam search with the additive normalization and the full sort. *)
Definition beam (translator : option nat -> nat
                              -> @BeamSearch.TranslatorOutput nat unit)
    (beam_size max_len : nat) (one_best : bool)
    (forced_trg_ids : option (list nat))
  : M BeamSearch.World (list BeamSearch.BeamOutput) :=
  BeamSearch.generate_output translator add_partial running_scores argsort
    beam_size max_len one_best 0 None forced_trg_ids.

(** Greedy search and sampling over the batched translator. *)
Definition greedy (max_len : nat)
    (forced_trg_ids : option GreedySearch.forced)
  : M Batched.World (list GreedySearch.GreedyOutput) :=
  GreedySearch.generate_output peaked_batch (fun s : nat => s) max_len 0 None
    forced_trg_ids.

Definition sampling (max_length sample_size : nat)
    (forced_trg_ids : option (list SamplingSearch.target))
  : M SamplingSearch.World (list SamplingSearch.SamplingOutput) :=
  SamplingSearch.generate_output peaked_batch (fun s : nat => s)
    counter_sample max_length sample_size 0 None forced_trg_ids.

End Demo.

(** ** Instances: a file system, [str.strip] on ASCII text *)

Module VocabDemo.
Import VocabClass.
Import String.StringSyntax.
Local Open Scope string_scope.
Local Open Scope list_scope.

Local Abbreviation string := String.string.

(** The ASCII characters that [str.strip] removes: tab, line feed, vertical
    tab, form feed, carriage return, the four separators, the blank. *)
Definition is_space (c : Ascii.ascii) : bool :=
  let n := Ascii.nat_of_ascii c in
  ((9 <=? n) && (n <=? 13)) || ((28 <=? n) && (n <=? 32)).

Fixpoint lstrip (s : string) : string :=
  match s with
  | String.EmptyString => s
  | String.String c s' => if is_space c then lstrip s' else s
  end.

Definition reverse (s : string) : string :=
  String.string_of_list_ascii (rev (String.list_ascii_of_string s)).

Definition strip (s : string) : string :=
  reverse (lstrip (reverse (lstrip s))).

(** A line of a text file: the text and the line feed. *)
Definition line (text : string) : string :=
  String.append text (String.String (Ascii.ascii_of_nat 10) String.EmptyString).

(** Two files: a word list with a repeated word and an empty line, and a
    word list with a reserved word. *)
Definition read_lines (path : string) : option (list string) :=
  if String.eqb path "vocab.txt"
  then Some [line "the"; line " cat"; line "sat  "; line "the"; line ""]
  else if String.eqb path "reserved.txt"
  then Some [line "the"; line " <unk>"; line "</s>"]
  else None.

End VocabDemo.

(** ** Facts about the built-ins *)

Lemma insert_desc_perm (A : Type) (key : A -> Z) (x : A) (l : list A) :
  Permutation (insert_desc key x l) (x :: l).
Proof.
  induction l as [|y l IH]; simpl; [reflexivity|].
  destruct (key x <? key y)%Z; [|reflexivity].
  rewrite IH. apply perm_swap.
Qed.

Lemma sorted_desc_perm (A : Type) (key : A -> Z) (l : list A) :
  Permutation (sorted_desc key l) l.
Proof.
  induction l as [|x l IH]; simpl; [reflexivity|].
  rewrite insert_desc_perm. now constructor.
Qed.

Lemma sorted_desc_length (A : Type) (key : A -> Z) (l : list A) :
  length (sorted_desc key l) = length l.
Proof. apply Permutation_length, sorted_desc_perm. Qed.

Lemma sorted_desc_In (A : Type) (key : A -> Z) (l : list A) (x : A) :
  In x (sorted_desc key l) <-> In x l.
Proof.
  split; apply Permutation_in;
    [apply sorted_desc_perm | symmetry; apply sorted_desc_perm].
Qed.

Definition descending {A : Type} (key : A -> Z) (l : list A) : Prop :=
  StronglySorted (fun a b => (key b <= key a)%Z) l.

Lemma insert_desc_descending (A : Type) (key : A -> Z) (x : A) (l : list A) :
  descending key l -> descending key (insert_desc key x l).
Proof.
  unfold descending.
  induction l as [|y l IH]; simpl; intros Hs.
  - constructor; [constructor | constructor].
  - inversion Hs as [|? ? Hl Hy]; subst.
    destruct (key x <? key y)%Z eqn:E.
    + apply Z.ltb_lt in E. constructor; [auto|].
      rewrite Forall_forall in *. intros z Hz.
      apply (Permutation_in _ (insert_desc_perm key x l)) in Hz.
      destruct Hz as [<-|Hz]; [lia | auto].
    + apply Z.ltb_ge in E. constructor; [assumption|].
      constructor; [assumption|].
      rewrite Forall_forall in *. intros z Hz. specialize (Hy z Hz). lia.
Qed.

Lemma sorted_desc_descending (A : Type) (key : A -> Z) (l : list A) :
  descending key (sorted_desc key l).
Proof.
  induction l as [|x l IH]; simpl.
  - constructor.
  - now apply insert_desc_descending.
Qed.

Lemma firstn_incl (A : Type) (n : nat) (l : list A) (x : A) :
  In x (firstn n l) -> In x l.
Proof.
  intros Hx. rewrite <- (firstn_skipn n l). apply in_or_app. now left.
Qed.

Lemma firstn_split (A : Type) (k m : nat) (l : list A) :
  k <= m -> firstn m l = firstn k l ++ firstn (m - k) (skipn k l).
Proof.
  revert m l. induction k as [|k IH]; intros m l Hk.
  - simpl. now rewrite Nat.sub_0_r.
  - destruct m as [|m]; [lia|]. destruct l as [|x l]; simpl.
    + now rewrite firstn_nil.
    + f_equal. apply IH. lia.
Qed.

Lemma firstn_snoc (A : Type) (n : nat) (l : list A) (x : A) :
  nth_error l n = Some x -> firstn (S n) l = firstn n l ++ [x].
Proof.
  revert l. induction n as [|n IH]; intros [|y l] H; simpl in *;
    try discriminate.
  - now inversion H.
  - f_equal. now apply IH.
Qed.

Lemma Forall2_nth_error (A B : Type) (R : A -> B -> Prop) (l1 : list A)
    (l2 : list B) (i : nat) (a : A) :
  Forall2 R l1 l2 -> nth_error l1 i = Some a ->
  exists b, nth_error l2 i = Some b /\ R a b.
Proof.
  intros HF. revert i. induction HF as [|x y l1 l2 Hxy _ IH]; intros [|i] Ha;
    simpl in *; try discriminate.
  - inversion Ha; subst. eauto.
  - now apply IH.
Qed.

Lemma Forall2_from_nth (A B : Type) (R : A -> B -> Prop) (l1 : list A) :
  forall l2 : list B,
    length l1 = length l2 ->
    (forall j a b, nth_error l1 j = Some a -> nth_error l2 j = Some b ->
       R a b) ->
    Forall2 R l1 l2.
Proof.
  induction l1 as [|a l1 IH]; intros [|b l2] Hl H; simpl in Hl;
    try discriminate; constructor.
  - apply (H 0); reflexivity.
  - apply IH; [lia|]. intros j a' b' Ha Hb. apply (H (S j)); assumption.
Qed.

Lemma Forall2_map_left (A B C : Type) (f : A -> B) (R : A -> C -> Prop)
    (l1 : list A) :
  forall l2 : list C,
    Forall2 (fun b c => forall a, b = f a -> R a c) (map f l1) l2 ->
    Forall2 R l1 l2.
Proof.
  induction l1 as [|a l1 IH]; intros l2 H; inversion H; subst;
    constructor; auto.
Qed.

Lemma Forall2_in_range (V : nat) (ds : list (list Z)) (xs : list nat) :
  Forall (fun d => length d = V) ds -> Forall (fun x => x < V) xs ->
  length ds = length xs ->
  Forall2 (fun d i => i < length d) ds xs.
Proof.
  intros Hd Hx Hl. apply Forall2_from_nth; [assumption|].
  intros j d x Hjd Hjx. rewrite Forall_forall in Hd, Hx.
  rewrite (Hd d) by (eapply nth_error_In; eauto).
  apply Hx. eapply nth_error_In; eauto.
Qed.

Lemma forallb_lengths (A : Type) (n : nat) (l : list (list A)) :
  Forall (fun c => length c = n) l ->
  forallb (fun c => length c =? n) l = true.
Proof.
  induction 1 as [|c l Hc _ IH]; simpl; [reflexivity|].
  rewrite IH, andb_true_r. now apply Nat.eqb_eq.
Qed.

Lemma nth_error_snoc (A : Type) (l : list A) (x y : A) (k : nat) :
  nth_error (l ++ [x]) k = Some y ->
  (k < length l /\ nth_error l k = Some y) \/ (k = length l /\ y = x).
Proof.
  intros H. destruct (Nat.lt_ge_cases k (length l)) as [Hk|Hk].
  - left. split; [assumption|]. now rewrite nth_error_app1 in H.
  - right. rewrite nth_error_app2 in H by assumption.
    destruct (k - length l) as [|n] eqn:E; simpl in H.
    + inversion H. split; [lia | reflexivity].
    + destruct n; discriminate.
Qed.

Lemma nth_error_snoc_last (A : Type) (l : list A) (x : A) :
  nth_error (l ++ [x]) (length l) = Some x.
Proof. rewrite nth_error_app2, Nat.sub_diag by lia. reflexivity. Qed.

Lemma nth_map_in (A B : Type) (f : A -> B) (l : list A) (n : nat) (d : B)
    (d0 : A) :
  n < length l -> nth n (map f l) d = f (nth n l d0).
Proof.
  intros H. rewrite nth_indep with (d' := f d0) by (now rewrite length_map).
  apply map_nth.
Qed.

Lemma all_true (d : list bool) :
  Forall (fun b => b = true) d -> all d = true.
Proof.
  induction 1 as [|b d -> _ IH]; [reflexivity|]. simpl. exact IH.
Qed.

Lemma firstn_In_mono (A : Type) (k m : nat) (l : list A) (x : A) :
  k <= m -> In x (firstn k l) -> In x (firstn m l).
Proof.
  intros Hk Hx. rewrite (firstn_split l Hk). apply in_or_app. now left.
Qed.

Lemma slice_last_incl (A : Type) (n : nat) (l : list A) (x : A) :
  In x (slice_last n l) -> In x l.
Proof.
  unfold slice_last. destruct (n =? 0); [trivial|].
  intros Hx. rewrite <- (firstn_skipn (length l - n) l).
  apply in_or_app. now right.
Qed.

Lemma slice_last_nonempty (A : Type) (n : nat) (l : list A) :
  l <> [] -> slice_last n l <> [].
Proof.
  unfold slice_last. intros Hl. destruct (n =? 0) eqn:E; [assumption|].
  apply Nat.eqb_neq in E. intros Hnil.
  apply (f_equal (@length A)) in Hnil. rewrite length_skipn in Hnil.
  destruct l; [congruence|]. simpl length in Hnil. lia.
Qed.

(** A word sequence up to and including its first end-of-sequence word. *)
Fixpoint until_ES (trg : list nat) : list nat :=
  match trg with
  | [] => []
  | x :: trg' => if x =? Vocab.ES then [x] else x :: until_ES trg'
  end.

Lemma until_ES_head (trg : list nat) :
  nth 0 (until_ES trg) Vocab.ES = nth 0 trg Vocab.ES.
Proof.
  destruct trg as [|x trg]; [reflexivity|]. simpl.
  destruct (x =? Vocab.ES); reflexivity.
Qed.

Lemma until_ES_after_end (trg : list nat) :
  forall k, nth k (until_ES trg) Vocab.ES = Vocab.ES ->
            nth (S k) (until_ES trg) Vocab.ES = Vocab.ES.
Proof.
  induction trg as [|x trg IH]; intros k H.
  - reflexivity.
  - simpl in *. destruct (x =? Vocab.ES) eqn:Ex.
    + destruct k; reflexivity.
    + destruct k as [|k].
      * simpl in H. subst x. discriminate.
      * simpl in H. now apply IH.
Qed.

Lemma until_ES_before_end (trg : list nat) :
  forall k, nth k (until_ES trg) Vocab.ES <> Vocab.ES ->
            nth (S k) (until_ES trg) Vocab.ES = nth (S k) trg Vocab.ES.
Proof.
  induction trg as [|x trg IH]; intros k H.
  - destruct k; contradiction.
  - simpl in *. destruct (x =? Vocab.ES) eqn:Ex.
    + apply Nat.eqb_eq in Ex. subst x. destruct k as [|[|k]]; contradiction.
    + destruct k as [|k].
      * apply until_ES_head.
      * simpl in H. now apply IH.
Qed.

Lemma bind_Ok (S A B : Type) (m : M S A) (k : A -> M S B) (s s1 : S) (a : A) :
  m s = (Ok a, s1) -> bind m k s = k a s1.
Proof. intros H. unfold bind. now rewrite H. Qed.

Lemma bind_Raise (S A B : Type) (m : M S A) (k : A -> M S B) (s s1 : S)
    (e : exn) :
  m s = (Raise e, s1) -> bind m k s = (Raise e, s1).
Proof. intros H. unfold bind. now rewrite H. Qed.

Lemma bind_inv (S A B : Type) (m : M S A) (k : A -> M S B) (s s' : S)
    (b : B) :
  bind m k s = (Ok b, s') ->
  exists a s1, m s = (Ok a, s1) /\ k a s1 = (Ok b, s').
Proof.
  unfold bind. destruct (m s) as [[a|e] s1]; [eauto | discriminate].
Qed.

Lemma foldM_single (S A B : Type) (f : A -> B -> M S A) (x : B) (a : A)
    (s : S) :
  foldM f [x] a s = f a x s.
Proof. simpl. unfold bind. destruct (f a x s) as [[a'|e] s']; reflexivity. Qed.

Tactic Notation "bind_ok" constr(H) :=
  rewrite (@bind_Ok _ _ _ _ _ _ _ _ H); cbv beta.
Tactic Notation "bind_raise" constr(H) :=
  rewrite (@bind_Raise _ _ _ _ _ _ _ _ H).
Tactic Notation "bind_ok" constr(H) "in" hyp(H') :=
  rewrite (@bind_Ok _ _ _ _ _ _ _ _ H) in H'; cbv beta in H'.
Tactic Notation "bind_raise" constr(H) "in" hyp(H') :=
  rewrite (@bind_Raise _ _ _ _ _ _ _ _ H) in H'.

(** ** A program logic for [M]

    [hoare P m Q E]: started in a world satisfying [P], the computation [m]
    either returns [a] in a world satisfying [Q a], or raises [e] in a world
    satisfying [E e].  With [E] everywhere false this is total correctness. *)

Definition hoare {S A : Type} (P : S -> Prop) (m : M S A)
    (Q : A -> S -> Prop) (E : exn -> S -> Prop) : Prop :=
  forall s, P s ->
    match m s with
    | (Ok a, s') => Q a s'
    | (Raise e, s') => E e s'
    end.

Definition no_exn {S : Type} : exn -> S -> Prop := fun _ _ => False.

Section HoareRules.
Context {S : Type}.
Implicit Types (P : S -> Prop) (E : exn -> S -> Prop).

Lemma hoare_ret (A : Type) P (a : A) (Q : A -> S -> Prop) E :
  (forall s, P s -> Q a s) -> hoare P (ret a) Q E.
Proof. intros H s Hs. simpl. auto. Qed.

Lemma hoare_raise (A : Type) P (e : exn) (Q : A -> S -> Prop) E :
  (forall s, P s -> E e s) -> hoare P (raise e) Q E.
Proof. intros H s Hs. simpl. auto. Qed.

Lemma hoare_bind (A B : Type) P (m : M S A) (k : A -> M S B)
    (R : A -> S -> Prop) (Q : B -> S -> Prop) E :
  hoare P m R E -> (forall a, hoare (R a) (k a) Q E) ->
  hoare P (bind m k) Q E.
Proof.
  intros Hm Hk s Hs. unfold bind. specialize (Hm s Hs).
  destruct (m s) as [[a|e] s']; [|assumption].
  now apply Hk.
Qed.

Lemma hoare_conseq (A : Type) P P' (m : M S A) (Q Q' : A -> S -> Prop) E E' :
  hoare P' m Q' E' ->
  (forall s, P s -> P' s) ->
  (forall a s, Q' a s -> Q a s) ->
  (forall e s, E' e s -> E e s) ->
  hoare P m Q E.
Proof.
  intros Hm HP HQ HE s Hs. specialize (Hm s (HP s Hs)).
  destruct (m s) as [[a|e] s']; auto.
Qed.

Lemma hoare_getitem (A : Type) P (l : list A) (i : nat)
    (Q : A -> S -> Prop) E :
  (forall s, P s -> match nth_error l i with
                    | Some x => Q x s
                    | None => E IndexError s
                    end) ->
  hoare P (getitem l i) Q E.
Proof.
  intros H s Hs. specialize (H s Hs). unfold getitem.
  destruct (nth_error l i); simpl; assumption.
Qed.

Lemma hoare_lift (A : Type) P (r : result A) (Q : A -> S -> Prop) E :
  (forall s, P s -> match r with Ok a => Q a s | Raise e => E e s end) ->
  hoare P (lift r) Q E.
Proof. intros H s Hs. unfold lift. specialize (H s Hs). destruct r; auto. Qed.

(** The invariant of a [for] loop is indexed by the elements still to visit. *)
Lemma hoare_foldM (A B : Type) (f : A -> B -> M S A)
    (I : list B -> A -> S -> Prop) E :
  (forall x rest a, hoare (I (x :: rest) a) (f a x) (I rest) E) ->
  forall l a, hoare (I l a) (foldM f l a) (I []) E.
Proof.
  intros Hf l. induction l as [|x l IH]; intros a.
  - apply hoare_ret. trivial.
  - simpl. eapply hoare_bind; [apply Hf|]. intros a'. apply IH.
Qed.

Lemma hoare_mapM (A B : Type) (f : A -> M S B) P (R : A -> B -> Prop) E :
  (forall x, hoare P (f x) (fun y s => R x y /\ P s) E) ->
  forall l, hoare P (mapM f l) (fun ys s => Forall2 R l ys /\ P s) E.
Proof.
  intros Hf l. induction l as [|x l IH]; intros s Hs; simpl.
  - auto.
  - unfold bind. specialize (Hf x s Hs).
    destruct (f x s) as [[y|e] s1]; [|assumption].
    destruct Hf as [HR Hs1]. specialize (IH s1 Hs1).
    destruct (mapM f l s1) as [[ys|e] s2]; [|assumption].
    destruct IH as [HF Hs2]. simpl. auto.
Qed.

End HoareRules.

(** ** [HypScore] *)

Lemma HypScore_init_default (V : Type) `{PyTruth V} (n : V) :
  HypScore_init n None = Ok (mkHypScore n n).
Proof. reflexivity. Qed.

Lemma HypScore_init_nonzero (n u : Z) :
  u <> 0%Z -> HypScore_init n (Some u) = Ok (mkHypScore n u).
Proof.
  intros Hu. unfold HypScore_init, py_bool, float_truth.
  destruct (Z.eqb_spec u 0); [contradiction | reflexivity].
Qed.

Lemma HypScore_init_normalized (n : Z) (u : option Z) :
  exists u', HypScore_init n u = Ok (mkHypScore n u').
Proof.
  destruct u as [u|]; [|now exists n].
  unfold HypScore_init, py_bool, float_truth.
  destruct (u =? 0)%Z; simpl; eauto.
Qed.

(** C9, the code at the failing input: a supplied raw score of zero is not
    kept.  [HypScore(-3, 0)] stores [unnormalized = -3], since [0 or -3]
    evaluates to [-3]; whatever the normalized value, a raw score of zero is
    replaced by it. *)
Lemma C9_zero_raw_score_is_replaced :
  HypScore_init (-3)%Z (Some 0%Z) = Ok (mkHypScore (-3)%Z (-3)%Z)
  /\ forall n : Z, HypScore_init n (Some 0%Z) = Ok (mkHypScore n n).
Proof. split; reflexivity. Qed.

(** ** The batched operations *)

Module BatchedFacts.
Import Batched.

Section Operations.
Context {W : Type}.

Lemma mask_words_ok (done : list bool) :
  forall (i : nat) (word_id : list nat) (w w' : W) (r : list nat),
    mask_words done i word_id w = (Ok r, w') ->
    w' = w
    /\ Forall2 (fun (d : bool) x => d = true -> x = Vocab.ES) done r
    /\ (forall j x, nth_error r j = Some x -> nth j done true = false ->
          nth_error word_id (i + j) = Some x).
Proof.
  induction done as [|d done IH]; intros i word_id w w' r H; simpl in H.
  - inversion H; subst. repeat split; [constructor|].
    intros [|j] x Hx; discriminate.
  - unfold bind in H.
    destruct d; simpl in H.
    + destruct (mask_words done (S i) word_id w) as [[ws|e] w1] eqn:E;
        [|discriminate].
      inversion H; subst. destruct (IH _ _ _ _ _ E) as (-> & HF & Hn).
      repeat split; [constructor; auto|].
      intros [|j] x Hx Hd; simpl in *; [discriminate|].
      rewrite <- Nat.add_succ_comm. now apply Hn.
    + unfold getitem in H.
      destruct (nth_error word_id i) as [x0|] eqn:Ex; simpl in H;
        [|discriminate].
      destruct (mask_words done (S i) word_id w) as [[ws|e] w1] eqn:E;
        [|discriminate].
      inversion H; subst. destruct (IH _ _ _ _ _ E) as (-> & HF & Hn).
      repeat split; [constructor; [discriminate|auto]|].
      intros [|j] x Hx Hd; simpl in *.
      * rewrite Nat.add_0_r. congruence.
      * rewrite <- Nat.add_succ_comm. now apply Hn.
Qed.

Lemma mask_words_total (done : list bool) :
  forall (i : nat) (word_id : list nat) (w : W),
    i + length done <= length word_id ->
    exists r, mask_words done i word_id w = (Ok r, w).
Proof.
  induction done as [|d done IH]; intros i word_id w Hlen; simpl.
  - eexists. reflexivity.
  - simpl in Hlen. destruct (IH (S i) word_id w) as (ws & Hws); [lia|].
    destruct d; simpl.
    + eexists. unfold bind at 1. simpl. bind_ok Hws. reflexivity.
    + destruct (nth_error word_id i) as [x|] eqn:Ex.
      * eexists. unfold bind at 1, getitem. rewrite Ex. simpl.
        bind_ok Hws. reflexivity.
      * apply nth_error_None in Ex. lia.
Qed.

Lemma pick_batch_ok (e : list (list Z)) :
  forall (indices : list nat) (w w' : W) (r : list Z),
    pick_batch e indices w = (Ok r, w') ->
    w' = w /\ length r = length indices /\ length e = length indices.
Proof.
  induction e as [|d e IH]; intros [|i indices] w w' r H; simpl in H;
    try discriminate.
  - inversion H; subst. auto.
  - unfold bind in H. destruct (nth_error d i); simpl in H; [|discriminate].
    destruct (pick_batch e indices w) as [[xs|ex] w1] eqn:E; [|discriminate].
    inversion H; subst. destruct (IH _ _ _ _ E) as (-> & H1 & H2).
    simpl. auto.
Qed.

Lemma pick_batch_total (e : list (list Z)) :
  forall (indices : list nat) (w : W),
    Forall2 (fun d i => i < length d) e indices ->
    exists r, pick_batch e indices w = (Ok r, w).
Proof.
  induction e as [|d e IH]; intros indices w HF; inversion HF; subst; simpl.
  - eexists. reflexivity.
  - destruct (IH _ w H3) as (xs & Hxs).
    destruct (nth_error d y) as [x|] eqn:Ex.
    + eexists. unfold bind at 1. simpl. bind_ok Hxs. reflexivity.
    + apply nth_error_None in Ex. lia.
Qed.

Lemma cmult_ok (x : list Z) :
  forall (done : list bool) (w w' : W) (r : list Z),
    cmult x (mask_of done) w = (Ok r, w') ->
    w' = w /\ length x = length done
    /\ Forall2 (fun (d : bool) v => d = true -> v = 0%Z) done r.
Proof.
  induction x as [|a x IH]; intros [|d done] w w' r H; simpl in H;
    try discriminate.
  - inversion H; subst. repeat split. constructor.
  - unfold bind in H.
    destruct (cmult x (mask_of done) w) as [[xs|ex] w1] eqn:E;
      [|discriminate].
    inversion H; subst. destruct (IH _ _ _ _ E) as (-> & Hl & HF).
    repeat split; [simpl; lia|]. constructor; [|assumption].
    intros ->. simpl. lia.
Qed.

Lemma cmult_total (x : list Z) :
  forall (mask : list Z) (w : W),
    length x = length mask -> exists r, cmult x mask w = (Ok r, w).
Proof.
  induction x as [|a x IH]; intros [|m mask] w Hl; simpl in *;
    try discriminate.
  - eexists. reflexivity.
  - destruct (IH mask w) as (r & Hr); [lia|].
    eexists. bind_ok Hr. reflexivity.
Qed.

Lemma mapM_pure (A B : Type) (f : A -> M W B) (l : list A) :
  (forall x w r w', f x w = (r, w') -> w' = w) ->
  forall w r w', mapM f l w = (r, w') -> w' = w.
Proof.
  intros Hf. induction l as [|x l IH]; intros w r w' H; simpl in H.
  - now inversion H.
  - unfold bind in H. destruct (f x w) as [[y|e] w1] eqn:E.
    + apply Hf in E. subst w1.
      destruct (mapM f l w) as [[ys|e] w2] eqn:E2.
      * apply IH in E2. inversion H; subst. reflexivity.
      * apply IH in E2. inversion H; subst. reflexivity.
    + apply Hf in E. inversion H; subst. reflexivity.
Qed.

Lemma mapM_ok_Forall2 (A B : Type) (f : A -> M W B) (R : A -> B -> Prop)
    (l : list A) :
  (forall x w y w', f x w = (Ok y, w') -> R x y) ->
  forall w ys w', mapM f l w = (Ok ys, w') -> Forall2 R l ys.
Proof.
  intros Hf. induction l as [|x l IH]; intros w ys w' H; simpl in H.
  - inversion H; subst. constructor.
  - unfold bind in H. destruct (f x w) as [[y|e] w1] eqn:E; [|discriminate].
    destruct (mapM f l w1) as [[ys'|e] w2] eqn:E2; [|discriminate].
    inversion H; subst. constructor; eauto.
Qed.

Lemma mapM_total (A B : Type) (f : A -> M W B) (l : list A) (w : W) :
  Forall (fun x => exists y, f x w = (Ok y, w)) l ->
  exists ys, mapM f l w = (Ok ys, w).
Proof.
  induction 1 as [|x l (y & Hy) _ (ys & Hys)]; simpl.
  - eexists. reflexivity.
  - eexists. bind_ok Hy. bind_ok Hys. reflexivity.
Qed.

Lemma argmax_from_bound (l : list Z) :
  forall best_i best i, best_i < i ->
    argmax_from best_i best i l < i + length l.
Proof.
  induction l as [|x l IH]; intros best_i best i Hi; simpl; [lia|].
  destruct (best <? x)%Z.
  - specialize (IH i x (S i)). lia.
  - specialize (IH best_i best (S i)). lia.
Qed.

Lemma argmax_ok (d : list Z) (w w' : W) (i : nat) :
  argmax d w = (Ok i, w') -> w' = w /\ i < length d.
Proof.
  destruct d as [|x d]; simpl; intros H; [discriminate|].
  inversion H; subst. split; [reflexivity|].
  assert (Hb := @argmax_from_bound d 0 x 1). simpl. lia.
Qed.

Lemma argmax_total (d : list Z) (w : W) :
  d <> [] -> exists i, argmax d w = (Ok i, w).
Proof.
  destruct d as [|x d]; [contradiction|]. intros _. eexists. reflexivity.
Qed.

End Operations.

(** [np.stack(cols, axis=1)] *)
Definition transpose (cols : list (list nat)) : list (list nat) :=
  map (fun i => map (fun c => nth i c 0) cols)
      (seq 0 (length (hd [] cols))).

Lemma transpose_nth (cols : list (list nat)) (n i : nat) (row : list nat) :
  cols <> [] -> Forall (fun c => length c = n) cols ->
  nth_error (transpose cols) i = Some row ->
  i < n /\ row = map (fun c => nth i c 0) cols.
Proof.
  intros Hne HF. unfold transpose.
  assert (Hhd : length (hd [] cols) = n).
  { destruct cols; [contradiction|]. now inversion HF. }
  rewrite Hhd. intros H.
  assert (Hi : i < n).
  { assert (Hlt : i < length (map (fun i0 => map (fun c => nth i0 c 0) cols)
                                  (seq 0 n)))
      by (apply nth_error_Some; congruence).
    now rewrite length_map, length_seq in Hlt. }
  split; [assumption|].
  rewrite nth_error_map, nth_error_seq in H.
  apply Nat.ltb_lt in Hi. rewrite Hi in H. simpl in H. now inversion H.
Qed.

Lemma transpose_entry (cols : list (list nat)) (n i k x : nat)
    (row : list nat) :
  cols <> [] -> Forall (fun c => length c = n) cols ->
  nth_error (transpose cols) i = Some row ->
  nth_error row k = Some x ->
  exists col, nth_error cols k = Some col /\ nth_error col i = Some x.
Proof.
  intros Hne HF Hrow Hx.
  destruct (@transpose_nth cols n i row Hne HF Hrow) as (Hi & ->).
  rewrite nth_error_map in Hx.
  destruct (nth_error cols k) as [col|] eqn:Ec; [|discriminate].
  simpl in Hx. inversion Hx. exists col. split; [reflexivity|].
  assert (Hl : length col = n).
  { rewrite Forall_forall in HF. apply HF. eapply nth_error_In; eauto. }
  apply nth_error_nth'. lia.
Qed.

Lemma transpose_entry_inv (cols : list (list nat)) (n i k x : nat)
    (row col : list nat) :
  cols <> [] -> Forall (fun c => length c = n) cols ->
  nth_error (transpose cols) i = Some row ->
  nth_error cols k = Some col -> nth_error col i = Some x ->
  nth_error row k = Some x.
Proof.
  intros Hne HF Hrow Hc Hx.
  destruct (@transpose_nth cols n i row Hne HF Hrow) as (Hi & ->).
  rewrite nth_error_map, Hc. simpl. f_equal. now apply nth_error_nth.
Qed.

Lemma transpose_row_length (cols : list (list nat)) :
  Forall (fun row => length row = length cols) (transpose cols).
Proof.
  unfold transpose. apply Forall_forall. intros row Hrow.
  apply in_map_iff in Hrow. destruct Hrow as (i & <- & _).
  apply length_map.
Qed.

End BatchedFacts.

(** ** [GreedySearch]: one step *)

Module GreedyFacts.
Import Batched BatchedFacts GreedySearch.

Section Facts.
Context {State NobpState Attention : Type}.
Local Abbreviation TranslatorOutput := (@TranslatorOutput State Attention).
Local Abbreviation World := (@World State).
Local Abbreviation Locals := (@Locals State NobpState Attention).
Local Abbreviation GreedyOutput := (@GreedyOutput NobpState Attention).
Variable output_one_step : option (list nat) -> State -> TranslatorOutput.
Variable get_nobp_state : State -> NobpState.
Variable max_len : nat.

Local Abbreviation greedy_step :=
  (greedy_step output_one_step get_nobp_state).
Local Abbreviation greedy_loop :=
  (greedy_loop output_one_step get_nobp_state).
Local Abbreviation finish := (@finish State NobpState Attention).
Local Abbreviation generate_output :=
  (generate_output output_one_step get_nobp_state max_len).

(** The forced targets, one per batch element. *)
Definition rows_of (f : forced) : list (list nat) :=
  match f with
  | Unbatched trg => [trg]
  | Batched trgs => trgs
  end.

Lemma choose_ok (forced_trg_ids : option forced) (len : nat)
    (out : TranslatorOutput) (w w' : World) (word_id : list nat) :
  choose forced_trg_ids len out w = (Ok word_id, w') ->
  w' = w
  /\ match forced_trg_ids with
     | None => Forall2 (fun d i => i < length d) (t_logsoftmax out) word_id
     | Some f =>
         Forall2 (fun row x => nth_error row len = Some x) (rows_of f) word_id
     end.
Proof.
  unfold choose. destruct forced_trg_ids as [[trg|trgs]|]; intros H.
  - unfold bind, getitem in H. destruct (nth_error trg len) eqn:E;
      simpl in H; [|discriminate].
    inversion H; subst. split; [reflexivity|]. simpl. repeat constructor.
    exact E.
  - split.
    + eapply mapM_pure; [|exact H]. intros x w0 r w0'. unfold getitem.
      destruct (nth_error x len); simpl; intros H0; now inversion H0.
    + eapply mapM_ok_Forall2; [|exact H]. intros x w0 y w0'. unfold getitem.
      destruct (nth_error x len); simpl; intros H0; now inversion H0.
  - split.
    + eapply mapM_pure; [|exact H]. intros x w0 r w0' H0.
      destruct x; simpl in H0; now inversion H0.
    + eapply mapM_ok_Forall2; [|exact H]. intros x w0 y w0' H0.
      now apply argmax_ok in H0.
Qed.

(** What a step that returns has done. *)
Definition prev_word_of (len : nat) (v : Locals) : option (list nat) :=
  if 0 <? len then nth_error (v_word_ids v) (len - 1) else None.

(** The step after [prev_word] is read. *)
Definition step_tail (forced_trg_ids : option forced) (len : nat)
    (v : Locals) (prev_word : option (list nat)) : M World Locals :=
  current_output <- call_translator output_one_step prev_word
                                    (v_current_state v) ;;
  let current_state := t_state current_output in
  word_id0 <- choose forced_trg_ids len current_output ;;
  st <- match v_done v with
        | Some done =>
            word_id <- mask_words done 0 word_id0 ;;
            let mask := mask_of done in
            logsoft0 <- pick_batch (t_logsoftmax current_output) word_id0 ;;
            logsoft <- cmult logsoft0 mask ;;
            ret (word_id, logsoft, v_masks v ++ [mask])
        | None =>
            logsoft <- pick_batch (t_logsoftmax current_output) word_id0 ;;
            ret (word_id0, logsoft, v_masks v)
        end ;;
  let '(word_id, logsoft, masks) := st in
  ret (mkLocals (v_score v ++ [logsoft])
                (v_word_ids v ++ [word_id])
                (v_attentions v ++ [t_attention current_output])
                (v_logsoftmaxes v
                   ++ [(t_logsoftmax current_output, word_id)])
                (v_states v ++ [get_nobp_state current_state])
                masks
                (Some (done_of word_id))
                current_state).

Lemma greedy_step_eq (forced_trg_ids : option forced) (len : nat)
    (v : Locals) (log : World) :
  greedy_step forced_trg_ids len v log =
  if 0 <? len
  then match nth_error (v_word_ids v) (len - 1) with
       | Some w => step_tail forced_trg_ids len v (Some w) log
       | None => (Raise IndexError, log)
       end
  else step_tail forced_trg_ids len v None log.
Proof.
  unfold GreedySearch.greedy_step. destruct (0 <? len).
  - unfold bind at 1. unfold bind at 1, getitem.
    destruct (nth_error (v_word_ids v) (len - 1)); reflexivity.
  - reflexivity.
Qed.

Lemma step_tail_ok (forced_trg_ids : option forced) (len : nat)
    (v v' : Locals) (prev_word : option (list nat)) (log log' : World) :
  step_tail forced_trg_ids len v prev_word log = (Ok v', log') ->
  exists word_id0 word_id logsoft,
    let out := output_one_step prev_word (v_current_state v) in
    log' = log ++ [(prev_word, v_current_state v)]
    /\ choose forced_trg_ids len out log' = (Ok word_id0, log')
    /\ v_word_ids v' = v_word_ids v ++ [word_id]
    /\ v_score v' = v_score v ++ [logsoft]
    /\ v_attentions v' = v_attentions v ++ [t_attention out]
    /\ v_logsoftmaxes v' = v_logsoftmaxes v ++ [(t_logsoftmax out, word_id)]
    /\ v_states v' = v_states v ++ [get_nobp_state (t_state out)]
    /\ v_done v' = Some (done_of word_id)
    /\ v_current_state v' = t_state out
    /\ length logsoft = length word_id0
    /\ length (t_logsoftmax out) = length word_id0
    /\ match v_done v with
       | None => word_id = word_id0 /\ v_masks v' = v_masks v
       | Some d =>
           v_masks v' = v_masks v ++ [mask_of d]
           /\ Forall2 (fun (b : bool) x => b = true -> x = Vocab.ES) d word_id
           /\ Forall2 (fun (b : bool) s => b = true -> s = 0%Z) d logsoft
           /\ length d = length word_id0
           /\ (forall j x, nth_error word_id j = Some x ->
                 nth j d true = false -> nth_error word_id0 j = Some x)
       end.
Proof.
  unfold step_tail. intros H.
  set (log1 := log ++ [(prev_word, v_current_state v)]) in *.
  set (out := output_one_step prev_word (v_current_state v)) in *.
  rewrite bind_Ok with (a := out) (s1 := log1) in H by reflexivity.
  cbv beta zeta in H.
  destruct (choose forced_trg_ids len out log1) as [[word_id0|e] log2] eqn:Ec.
  2:{ bind_raise Ec in H. discriminate. }
  assert (log2 = log1) by (apply choose_ok in Ec; tauto). subst log2.
  bind_ok Ec in H.
  destruct (v_done v) as [d|] eqn:Ed.
  - destruct (mask_words d 0 word_id0 log1) as [[word_id|e] log2] eqn:Em.
    2:{ rewrite bind_Raise with (e := e) (s1 := log2) in H
          by (now apply bind_Raise).
        discriminate. }
    destruct (mask_words_ok _ _ _ _ Em) as (-> & HF & Hn).
    destruct (pick_batch (t_logsoftmax out) word_id0 log1)
      as [[sc0|e] log2] eqn:Ep.
    2:{ rewrite bind_Raise with (e := e) (s1 := log2) in H
          by (bind_ok Em; now apply bind_Raise).
        discriminate. }
    destruct (pick_batch_ok _ _ _ Ep) as (-> & Hl1 & Hl2).
    destruct (cmult sc0 (mask_of d) log1) as [[sc|e] log2] eqn:Ecm.
    2:{ rewrite bind_Raise with (e := e) (s1 := log2) in H
          by (bind_ok Em; bind_ok Ep; now apply bind_Raise).
        discriminate. }
    destruct (cmult_ok _ _ _ Ecm) as (-> & Hl3 & HF2).
    rewrite bind_Ok with (a := (word_id, sc, v_masks v ++ [mask_of d]))
                         (s1 := log1) in H
      by (bind_ok Em; bind_ok Ep; bind_ok Ecm; reflexivity).
    cbv beta iota in H. inversion H; subst v' log'. simpl.
    exists word_id0, word_id, sc. cbv zeta. fold out.
    assert (Hlsc : length sc = length d)
      by (symmetry; eapply Forall2_length; eauto).
    repeat split; auto; lia.
  - destruct (pick_batch (t_logsoftmax out) word_id0 log1)
      as [[sc|e] log2] eqn:Ep.
    2:{ rewrite bind_Raise with (e := e) (s1 := log2) in H
          by (now apply bind_Raise).
        discriminate. }
    destruct (pick_batch_ok _ _ _ Ep) as (-> & Hl1 & Hl2).
    rewrite bind_Ok with (a := (word_id0, sc, v_masks v)) (s1 := log1) in H
      by (bind_ok Ep; reflexivity).
    cbv beta iota in H. inversion H; subst v' log'. simpl.
    exists word_id0, word_id0, sc. cbv zeta. fold out.
    repeat split; auto.
Qed.

Lemma greedy_step_ok (forced_trg_ids : option forced) (len : nat)
    (v v' : Locals) (log log' : World) :
  greedy_step forced_trg_ids len v log = (Ok v', log') ->
  exists word_id0 word_id logsoft,
    let out := output_one_step (prev_word_of len v) (v_current_state v) in
    log' = log ++ [(prev_word_of len v, v_current_state v)]
    /\ choose forced_trg_ids len out log' = (Ok word_id0, log')
    /\ v_word_ids v' = v_word_ids v ++ [word_id]
    /\ v_score v' = v_score v ++ [logsoft]
    /\ v_attentions v' = v_attentions v ++ [t_attention out]
    /\ v_logsoftmaxes v' = v_logsoftmaxes v ++ [(t_logsoftmax out, word_id)]
    /\ v_states v' = v_states v ++ [get_nobp_state (t_state out)]
    /\ v_done v' = Some (done_of word_id)
    /\ v_current_state v' = t_state out
    /\ length logsoft = length word_id0
    /\ length (t_logsoftmax out) = length word_id0
    /\ match v_done v with
       | None => word_id = word_id0 /\ v_masks v' = v_masks v
       | Some d =>
           v_masks v' = v_masks v ++ [mask_of d]
           /\ Forall2 (fun (b : bool) x => b = true -> x = Vocab.ES) d word_id
           /\ Forall2 (fun (b : bool) s => b = true -> s = 0%Z) d logsoft
           /\ length d = length word_id0
           /\ (forall j x, nth_error word_id j = Some x ->
                 nth j d true = false -> nth_error word_id0 j = Some x)
       end.
Proof.
  rewrite greedy_step_eq. unfold prev_word_of.
  destruct (0 <? len).
  - destruct (nth_error (v_word_ids v) (len - 1)); [|discriminate].
    apply step_tail_ok.
  - apply step_tail_ok.
Qed.

(** ** [GreedySearch]: what the loop maintains *)

(** After at least one step the lists have one entry per step ([masks] one
    less), [done] describes the last words, and the entries of one step have
    one length. *)
Definition Shape (v : Locals) : Prop :=
  match v_done v with
  | None =>
      v_word_ids v = [] /\ v_score v = [] /\ v_masks v = []
      /\ v_attentions v = [] /\ v_logsoftmaxes v = [] /\ v_states v = []
  | Some d =>
      exists ws w,
        v_word_ids v = ws ++ [w] /\ d = done_of w
        /\ length (v_masks v) = length ws
        /\ length (v_score v) = S (length ws)
        /\ length (v_attentions v) = S (length ws)
        /\ length (v_logsoftmaxes v) = S (length ws)
        /\ length (v_states v) = S (length ws)
        /\ Forall (fun c => length c = length w) (v_word_ids v)
        /\ Forall (fun s => length s = length w) (v_score v)
        /\ Forall (fun m => length m = length w) (v_masks v)
  end.

(** Between two consecutive steps: an element whose word was the
    end-of-sequence word keeps it, its mask is 0 and its entry in [score]
    is 0. *)
Definition Masked (v : Locals) : Prop :=
  forall k prev cur,
    nth_error (v_word_ids v) k = Some prev ->
    nth_error (v_word_ids v) (S k) = Some cur ->
    Forall2 (fun p c => p = Vocab.ES -> c = Vocab.ES) prev cur
    /\ (exists m, nth_error (v_masks v) k = Some m
                  /\ Forall2 (fun p x => p = Vocab.ES -> x = 0%Z) prev m)
    /\ (exists sc, nth_error (v_score v) (S k) = Some sc
                   /\ Forall2 (fun p x => p = Vocab.ES -> x = 0%Z) prev sc).

Lemma Forall2_done_of (A : Type) (P : A -> Prop) (w : list nat) (l : list A) :
  Forall2 (fun (b : bool) x => b = true -> P x) (done_of w) l ->
  Forall2 (fun p x => p = Vocab.ES -> P x) w l.
Proof.
  revert l. induction w as [|p w IH]; intros l H; inversion H; subst;
    constructor; auto.
  intros ->. auto.
Qed.

Lemma Forall2_mask_of (w : list nat) :
  Forall2 (fun p x => p = Vocab.ES -> x = 0%Z) w (mask_of (done_of w)).
Proof.
  induction w as [|p w IH]; simpl; constructor; auto.
  intros ->. reflexivity.
Qed.

Lemma step_keeps_Shape (forced_trg_ids : option forced) (len : nat)
    (v v' : Locals) (log log' : World) :
  greedy_step forced_trg_ids len v log = (Ok v', log') ->
  Shape v -> Masked v -> Shape v' /\ Masked v'.
Proof.
  intros Hstep Hshape Hmasked.
  destruct (greedy_step_ok _ _ _ _ Hstep)
    as (w0 & w1 & sc & Hlog & Hch & Hw & Hs & Ha & Hl & Hst & Hd & Hcs
        & Hlsc & Hlo & Hcase).
  cbv zeta in *. unfold Shape in *. rewrite Hd.
  destruct (v_done v) as [d|] eqn:Ed.
  - destruct Hshape as (ws & w & Hws & -> & Hlm & Hlsc' & Hla & Hll & Hls
                        & Fw & Fs & Fm).
    destruct Hcase as (Hm & HF1 & HF2 & Hld & Hn).
    assert (Hlen1 : length w1 = length w).
    { apply Forall2_length in HF1. unfold done_of in HF1.
      rewrite length_map in HF1. lia. }
    assert (Hlen0 : length w0 = length w).
    { unfold done_of in Hld. rewrite length_map in Hld. lia. }
    split.
    + exists (v_word_ids v), w1. rewrite Hw, Hs, Ha, Hl, Hst, Hm.
      rewrite !length_app, Hws, !length_app. simpl.
      repeat split; try lia.
      * apply Forall_app. split; [|constructor; auto].
        rewrite <- Hws. eapply Forall_impl; [|exact Fw]. cbv beta.
        intros; lia.
      * apply Forall_app. split; [|constructor; [lia|auto]].
        eapply Forall_impl; [|exact Fs]. cbv beta. intros; lia.
      * apply Forall_app. split.
        -- eapply Forall_impl; [|exact Fm]. cbv beta. intros; lia.
        -- constructor; [|auto]. unfold mask_of, done_of.
           rewrite !length_map. lia.
    + intros k prev cur Hp Hc. rewrite Hw in Hp, Hc.
      apply nth_error_snoc in Hc. destruct Hc as [(Hk & Hc)|(Hk & ->)].
      * rewrite nth_error_app1 in Hp by lia.
        destruct (Hmasked k prev cur Hp Hc) as (H1 & (m & Hm1 & Hm2)
                                                & (sc' & Hs1 & Hs2)).
        split; [exact H1|]. split.
        -- exists m. split; [|exact Hm2]. rewrite Hm.
           rewrite nth_error_app1; [exact Hm1|].
           apply nth_error_Some. congruence.
        -- exists sc'. split; [|exact Hs2]. rewrite Hs.
           rewrite nth_error_app1; [exact Hs1|].
           apply nth_error_Some. congruence.
      * rewrite nth_error_app1 in Hp by lia.
        assert (Hk' : k = length ws)
          by (rewrite Hws, length_app in Hk; simpl in Hk; lia).
        rewrite Hws, Hk', nth_error_snoc_last in Hp.
        inversion Hp; subst prev.
        split; [now apply Forall2_done_of|]. split.
        -- exists (mask_of (done_of w)). split; [|apply Forall2_mask_of].
           rewrite Hm, Hk', <- Hlm. apply nth_error_snoc_last.
        -- exists sc. split; [|now apply Forall2_done_of].
           rewrite Hs, Hk', <- Hlsc'. apply nth_error_snoc_last.
  - destruct Hshape as (Hws & Hsc & Hmk & Hat & Hlg & Hsts).
    destruct Hcase as (-> & Hm).
    split.
    + exists [], w0. rewrite Hw, Hs, Ha, Hl, Hst, Hm, Hws, Hsc, Hmk, Hat,
        Hlg, Hsts. simpl. repeat split; auto.
    + intros k prev cur Hp Hc. rewrite Hw, Hws in Hc. simpl in Hc.
      destruct k; discriminate.
Qed.

(** ** [GreedySearch]: the loop *)

Definition not_all_done (col : list nat) : Prop := all (done_of col) = false.

Lemma greedy_loop_ok (forced_trg_ids : option forced) (steps : nat) :
  forall (len : nat) (v v' : Locals) (log log' : World),
    greedy_loop forced_trg_ids steps len v log = (Ok v', log') ->
    Shape v -> Masked v -> length (v_word_ids v) = len ->
    Forall not_all_done (v_word_ids v) ->
    Shape v' /\ Masked v'
    /\ len <= length (v_word_ids v') <= len + steps
    /\ (length (v_word_ids v') = len + steps \/ all_done (v_done v') = true)
    /\ (forall k col, S k < length (v_word_ids v') ->
          nth_error (v_word_ids v') k = Some col -> not_all_done col)
    /\ length log' = length log + (length (v_word_ids v') - len).
Proof.
  induction steps as [|steps IH]; intros len v v' log log' H Hs Hm Hl Hnd.
  - simpl in H. inversion H; subst v' log'.
    split; [exact Hs|]. split; [exact Hm|]. split; [lia|].
    split; [left; lia|]. split; [|lia].
    intros k col _ Hk. rewrite Forall_forall in Hnd. apply Hnd.
    eapply nth_error_In; eauto.
  - simpl in H.
    destruct (greedy_step forced_trg_ids len v log) as [[v1|e] log1] eqn:Es.
    2:{ bind_raise Es in H. discriminate. }
    bind_ok Es in H.
    destruct (@step_keeps_Shape forced_trg_ids len v v1 log log1 Es Hs Hm)
      as (Hs1 & Hm1).
    destruct (@greedy_step_ok forced_trg_ids len v v1 log log1 Es)
      as (w0 & w1 & sc & Hlog & _ & Hw & _ & _ & _ & _ & Hd & _).
    cbv zeta in Hlog.
    assert (Hl1 : length (v_word_ids v1) = S len)
      by (rewrite Hw, length_app; simpl; lia).
    assert (Hlog1 : length log1 = S (length log))
      by (rewrite Hlog, length_app; simpl; lia).
    destruct (all_done (v_done v1)) eqn:Ead.
    + inversion H; subst v' log'.
      split; [exact Hs1|]. split; [exact Hm1|]. split; [lia|].
      split; [right; exact Ead|]. split; [|lia].
      intros k col Hk Hc. rewrite Hw in Hc.
      rewrite nth_error_app1 in Hc by lia.
      rewrite Forall_forall in Hnd. apply Hnd. eapply nth_error_In; eauto.
    + assert (Hnd1 : Forall not_all_done (v_word_ids v1)).
      { rewrite Hw. apply Forall_app. split; [assumption|].
        constructor; [|constructor]. rewrite Hd in Ead. exact Ead. }
      destruct (IH (S len) v1 v' log1 log' H Hs1 Hm1 Hl1 Hnd1)
        as (Hs' & Hm' & Hlen & Hend & Hbefore & Hlog').
      split; [exact Hs'|]. split; [exact Hm'|]. split; [lia|].
      split; [|split; [exact Hbefore | lia]].
      destruct Hend as [Hend|Hend]; [left; lia | right; exact Hend].
Qed.

Definition initial_locals (initial_state : State) : Locals :=
  mkLocals [] [] [] [] [] [] None initial_state.

Lemma initial_locals_ok (initial_state : State) :
  Shape (initial_locals initial_state)
  /\ Masked (initial_locals initial_state)
  /\ length (v_word_ids (initial_locals initial_state)) = 0
  /\ Forall not_all_done (v_word_ids (initial_locals initial_state)).
Proof.
  unfold Shape, Masked. simpl.
  split; [repeat split; auto|]. split; [|split; [reflexivity|constructor]].
  intros [|k] prev cur H; discriminate.
Qed.

(** ** [GreedySearch]: packing the result *)

Lemma finish_eq (v : Locals) (w : list nat) (ws : list (list nat))
    (log : World) :
  Shape v -> v_word_ids v = ws ++ [w] ->
  exists sc,
    finish v log
    = (Ok [mkSearchOutput (transpose (v_word_ids v)) (v_attentions v)
             (mkHypScore sc sc) (v_logsoftmaxes v) (v_states v)
             (map (fun _ => 1%Z) w :: v_masks v)], log).
Proof.
  unfold Shape. intros Hs Hw.
  destruct (v_done v) as [d|] eqn:Ed.
  2:{ destruct Hs as (Hnil & _). rewrite Hnil in Hw.
      destruct ws; discriminate. }
  destruct Hs as (ws' & w' & Hw' & -> & _ & Hlsc & _ & _ & _ & Fw & Fs & _).
  assert (w' = w /\ ws' = ws) as [-> ->].
  { rewrite Hw in Hw'. apply app_inj_tail in Hw'. destruct Hw'; auto. }
  unfold GreedySearch.finish. rewrite Ed.
  rewrite bind_Ok with (a := map (fun _ => 1%Z) w) (s1 := log)
    by (unfold ones_like, done_of; now rewrite map_map).
  cbv beta zeta.
  assert (Hhd : forall A (l : list (list A)) n,
             l <> [] -> Forall (fun c => length c = n) l ->
             length (hd [] l) = n).
  { intros A [|c l] n Hne HF; [contradiction|]. now inversion HF. }
  assert (Hst : stack_axis1 (v_word_ids v) log
                = (Ok (transpose (v_word_ids v)), log)).
  { unfold stack_axis1, transpose.
    destruct (v_word_ids v) as [|c0 cs] eqn:Ev;
      [destruct ws; discriminate|].
    assert (Hc0 : length c0 = length w) by now inversion Fw.
    rewrite forallb_lengths; [reflexivity|]. now rewrite Hc0. }
  bind_ok Hst.
  destruct (v_score v) as [|r0 rs] eqn:Esc; [discriminate|].
  assert (Hr0 : length r0 = length w) by now inversion Fs.
  eexists. unfold sum_axis0 at 1.
  rewrite bind_Ok with (s1 := log)
    (a := map (fun i => fold_right Z.add 0%Z
                          (map (fun r => nth i r 0%Z) (r0 :: rs)))
              (seq 0 (length r0))).
  2:{ rewrite forallb_lengths; [reflexivity|]. now rewrite Hr0. }
  cbv beta. reflexivity.
Qed.

Lemma Forall2_ES_trans (A : Type) (P : A -> Prop) (a b : list nat)
    (l : list A) :
  Forall2 (fun p c => p = Vocab.ES -> c = Vocab.ES) a b ->
  Forall2 (fun c x => c = Vocab.ES -> P x) b l ->
  Forall2 (fun p x => p = Vocab.ES -> P x) a l.
Proof.
  intros H. revert l. induction H as [|p c a b Hpc _ IH]; intros l Hl;
    inversion Hl; subst; constructor; auto.
Qed.

(** The masking across any number of steps. *)
Lemma Masked_later (v : Locals) :
  Masked v ->
  forall m k prev cur, k < m ->
    nth_error (v_word_ids v) k = Some prev ->
    nth_error (v_word_ids v) m = Some cur ->
    Forall2 (fun p c => p = Vocab.ES -> c = Vocab.ES) prev cur
    /\ (exists mk, nth_error (v_masks v) (m - 1) = Some mk
                   /\ Forall2 (fun p x => p = Vocab.ES -> x = 0%Z) prev mk)
    /\ (exists sc, nth_error (v_score v) m = Some sc
                   /\ Forall2 (fun p x => p = Vocab.ES -> x = 0%Z) prev sc).
Proof.
  intros Hm m. induction m as [|m IH]; intros k prev cur Hk Hp Hc; [lia|].
  destruct (Nat.eq_dec k m) as [->|Hne].
  - replace (S m - 1) with m by lia. now apply Hm.
  - destruct (nth_error (v_word_ids v) m) as [mid|] eqn:Emid.
    2:{ apply nth_error_None in Emid.
        assert (S m < length (v_word_ids v))
          by (apply nth_error_Some; congruence).
        lia. }
    destruct (IH k prev mid) as (H1 & _ & _); [lia | assumption | reflexivity |].
    destruct (Hm m mid cur Emid Hc) as (H2 & (mk & Hmk & H3) & (sc & Hsc & H4)).
    replace (S m - 1) with m by lia.
    split; [|split].
    + eapply (Forall2_ES_trans (fun c => c = Vocab.ES)); eauto.
    + exists mk. split; [assumption|].
      eapply (Forall2_ES_trans (fun x => x = 0%Z)); eauto.
    + exists sc. split; [assumption|].
      eapply (Forall2_ES_trans (fun x => x = 0%Z)); eauto.
Qed.

Lemma greedy_generate_output_eq (initial_state : State) (src_length : option nat)
    (forced_trg_ids : option forced) :
  generate_output initial_state src_length forced_trg_ids
  = bind (greedy_loop forced_trg_ids max_len 0 (initial_locals initial_state))
         finish.
Proof. reflexivity. Qed.

(** A call that returns has run the loop, and the loop has taken a step. *)
Lemma generate_output_inv (initial_state : State) (src_length : option nat)
    (forced_trg_ids : option forced) (log log' : World)
    (outs : list GreedyOutput) :
  generate_output initial_state src_length forced_trg_ids log
    = (Ok outs, log') ->
  exists v ws w sc,
    greedy_loop forced_trg_ids max_len 0 (initial_locals initial_state) log
      = (Ok v, log')
    /\ v_word_ids v = ws ++ [w]
    /\ outs = [mkSearchOutput (transpose (v_word_ids v)) (v_attentions v)
                 (mkHypScore sc sc) (v_logsoftmaxes v) (v_states v)
                 (map (fun _ => 1%Z) w :: v_masks v)].
Proof.
  rewrite greedy_generate_output_eq. intros H.
  destruct (greedy_loop forced_trg_ids max_len 0
              (initial_locals initial_state) log) as [[v|e] log1] eqn:El.
  2:{ bind_raise El in H. discriminate. }
  bind_ok El in H.
  destruct (initial_locals_ok initial_state) as (Hs0 & Hm0 & Hl0 & Hn0).
  destruct (@greedy_loop_ok forced_trg_ids max_len 0 _ v log log1 El
              Hs0 Hm0 Hl0 Hn0) as (Hs & _).
  assert (Hs' := Hs). unfold Shape in Hs'.
  destruct (v_done v) as [d|] eqn:Ed.
  - destruct Hs' as (ws & w & Hw & _).
    destruct (@finish_eq v w ws log1 Hs Hw) as (sc & Hf).
    rewrite Hf in H. inversion H; subst.
    exists v, ws, w, sc. auto.
  - unfold GreedySearch.finish in H. rewrite Ed in H. discriminate.
Qed.

(** C6.  In every call that returns: once an element of the batch has the
    end-of-sequence word at a step, at every later step its word is the
    end-of-sequence word, its mask is 0 and its entry in the list of
    per-step scores, which are summed into the score, is 0. *)
Theorem C6_finished_elements_are_masked
    (initial_state : State) (src_length : option nat)
    (forced_trg_ids : option forced) (log : World) :
  match generate_output initial_state src_length forced_trg_ids log with
  | (Ok outs, log') =>
      exists v o,
        greedy_loop forced_trg_ids max_len 0 (initial_locals initial_state)
                    log = (Ok v, log')
        /\ outs = [o]
        /\ forall i k m row,
             nth_error (word_ids o) i = Some row ->
             nth_error row k = Some Vocab.ES -> k < m -> m < length row ->
             nth_error row m = Some Vocab.ES
             /\ (exists mk, nth_error (mask o) m = Some mk
                            /\ nth_error mk i = Some 0%Z)
             /\ (exists sc, nth_error (v_score v) m = Some sc
                            /\ nth_error sc i = Some 0%Z)
  | (Raise _, _) => True
  end.
Proof.
  destruct (generate_output initial_state src_length forced_trg_ids log)
    as [[outs|e] log'] eqn:Eg; [|exact I].
  destruct (generate_output_inv _ _ _ _ Eg) as (v & ws & w & sc0 & El & Hw & ->).
  destruct (initial_locals_ok initial_state) as (Hs0 & Hm0 & Hl0 & Hn0).
  destruct (@greedy_loop_ok forced_trg_ids max_len 0 _ v log log' El
              Hs0 Hm0 Hl0 Hn0) as (Hs & Hm & _).
  eexists v, _. split; [exact El|]. split; [reflexivity|].
  cbn [word_ids mask].
  intros i k m row Hrow Hk Hkm Hmr.
  unfold Shape in Hs. destruct (v_done v) as [d|]; cycle 1.
  { destruct Hs as (Hnil & _). rewrite Hnil in Hw. destruct ws; discriminate. }
  destruct Hs as (ws' & w' & Hw' & _ & _ & _ & _ & _ & _ & Fw & Fs & Fm).
  assert (Hne : v_word_ids v <> [])
    by (rewrite Hw; destruct ws; discriminate).
  destruct (@transpose_nth _ _ _ _ Hne Fw Hrow) as (Hi & Hroweq).
  destruct (@transpose_entry _ _ _ _ _ _ Hne Fw Hrow Hk)
    as (prev & Hprev & Hpi).
  assert (Hmlen : m < length (v_word_ids v))
    by (rewrite Hroweq, length_map in Hmr; exact Hmr).
  destruct (nth_error (v_word_ids v) m) as [cur|] eqn:Ecur.
  2:{ apply nth_error_None in Ecur. lia. }
  destruct (@Masked_later v Hm m k prev cur Hkm Hprev Ecur)
    as (H1 & (mk & Hmk & H2) & (sc & Hsc & H3)).
  destruct (Forall2_nth_error _ H1 Hpi) as (c & Hc & Hces).
  destruct (Forall2_nth_error _ H2 Hpi) as (x & Hx & Hx0).
  destruct (Forall2_nth_error _ H3 Hpi) as (y & Hy & Hy0).
  rewrite (Hces eq_refl) in Hc. rewrite (Hx0 eq_refl) in Hx.
  rewrite (Hy0 eq_refl) in Hy.
  split; [|split].
  - eapply transpose_entry_inv; eauto.
  - exists mk. split; [|exact Hx].
    destruct m as [|m]; [lia|]. simpl.
    now replace (S m - 1) with m in Hmk by lia.
  - exists sc. auto.
Qed.

(** ** [GreedySearch]: the call returns *)

Section Progress.

Variable B : nat.
Variable V : nat.
Variable forced_trg_ids : option forced.

(** Every output of the translator has [B] distributions over [V] words.
    Without a forced target the distributions are not empty.  A forced target
    has one sequence per batch element, made of words of the vocabulary, and
    the sequences hold a word for every step that is taken: all have at least
    [L] words, where [L] reaches [max_len] or every sequence has an
    end-of-sequence word among its first [L] words. *)
Definition admissible : Prop :=
  match forced_trg_ids with
  | None => 1 <= V
  | Some f =>
      length (rows_of f) = B
      /\ Forall (Forall (fun x => x < V)) (rows_of f)
      /\ exists L,
           Forall (fun r => L <= length r) (rows_of f)
           /\ (max_len <= L
               \/ Forall (fun r => In Vocab.ES (firstn L r)) (rows_of f))
  end.

Hypothesis translator_batch :
  forall prev_word current_state,
    length (t_logsoftmax (output_one_step prev_word current_state)) = B.
Hypothesis translator_vocabulary :
  forall prev_word current_state,
    Forall (fun d => length d = V)
           (t_logsoftmax (output_one_step prev_word current_state)).
Hypothesis forced_admissible : admissible.

(** An element whose forced sequence has shown the end-of-sequence word is
    done. *)
Definition Tracked (len : nat) (v : Locals) : Prop :=
  match forced_trg_ids, v_done v with
  | Some f, Some d =>
      Forall2 (fun row (b : bool) =>
                 In Vocab.ES (firstn len row) -> b = true) (rows_of f) d
  | _, _ => True
  end.

Definition Running (len : nat) (v : Locals) : Prop :=
  Shape v /\ Masked v /\ length (v_word_ids v) = len
  /\ match v_done v with
     | Some d => length d = B /\ all d = false
     | None => len = 0
     end
  /\ Tracked len v.

Lemma row_available (len : nat) (v : Locals) (f : forced) (row : list nat) :
  forced_trg_ids = Some f -> Running len v -> len < max_len ->
  In row (rows_of f) -> len < length row.
Proof.
  intros Hf (_ & _ & _ & Hd & Ht) Hlen Hrow.
  unfold admissible in forced_admissible. unfold Tracked in Ht.
  rewrite Hf in *. destruct forced_admissible as (HB & _ & L & HL & Hcov).
  rewrite Forall_forall in HL. assert (HLrow := HL row Hrow).
  destruct Hcov as [Hcov|Hcov]; [lia|].
  destruct (Nat.lt_ge_cases len (length row)) as [|Hge]; [assumption|].
  exfalso. rewrite Forall_forall in Hcov.
  destruct (v_done v) as [d|].
  - destruct Hd as (Hld & Hall).
    assert (Htrue : Forall (fun b => b = true) d).
    { apply Forall_forall. intros b Hb.
      apply In_nth_error in Hb. destruct Hb as (j & Hj).
      assert (Hjr : j < length (rows_of f)).
      { rewrite HB, <- Hld. apply nth_error_Some. congruence. }
      destruct (nth_error (rows_of f) j) as [r|] eqn:Er.
      2:{ apply nth_error_None in Er. lia. }
      destruct (Forall2_nth_error _ Ht Er) as (b' & Hb' & Himp).
      rewrite Hj in Hb'. inversion Hb'; subst b'. apply Himp.
      apply (@firstn_In_mono _ L); [lia|]. apply Hcov.
      eapply nth_error_In; eauto. }
    apply all_true in Htrue. congruence.
  - subst len. assert (L = 0) by lia. subst L.
    specialize (Hcov row Hrow). simpl in Hcov. exact Hcov.
Qed.

Lemma choose_total (len : nat) (v : Locals) (out : TranslatorOutput)
    (log : World) :
  Running len v -> len < max_len ->
  length (t_logsoftmax out) = B ->
  Forall (fun d => length d = V) (t_logsoftmax out) ->
  exists word_id0,
    choose forced_trg_ids len out log = (Ok word_id0, log)
    /\ length word_id0 = B
    /\ Forall2 (fun d i => i < length d) (t_logsoftmax out) word_id0.
Proof.
  intros Hrun Hlen HB HV.
  assert (Hadm := forced_admissible). unfold admissible in Hadm.
  assert (Hex : exists word_id0,
             choose forced_trg_ids len out log = (Ok word_id0, log)).
  { destruct forced_trg_ids as [f|] eqn:Ef.
    - assert (Hav : forall row, In row (rows_of f) -> len < length row)
        by (intros row Hrow; eapply row_available; eauto).
      assert (Hget : forall row, In row (rows_of f) ->
                exists y, @getitem World _ row len log = (Ok y, log)).
      { intros row Hrow. specialize (Hav row Hrow). unfold getitem.
        destruct (nth_error row len) as [y|] eqn:Ey.
        - exists y. reflexivity.
        - apply nth_error_None in Ey. lia. }
      destruct f as [trg|trgs]; simpl in *.
      + destruct (Hget trg (or_introl eq_refl)) as (y & Hy).
        exists [y]. bind_ok Hy. reflexivity.
      + apply mapM_total. apply Forall_forall. exact Hget.
    - simpl. apply mapM_total. apply Forall_forall. intros d Hd.
      apply argmax_total. rewrite Forall_forall in HV.
      specialize (HV d Hd). destruct d; [simpl in HV; lia | discriminate]. }
  destruct Hex as (word_id0 & Hch). exists word_id0.
  split; [exact Hch|].
  destruct (choose_ok _ _ _ _ Hch) as (_ & Hspec).
  destruct forced_trg_ids as [f|].
  - destruct Hadm as (HlB & Hvoc & _).
    assert (Hl : length word_id0 = B)
      by (apply Forall2_length in Hspec; lia).
    split; [exact Hl|].
    apply (@Forall2_in_range V); [assumption| |lia].
    apply Forall_forall. intros x Hx. apply In_nth_error in Hx.
    destruct Hx as (j & Hj).
    assert (Hjr : j < length (rows_of f)).
    { apply Forall2_length in Hspec. rewrite Hspec.
      apply nth_error_Some. congruence. }
    destruct (nth_error (rows_of f) j) as [r|] eqn:Er.
    2:{ apply nth_error_None in Er. lia. }
    destruct (Forall2_nth_error _ Hspec Er) as (x' & Hx' & Hnth).
    rewrite Hj in Hx'. inversion Hx'; subst x'.
    rewrite Forall_forall in Hvoc.
    assert (Hr := Hvoc r (nth_error_In _ _ Er)).
    rewrite Forall_forall in Hr. apply Hr. eapply nth_error_In; eauto.
  - split; [|exact Hspec]. apply Forall2_length in Hspec. lia.
Qed.

Lemma step_tail_total (len : nat) (v : Locals)
    (prev_word : option (list nat)) (log : World) :
  Running len v -> len < max_len ->
  exists v', step_tail forced_trg_ids len v prev_word log
             = (Ok v', log ++ [(prev_word, v_current_state v)]).
Proof.
  intros Hrun Hlen. unfold step_tail.
  set (log1 := log ++ [(prev_word, v_current_state v)]).
  set (out := output_one_step prev_word (v_current_state v)).
  rewrite bind_Ok with (a := out) (s1 := log1) by reflexivity.
  cbv beta zeta.
  destruct (@choose_total len v out log1 Hrun Hlen
              (translator_batch _ _) (translator_vocabulary _ _))
    as (word_id0 & Hch & Hl0 & Hrange).
  bind_ok Hch.
  destruct (pick_batch_total log1 Hrange) as (sc0 & Hp).
  destruct (pick_batch_ok _ _ _ Hp) as (_ & Hlsc & _).
  destruct Hrun as (_ & _ & _ & Hd & _).
  destruct (v_done v) as [d|].
  - destruct Hd as (Hld & _).
    destruct (@mask_words_total World d 0 word_id0 log1) as (word_id & Hm);
      [lia|].
    destruct (@cmult_total World sc0 (mask_of d) log1) as (sc & Hc).
    { unfold mask_of. rewrite length_map. lia. }
    rewrite bind_Ok with (a := (word_id, sc, v_masks v ++ [mask_of d]))
                         (s1 := log1)
      by (bind_ok Hm; bind_ok Hp; bind_ok Hc; reflexivity).
    cbv beta iota. eexists. reflexivity.
  - rewrite bind_Ok with (a := (word_id0, sc0, v_masks v)) (s1 := log1)
      by (bind_ok Hp; reflexivity).
    cbv beta iota. eexists. reflexivity.
Qed.

Lemma greedy_step_total (len : nat) (v : Locals) (log : World) :
  Running len v -> len < max_len ->
  exists v' log', greedy_step forced_trg_ids len v log = (Ok v', log').
Proof.
  intros Hrun Hlen. rewrite greedy_step_eq.
  destruct (0 <? len) eqn:Hpos.
  - destruct (nth_error (v_word_ids v) (len - 1)) as [w|] eqn:Ew.
    + destruct (@step_tail_total len v (Some w) log Hrun Hlen) as (v' & Hv).
      eauto.
    + apply nth_error_None in Ew. apply Nat.ltb_lt in Hpos.
      destruct Hrun as (_ & _ & Hl & _). lia.
  - destruct (@step_tail_total len v None log Hrun Hlen) as (v' & Hv). eauto.
Qed.

Lemma step_keeps_Running (len : nat) (v v' : Locals) (log log' : World) :
  Running len v ->
  greedy_step forced_trg_ids len v log = (Ok v', log') ->
  all_done (v_done v') = false ->
  Running (S len) v'.
Proof.
  intros Hrun Hstep Hnot.
  assert (Hrun' := Hrun). destruct Hrun' as (Hs & Hm & Hl & Hd & Ht).
  destruct (@step_keeps_Shape forced_trg_ids len v v' log log' Hstep Hs Hm)
    as (Hs' & Hm').
  destruct (@greedy_step_ok forced_trg_ids len v v' log log' Hstep)
    as (w0 & w1 & sc & Hlog & Hch & Hw & _ & _ & _ & _ & Hd' & _ & _ & Hlo
        & Hcase).
  cbv zeta in *.
  destruct (choose_ok _ _ _ _ Hch) as (_ & Hspec).
  assert (Hl0 : length w0 = B) by (rewrite <- Hlo; apply translator_batch).
  assert (Hl1 : length w1 = B).
  { destruct (v_done v) as [d|].
    - destruct Hcase as (_ & HF & _ & Hld & _).
      apply Forall2_length in HF. lia.
    - destruct Hcase as (-> & _). exact Hl0. }
  unfold Running. split; [exact Hs'|]. split; [exact Hm'|].
  split; [rewrite Hw, length_app; simpl; lia|].
  rewrite Hd'. split.
  - split; [unfold done_of; now rewrite length_map|].
    rewrite Hd' in Hnot. exact Hnot.
  - unfold Tracked in *. rewrite Hd'.
    destruct forced_trg_ids as [f|]; [|exact I].
    assert (Hlr : length (rows_of f) = length w0)
      by (apply Forall2_length in Hspec; exact Hspec).
    apply Forall2_from_nth.
    { unfold done_of. rewrite length_map. lia. }
    intros j row b Hrow Hb Hin.
    unfold done_of in Hb. rewrite nth_error_map in Hb.
    destruct (nth_error w1 j) as [x|] eqn:Ex; [|discriminate].
    simpl in Hb. inversion Hb; subst b. apply Nat.eqb_eq.
    destruct (Forall2_nth_error _ Hspec Hrow) as (y & Hy & Hnth).
    rewrite firstn_snoc with (x := y) in Hin by exact Hnth.
    apply in_app_or in Hin.
    destruct (v_done v) as [d|].
    + destruct Hcase as (_ & HF1 & _ & Hld & Hn).
      destruct (Forall2_nth_error _ Ht Hrow) as (bj & Hbj & Himp).
      destruct (Forall2_nth_error _ HF1 Hbj) as (x' & Hx' & Hxes).
      rewrite Ex in Hx'. inversion Hx'; subst x'.
      destruct bj.
      * now apply Hxes.
      * destruct Hin as [Hin|[Heq|[]]].
        -- specialize (Himp Hin). discriminate.
        -- assert (Hnj : nth j d true = false)
             by (apply nth_error_nth; exact Hbj).
           specialize (Hn j x Ex Hnj). congruence.
    + destruct Hcase as (-> & _). subst len. rewrite Hd in Hin.
      simpl in Hin. destruct Hin as [[]|[Heq|[]]]. congruence.
Qed.

Lemma greedy_loop_total (steps : nat) :
  forall (len : nat) (v : Locals) (log : World),
    len + steps <= max_len -> Running len v ->
    exists v' log',
      greedy_loop forced_trg_ids steps len v log = (Ok v', log').
Proof.
  induction steps as [|steps IH]; intros len v log Hsum Hrun; simpl.
  - eexists _, _. reflexivity.
  - destruct (@greedy_step_total len v log Hrun) as (v1 & log1 & Hstep);
      [lia|].
    bind_ok Hstep.
    destruct (all_done (v_done v1)) eqn:Ead.
    + eexists _, _. reflexivity.
    + apply IH; [lia|]. eapply step_keeps_Running; eauto.
Qed.

End Progress.

(** X22.  With [max_len] at least one, a translator that returns [B]
    distributions over [V] words and an admissible forced target (none, or
    one sequence per batch element that holds a word of the vocabulary for
    every step that is taken), the call returns exactly one output.  The loop
    takes [T] steps, [1 <= T <= max_len], with one call of the translator per
    step, and every row of [word_ids] has [T] words.  The loop stops at
    [max_len] steps or when every element is done, and no earlier step had
    every element done. *)
Theorem greedy_one_output_and_termination
    (B V : nat) (initial_state : State) (src_length : option nat)
    (forced_trg_ids : option forced) (log : World) :
  1 <= max_len ->
  (forall prev_word current_state,
      length (t_logsoftmax (output_one_step prev_word current_state)) = B) ->
  (forall prev_word current_state,
      Forall (fun d => length d = V)
             (t_logsoftmax (output_one_step prev_word current_state))) ->
  admissible B V forced_trg_ids ->
  exists v o log',
    greedy_loop forced_trg_ids max_len 0 (initial_locals initial_state) log
      = (Ok v, log')
    /\ generate_output initial_state src_length forced_trg_ids log
       = (Ok [o], log')
    /\ word_ids o = transpose (v_word_ids v)
    /\ 1 <= length (v_word_ids v) <= max_len
    /\ length log' = length log + length (v_word_ids v)
    /\ Forall (fun row => length row = length (v_word_ids v)) (word_ids o)
    /\ (length (v_word_ids v) = max_len \/ all_done (v_done v) = true)
    /\ (forall k col, S k < length (v_word_ids v) ->
          nth_error (v_word_ids v) k = Some col -> not_all_done col).
Proof.
  intros Hpos HB HV Hadm.
  destruct (initial_locals_ok initial_state) as (Hs0 & Hm0 & Hl0 & Hn0).
  assert (Hrun : Running B forced_trg_ids 0 (initial_locals initial_state)).
  { unfold Running, Tracked. simpl.
    split; [exact Hs0|]. split; [exact Hm0|].
    destruct forced_trg_ids; auto. }
  destruct (@greedy_loop_total B V forced_trg_ids HB HV Hadm max_len 0
              (initial_locals initial_state) log (le_n _) Hrun)
    as (v & log' & El).
  destruct (@greedy_loop_ok forced_trg_ids max_len 0 _ v log log' El
              Hs0 Hm0 Hl0 Hn0)
    as (Hs & Hm & Hlen & Hend & Hbefore & Hlog).
  assert (Hw : exists ws w, v_word_ids v = ws ++ [w]).
  { assert (Hs' := Hs). unfold Shape in Hs'.
    destruct (v_done v) as [d|].
    - destruct Hs' as (ws & w & Hw & _). eauto.
    - destruct Hs' as (Hnil & _). rewrite Hnil in Hend. simpl in Hend.
      destruct Hend as [Hend|Hend]; [lia | discriminate]. }
  destruct Hw as (ws & w & Hw).
  destruct (@finish_eq v w ws log' Hs Hw) as (sc & Hf).
  eexists v, _, log'. split; [exact El|]. split.
  { rewrite greedy_generate_output_eq. bind_ok El. exact Hf. }
  cbn [word_ids]. split; [reflexivity|].
  split; [rewrite Hw, length_app in *; simpl in *; lia|].
  split; [lia|]. split; [apply transpose_row_length|].
  split; [|exact Hbefore]. destruct Hend as [Hend|Hend]; [left; lia|now right].
Qed.

(** The output of the greedy search has one log-probability expression,
    one state and one mask per step. *)
Lemma greedy_fields_populated (initial_state : State)
    (src_length : option nat) (forced_trg_ids : option forced) (log : World) :
  match generate_output initial_state src_length forced_trg_ids log with
  | (Ok outs, _) =>
      Forall (fun o : GreedyOutput =>
                logsoftmaxes o <> [] /\ state o <> [] /\ mask o <> []
                /\ length (logsoftmaxes o) = length (mask o)
                /\ length (state o) = length (mask o)) outs
  | (Raise _, _) => True
  end.
Proof.
  destruct (generate_output initial_state src_length forced_trg_ids log)
    as [[outs|e] log'] eqn:Eg; [|exact I].
  destruct (generate_output_inv _ _ _ _ Eg) as (v & ws & w & sc & El & Hw & ->).
  destruct (initial_locals_ok initial_state) as (Hs0 & Hm0 & Hl0 & Hn0).
  destruct (@greedy_loop_ok forced_trg_ids max_len 0 _ v log log' El
              Hs0 Hm0 Hl0 Hn0) as (Hs & _).
  unfold Shape in Hs. destruct (v_done v) as [d|].
  - destruct Hs as (ws' & w' & _ & _ & Hlm & _ & _ & Hll & Hls & _).
    constructor; [|constructor]. cbn [logsoftmaxes state mask].
    repeat split; try discriminate.
    + destruct (v_logsoftmaxes v); [discriminate Hll | discriminate].
    + destruct (v_states v); [discriminate Hls | discriminate].
    + simpl. lia.
    + simpl. lia.
  - destruct Hs as (Hnil & _). rewrite Hnil in Hw. destruct ws; discriminate.
Qed.

(** ** [GreedySearch]: the values of a step *)

(** The value of the expression [dy.pick_batch(logsoftmax, word_id)] for
    batch element [i]: the log-probability of the word of that element. *)
Definition picked (entry : PickBatch) (i : nat) : Z :=
  nth (nth i (snd entry) 0) (nth i (fst entry) []) 0%Z.

Lemma pick_batch_values (e : list (list Z)) :
  forall (indices : list nat) (w w' : World) (r : list Z),
    pick_batch e indices w = (Ok r, w') ->
    forall i, i < length r -> nth i r 0%Z = picked (e, indices) i.
Proof.
  induction e as [|d e IH]; intros [|k indices] w w' r H; simpl in H;
    try discriminate.
  - inversion H; subst. simpl. intros i Hi. lia.
  - unfold bind in H. destruct (nth_error d k) as [x|] eqn:Ek; simpl in H;
      [|discriminate].
    destruct (pick_batch e indices w) as [[xs|ex] w1] eqn:E; [|discriminate].
    inversion H; subst. intros [|i] Hi; unfold picked; simpl.
    + symmetry. now apply nth_error_nth.
    + apply (IH _ _ _ _ E). simpl in Hi. lia.
Qed.

Lemma cmult_values (x : list Z) :
  forall (mask : list Z) (w w' : World) (r : list Z),
    cmult x mask w = (Ok r, w') ->
    forall i, nth i r 0%Z = (nth i x 0 * nth i mask 0)%Z.
Proof.
  induction x as [|a x IH]; intros [|m mask] w w' r H; simpl in H;
    try discriminate.
  - inversion H; subst. intros [|i]; reflexivity.
  - unfold bind in H.
    destruct (cmult x mask w) as [[xs|ex] w1] eqn:E; [|discriminate].
    inversion H; subst. intros [|i]; simpl; [reflexivity|].
    apply (IH _ _ _ _ E).
Qed.

(** [x] is the first index at which the distribution [d] is maximal. *)
Definition first_maximum (d : list Z) (x : nat) : Prop :=
  x < length d
  /\ (forall j, j < length d -> (nth j d 0 <= nth x d 0)%Z)
  /\ (forall j, j < x -> (nth j d 0 < nth x d 0)%Z).

Lemma argmax_from_first_maximum (l : list Z) :
  forall (pre : list Z) (best_i : nat) (best : Z),
    nth_error pre best_i = Some best ->
    (forall j, j < length pre -> (nth j pre 0 <= best)%Z) ->
    (forall j, j < best_i -> (nth j pre 0 < best)%Z) ->
    first_maximum (pre ++ l) (argmax_from best_i best (length pre) l).
Proof.
  induction l as [|x l IH]; intros pre best_i best Hb Hmax Hfirst.
  - simpl. rewrite app_nil_r.
    assert (Hlt : best_i < length pre) by (apply nth_error_Some; congruence).
    unfold first_maximum. rewrite (nth_error_nth _ _ 0%Z Hb). auto.
  - assert (Hlt : best_i < length pre) by (apply nth_error_Some; congruence).
    assert (Hlen : length (pre ++ [x]) = S (length pre))
      by (rewrite length_app; simpl; lia).
    replace (pre ++ x :: l) with ((pre ++ [x]) ++ l)
      by (rewrite <- app_assoc; reflexivity).
    simpl. rewrite <- Hlen. destruct (Z.ltb_spec best x) as [Hx|Hx].
    + apply IH.
      * apply nth_error_snoc_last.
      * intros j Hj. rewrite Hlen in Hj.
        destruct (Nat.eq_dec j (length pre)) as [->|Hne].
        -- rewrite app_nth2, Nat.sub_diag by lia. simpl. lia.
        -- rewrite app_nth1 by lia. specialize (Hmax j). lia.
      * intros j Hj. rewrite app_nth1 by lia. specialize (Hmax j). lia.
    + apply IH.
      * rewrite nth_error_app1; assumption.
      * intros j Hj. rewrite Hlen in Hj.
        destruct (Nat.eq_dec j (length pre)) as [->|Hne].
        -- rewrite app_nth2, Nat.sub_diag by lia. simpl. lia.
        -- rewrite app_nth1 by lia. apply Hmax. lia.
      * intros j Hj. rewrite app_nth1 by lia. now apply Hfirst.
Qed.

Lemma argmax_first_maximum (d : list Z) (w w' : World) (i : nat) :
  argmax d w = (Ok i, w') -> first_maximum d i.
Proof.
  destruct d as [|x d]; simpl; intros H; [discriminate|].
  inversion H; subst.
  apply (@argmax_from_first_maximum d [x] 0 x); simpl; auto.
  - intros [|j] Hj; [lia | simpl in Hj; lia].
  - intros j Hj. lia.
Qed.

Lemma step_tail_scores (forced_trg_ids : option forced) (len : nat)
    (v v' : Locals) (prev_word : option (list nat)) (log log' : World) :
  step_tail forced_trg_ids len v prev_word log = (Ok v', log') ->
  exists word_id0 logsoft,
    let out := output_one_step prev_word (v_current_state v) in
    choose forced_trg_ids len out log' = (Ok word_id0, log')
    /\ v_score v' = v_score v ++ [logsoft]
    /\ forall i, i < length logsoft ->
         nth i logsoft 0%Z
         = (picked (t_logsoftmax out, word_id0) i
            * match v_done v with
              | None => 1
              | Some d => nth i (mask_of d) 0
              end)%Z.
Proof.
  unfold step_tail. intros H.
  set (log1 := log ++ [(prev_word, v_current_state v)]) in *.
  set (out := output_one_step prev_word (v_current_state v)) in *.
  rewrite bind_Ok with (a := out) (s1 := log1) in H by reflexivity.
  cbv beta zeta in H.
  destruct (choose forced_trg_ids len out log1) as [[word_id0|e] log2] eqn:Ec.
  2:{ bind_raise Ec in H. discriminate. }
  assert (log2 = log1) by (apply choose_ok in Ec; tauto). subst log2.
  bind_ok Ec in H.
  destruct (v_done v) as [d|] eqn:Ed.
  - destruct (mask_words d 0 word_id0 log1) as [[word_id|e] log2] eqn:Em.
    2:{ rewrite bind_Raise with (e := e) (s1 := log2) in H
          by (now apply bind_Raise).
        discriminate. }
    destruct (mask_words_ok _ _ _ _ Em) as (-> & HF & Hn).
    destruct (pick_batch (t_logsoftmax out) word_id0 log1)
      as [[sc0|e] log2] eqn:Ep.
    2:{ rewrite bind_Raise with (e := e) (s1 := log2) in H
          by (bind_ok Em; now apply bind_Raise).
        discriminate. }
    destruct (pick_batch_ok _ _ _ Ep) as (-> & Hl1 & Hl2).
    destruct (cmult sc0 (mask_of d) log1) as [[sc|e] log2] eqn:Ecm.
    2:{ rewrite bind_Raise with (e := e) (s1 := log2) in H
          by (bind_ok Em; bind_ok Ep; now apply bind_Raise).
        discriminate. }
    destruct (cmult_ok _ _ _ Ecm) as (-> & Hl3 & HF2).
    rewrite bind_Ok with (a := (word_id, sc, v_masks v ++ [mask_of d]))
                         (s1 := log1) in H
      by (bind_ok Em; bind_ok Ep; bind_ok Ecm; reflexivity).
    cbv beta iota in H. inversion H; subst v' log'. simpl.
    exists word_id0, sc. cbv zeta. fold out.
    split; [exact Ec|]. split; [reflexivity|].
    intros i Hi. rewrite (cmult_values _ _ _ Ecm i).
    assert (Hlsc : length sc = length d)
      by (symmetry; eapply Forall2_length; eauto).
    rewrite (pick_batch_values _ _ _ Ep) by lia. reflexivity.
  - destruct (pick_batch (t_logsoftmax out) word_id0 log1)
      as [[sc|e] log2] eqn:Ep.
    2:{ rewrite bind_Raise with (e := e) (s1 := log2) in H
          by (now apply bind_Raise).
        discriminate. }
    destruct (pick_batch_ok _ _ _ Ep) as (-> & Hl1 & Hl2).
    rewrite bind_Ok with (a := (word_id0, sc, v_masks v)) (s1 := log1) in H
      by (bind_ok Ep; reflexivity).
    cbv beta iota in H. inversion H; subst v' log'. simpl.
    exists word_id0, sc. cbv zeta. fold out.
    split; [exact Ec|]. split; [reflexivity|].
    intros i Hi. rewrite (pick_batch_values _ _ _ Ep) by lia. lia.
Qed.

Lemma greedy_step_scores (forced_trg_ids : option forced) (len : nat)
    (v v' : Locals) (log log' : World) :
  greedy_step forced_trg_ids len v log = (Ok v', log') ->
  exists word_id0 logsoft,
    let out := output_one_step (prev_word_of len v) (v_current_state v) in
    choose forced_trg_ids len out log' = (Ok word_id0, log')
    /\ v_score v' = v_score v ++ [logsoft]
    /\ forall i, i < length logsoft ->
         nth i logsoft 0%Z
         = (picked (t_logsoftmax out, word_id0) i
            * match v_done v with
              | None => 1
              | Some d => nth i (mask_of d) 0
              end)%Z.
Proof.
  rewrite greedy_step_eq. unfold prev_word_of.
  destruct (0 <? len).
  - destruct (nth_error (v_word_ids v) (len - 1)); [|discriminate].
    apply step_tail_scores.
  - apply step_tail_scores.
Qed.

(** ** [GreedySearch]: what the loop records *)

(** The mask that applies at step [k] to batch element [i]: none at the first
    step, then the masks in the order of the steps. *)
Definition mask_at (masks : list (list Z)) (k i : nat) : Z :=
  match k with
  | 0 => 1%Z
  | S k' => nth i (nth k' masks []) 0%Z
  end.

Definition no_entry : PickBatch := ([], []).

(** Every recorded score is the masked log-probability of the recorded word;
    the recorded words are the columns of [word_ids]; without a forced target,
    a word that is not masked is the first maximum of its distribution. *)
Definition Recorded (free : bool) (v : Locals) : Prop :=
  map snd (v_logsoftmaxes v) = v_word_ids v
  /\ (forall k i, k < length (v_score v) ->
        i < length (nth k (v_score v) []) ->
        nth i (nth k (v_score v) []) 0%Z
        = (mask_at (v_masks v) k i
           * picked (nth k (v_logsoftmaxes v) no_entry) i)%Z)
  /\ (free = true ->
      forall k i, k < length (v_logsoftmaxes v) ->
        i < length (snd (nth k (v_logsoftmaxes v) no_entry)) ->
        mask_at (v_masks v) k i = 1%Z ->
        first_maximum (nth i (fst (nth k (v_logsoftmaxes v) no_entry)) [])
                      (nth i (snd (nth k (v_logsoftmaxes v) no_entry)) 0)).

Lemma mask_of_nth (d : list bool) (i : nat) :
  nth i (mask_of d) 0%Z = if nth i d true then 0%Z else 1%Z.
Proof.
  revert i. induction d as [|b d IH]; intros [|i]; simpl; auto.
  destruct b; reflexivity.
Qed.

Lemma mask_at_old (masks : list (list Z)) (m : list Z) (k i : nat) :
  k <= length masks -> mask_at (masks ++ [m]) k i = mask_at masks k i.
Proof.
  intros Hk. destruct k as [|k]; [reflexivity|]. simpl.
  rewrite app_nth1 by lia. reflexivity.
Qed.

Lemma step_keeps_Recorded (forced_trg_ids : option forced) (len : nat)
    (v v' : Locals) (log log' : World) :
  greedy_step forced_trg_ids len v log = (Ok v', log') ->
  Shape v ->
  Recorded (match forced_trg_ids with None => true | Some _ => false end) v ->
  Recorded (match forced_trg_ids with None => true | Some _ => false end) v'.
Proof.
  intros Hstep Hshape (Hal & Hsc & Hch).
  destruct (greedy_step_ok _ _ _ _ Hstep)
    as (w0 & w1 & sc & Hlog & Hc & Hw & Hs & _ & Hl & _ & Hd & _
        & Hlsc & Hlo & Hcase).
  destruct (greedy_step_scores _ _ _ _ Hstep)
    as (w0' & sc' & Hc' & Hs' & Hval).
  cbv zeta in *.
  assert (w0' = w0) by congruence. subst w0'.
  assert (sc' = sc).
  { rewrite Hs in Hs'. apply app_inj_tail in Hs'. now destruct Hs'. }
  subst sc'.
  set (out := output_one_step (prev_word_of len v) (v_current_state v)) in *.
  assert (Hfirst : forced_trg_ids = None ->
            forall i, i < length w0 ->
              first_maximum (nth i (t_logsoftmax out) []) (nth i w0 0)).
  { intros -> i Hi. simpl in Hc.
    assert (HF : Forall2 first_maximum (t_logsoftmax out) w0).
    { eapply mapM_ok_Forall2; [|exact Hc]. intros d w x w'.
      apply argmax_first_maximum. }
    assert (Hi' : i < length (t_logsoftmax out)) by lia.
    destruct (Forall2_nth_error _ HF (nth_error_nth' _ [] Hi'))
      as (x & Hx & Hfm).
    now rewrite (nth_error_nth _ _ 0 Hx). }
  unfold Shape in Hshape.
  destruct (v_done v) as [d|] eqn:Ed.
  - destruct Hshape as (ws & w & Hws & -> & Hlm & Hlsc' & _ & Hll & _).
    destruct Hcase as (Hm & HF1 & _ & Hld & Hn).
    assert (Hlen1 : length w1 = length w0).
    { apply Forall2_length in HF1. lia. }
    assert (Hsame : forall i, i < length w0 ->
              nth i (done_of w) true = false -> nth i w1 0 = nth i w0 0).
    { intros i Hi Hnd.
      assert (Hi1 : i < length w1) by lia.
      assert (Hx := Hn i _ (nth_error_nth' _ 0 Hi1) Hnd).
      now rewrite (nth_error_nth _ _ 0 Hx). }
    split; [|split].
    + rewrite Hl, Hw, map_app. f_equal. exact Hal.
    + intros k i Hk Hi. rewrite Hs, Hl, Hm in *.
      rewrite length_app in Hk. simpl in Hk.
      destruct (Nat.eq_dec k (length (v_score v))) as [->|Hne].
      * rewrite app_nth2, Nat.sub_diag in * by lia. cbn [nth] in *.
        rewrite app_nth2 by lia.
        replace (length (v_score v) - length (v_logsoftmaxes v)) with 0
          by lia.
        cbn [nth]. rewrite Hval by assumption.
        rewrite Hlsc'. cbn [mask_at]. rewrite app_nth2 by lia.
        replace (length ws - length (v_masks v)) with 0 by lia. cbn [nth].
        rewrite mask_of_nth.
        destruct (nth i (done_of w) true) eqn:Hnd; [lia|].
        unfold picked. cbn [fst snd]. rewrite Hsame by (try lia; assumption).
        lia.
      * rewrite app_nth1 in * by lia.
        rewrite (app_nth1 (v_logsoftmaxes v)) by lia.
        rewrite mask_at_old by lia. apply Hsc; [lia | assumption].
    + intros Hfree k i Hk Hi Hmask. rewrite Hl, Hm in *.
      rewrite length_app in Hk. simpl in Hk.
      destruct (Nat.eq_dec k (length (v_logsoftmaxes v))) as [->|Hne].
      * rewrite app_nth2, Nat.sub_diag in * by lia. cbn [nth fst snd] in *.
        rewrite Hll in Hmask. cbn [mask_at] in Hmask.
        rewrite app_nth2 in Hmask by lia.
        replace (length ws - length (v_masks v)) with 0 in Hmask by lia.
        cbn [nth] in Hmask. rewrite mask_of_nth in Hmask.
        destruct (nth i (done_of w) true) eqn:Hnd; [discriminate|].
        rewrite Hsame by (try lia; assumption).
        apply Hfirst; [|lia]. destruct forced_trg_ids; [discriminate|auto].
      * rewrite app_nth1 in * by lia.
        rewrite mask_at_old in Hmask by lia.
        apply Hch; [assumption | lia | assumption | assumption].
  - destruct Hshape as (Hws & Hsc0 & Hmk & _ & Hlg & _).
    destruct Hcase as (-> & Hm).
    unfold Recorded. rewrite Hs, Hl, Hw, Hm, Hws, Hsc0, Hlg, Hmk. simpl.
    split; [reflexivity|]. split.
    + intros [|k] i Hk Hi; [|simpl in Hk; lia]. cbn [nth] in *.
      rewrite Hval by assumption. cbn [mask_at]. lia.
    + intros Hfree [|k] i Hk Hi _; [|simpl in Hk; lia]. cbn [nth fst snd] in *.
      apply Hfirst; [|assumption]. destruct forced_trg_ids; [discriminate|auto].
Qed.

Lemma greedy_loop_Recorded (forced_trg_ids : option forced) (steps : nat) :
  forall (len : nat) (v v' : Locals) (log log' : World),
    greedy_loop forced_trg_ids steps len v log = (Ok v', log') ->
    Shape v -> Masked v ->
    Recorded (match forced_trg_ids with None => true | Some _ => false end) v ->
    Recorded (match forced_trg_ids with None => true | Some _ => false end) v'.
Proof.
  induction steps as [|steps IH]; intros len v v' log log' H Hs Hm Hr.
  - simpl in H. inversion H; subst. exact Hr.
  - simpl in H.
    destruct (greedy_step forced_trg_ids len v log) as [[v1|e] log1] eqn:Es.
    2:{ bind_raise Es in H. discriminate. }
    bind_ok Es in H.
    destruct (@step_keeps_Shape forced_trg_ids len v v1 log log1 Es Hs Hm)
      as (Hs1 & Hm1).
    assert (Hr1 := @step_keeps_Recorded forced_trg_ids len v v1 log log1
                     Es Hs Hr).
    destruct (all_done (v_done v1)).
    + inversion H; subst. exact Hr1.
    + exact (IH (S len) v1 v' log1 log' H Hs1 Hm1 Hr1).
Qed.

(** The sum of the recorded scores, per batch element. *)
Lemma finish_score (v : Locals) (w : list nat) (ws : list (list nat))
    (log : World) :
  Shape v -> v_word_ids v = ws ++ [w] ->
  finish v log
  = (Ok [mkSearchOutput (transpose (v_word_ids v)) (v_attentions v)
           (let sc := map (fun i => fold_right Z.add 0%Z
                                      (map (fun r => nth i r 0%Z) (v_score v)))
                          (seq 0 (length w)) in
            mkHypScore sc sc)
           (v_logsoftmaxes v) (v_states v)
           (map (fun _ => 1%Z) w :: v_masks v)], log).
Proof.
  unfold Shape. intros Hs Hw.
  destruct (v_done v) as [d|] eqn:Ed.
  2:{ destruct Hs as (Hnil & _). rewrite Hnil in Hw.
      destruct ws; discriminate. }
  destruct Hs as (ws' & w' & Hw' & -> & _ & Hlsc & _ & _ & _ & Fw & Fs & _).
  assert (w' = w /\ ws' = ws) as [-> ->].
  { rewrite Hw in Hw'. apply app_inj_tail in Hw'. destruct Hw'; auto. }
  unfold GreedySearch.finish. rewrite Ed.
  rewrite bind_Ok with (a := map (fun _ => 1%Z) w) (s1 := log)
    by (unfold ones_like, done_of; now rewrite map_map).
  cbv beta zeta.
  assert (Hst : stack_axis1 (v_word_ids v) log
                = (Ok (transpose (v_word_ids v)), log)).
  { unfold stack_axis1, transpose.
    destruct (v_word_ids v) as [|c0 cs] eqn:Ev;
      [destruct ws; discriminate|].
    assert (Hc0 : length c0 = length w) by now inversion Fw.
    rewrite forallb_lengths; [reflexivity|]. now rewrite Hc0. }
  bind_ok Hst.
  destruct (v_score v) as [|r0 rs] eqn:Esc; [discriminate|].
  assert (Hr0 : length r0 = length w) by now inversion Fs.
  unfold sum_axis0 at 1.
  rewrite bind_Ok with (s1 := log)
    (a := map (fun i => fold_right Z.add 0%Z
                          (map (fun r => nth i r 0%Z) (r0 :: rs)))
              (seq 0 (length r0))).
  2:{ rewrite forallb_lengths; [reflexivity|]. now rewrite Hr0. }
  cbv beta. rewrite Hr0. reflexivity.
Qed.

(** A call that returns: the loop, its record and the output. *)
Lemma generate_output_Recorded (initial_state : State)
    (src_length : option nat) (forced_trg_ids : option forced)
    (log log' : World) (outs : list GreedyOutput) :
  generate_output initial_state src_length forced_trg_ids log
    = (Ok outs, log') ->
  exists v ws w,
    greedy_loop forced_trg_ids max_len 0 (initial_locals initial_state) log
      = (Ok v, log')
    /\ Shape v
    /\ Recorded (match forced_trg_ids with None => true | Some _ => false end)
                v
    /\ v_word_ids v = ws ++ [w]
    /\ outs = [mkSearchOutput (transpose (v_word_ids v)) (v_attentions v)
                 (let sc := map (fun i => fold_right Z.add 0%Z
                                   (map (fun r => nth i r 0%Z) (v_score v)))
                                (seq 0 (length w)) in
                  mkHypScore sc sc)
                 (v_logsoftmaxes v) (v_states v)
                 (map (fun _ => 1%Z) w :: v_masks v)].
Proof.
  intros Hg.
  destruct (generate_output_inv _ _ _ _ Hg) as (v & ws & w & sc & El & Hw & _).
  destruct (initial_locals_ok initial_state) as (Hs0 & Hm0 & Hl0 & Hn0).
  destruct (@greedy_loop_ok forced_trg_ids max_len 0 _ v log log' El
              Hs0 Hm0 Hl0 Hn0) as (Hs & _).
  assert (Hr0 : Recorded (match forced_trg_ids with
                          | None => true | Some _ => false end)
                         (initial_locals initial_state)).
  { split; [reflexivity|]. split; simpl; intros; lia. }
  assert (Hr := @greedy_loop_Recorded forced_trg_ids max_len 0 _ v log log'
                  El Hs0 Hm0 Hr0).
  exists v, ws, w. split; [exact El|]. split; [exact Hs|].
  split; [exact Hr|]. split; [exact Hw|].
  rewrite greedy_generate_output_eq in Hg. bind_ok El in Hg.
  rewrite (@finish_score v w ws log' Hs Hw) in Hg. now inversion Hg.
Qed.

(** ** [GreedySearch]: the score and the words *)

(** The log-probability of the words of batch element [i], read in the
    output: per step, the mask times the value of the recorded expression. *)
Definition masked_log_probability (o : GreedyOutput) (i : nat) : Z :=
  fold_right Z.add 0%Z
    (map (fun p => (nth i (fst p) 0 * picked (snd p) i)%Z)
         (combine (mask o) (logsoftmaxes o))).

(** X15.  In every call that returns, the score of a batch element is the
    sum, over the steps, of the log-probability of its word times its mask:
    the words up to and including the first end-of-sequence word count, the
    padding after it does not.  The unnormalized score is the same value. *)
Theorem greedy_score_adds_the_unmasked_log_probabilities
    (initial_state : State) (src_length : option nat)
    (forced_trg_ids : option forced) (log : World) :
  match generate_output initial_state src_length forced_trg_ids log with
  | (Ok outs, _) =>
      exists o,
        outs = [o]
        /\ normalized (score o)
           = map (masked_log_probability o) (seq 0 (length (word_ids o)))
        /\ unnormalized (score o) = normalized (score o)
  | (Raise _, _) => True
  end.
Proof.
  destruct (generate_output initial_state src_length forced_trg_ids log)
    as [[outs|e] log'] eqn:Eg; [|exact I].
  destruct (generate_output_Recorded _ _ _ _ Eg)
    as (v & ws & w & _ & Hs & (Hal & Hsc & _) & Hw & ->).
  eexists. split; [reflexivity|]. cbn [score normalized unnormalized word_ids].
  split; [|reflexivity].
  unfold Shape in Hs. destruct (v_done v) as [d|]; cycle 1.
  { destruct Hs as (Hnil & _). rewrite Hnil in Hw. destruct ws; discriminate. }
  destruct Hs as (ws' & w' & Hw' & _ & Hlm & Hlsc & _ & Hll & _ & Fw & Fs & _).
  assert (w' = w /\ ws' = ws) as [-> ->].
  { rewrite Hw in Hw'. apply app_inj_tail in Hw'. destruct Hw'; auto. }
  assert (Hrows : length (transpose (v_word_ids v)) = length w).
  { unfold transpose. rewrite length_map, length_seq.
    destruct (v_word_ids v) as [|c0 cs]; [destruct ws; discriminate|].
    now inversion Fw. }
  rewrite Hrows. apply map_ext_in. intros i Hi. apply in_seq in Hi.
  unfold masked_log_probability. cbn [mask logsoftmaxes]. f_equal.
  apply nth_ext with (d := 0%Z) (d' := 0%Z).
  - rewrite !length_map, length_combine. cbn [length]. lia.
  - intros k Hk. rewrite length_map in Hk.
    rewrite nth_map_in with (d0 := []) by assumption.
    rewrite nth_map_in with (d0 := ([], no_entry))
      by (rewrite length_combine; cbn [length]; lia).
    rewrite combine_nth by (simpl; lia). cbn [fst snd].
    assert (Hrow : length (nth k (v_score v) []) = length w).
    { rewrite Forall_forall in Fs. apply Fs. now apply nth_In. }
    rewrite Hsc by lia. f_equal.
    destruct k as [|k]; simpl.
    + rewrite nth_map_in with (d0 := 0) by lia. reflexivity.
    + reflexivity.
Qed.

(** X16.  Without a forced target, in every call that returns: a word whose
    mask is 1 is the first index at which the distribution recorded for its
    step and batch element is maximal. *)
Theorem greedy_words_are_the_first_maxima
    (initial_state : State) (src_length : option nat) (log : World) :
  match generate_output initial_state src_length None log with
  | (Ok outs, _) =>
      exists o,
        outs = [o]
        /\ forall i row k x entry m,
             nth_error (word_ids o) i = Some row ->
             nth_error row k = Some x ->
             nth_error (logsoftmaxes o) k = Some entry ->
             nth_error (mask o) k = Some m ->
             nth_error m i = Some 1%Z ->
             first_maximum (nth i (fst entry) []) x
  | (Raise _, _) => True
  end.
Proof.
  destruct (generate_output initial_state src_length None log)
    as [[outs|e] log'] eqn:Eg; [|exact I].
  destruct (generate_output_Recorded _ _ _ _ Eg)
    as (v & ws & w & _ & Hs & (Hal & _ & Hch) & Hw & ->).
  eexists. split; [reflexivity|]. cbn [word_ids logsoftmaxes mask].
  intros i row k x entry m Hrow Hx He Hm Hone.
  unfold Shape in Hs. destruct (v_done v) as [d|]; cycle 1.
  { destruct Hs as (Hnil & _). rewrite Hnil in Hw. destruct ws; discriminate. }
  destruct Hs as (ws' & w' & Hw' & _ & Hlm & _ & _ & Hll & _ & Fw & _).
  assert (Hne : v_word_ids v <> [])
    by (rewrite Hw; destruct ws; discriminate).
  destruct (@transpose_entry _ _ _ _ _ _ Hne Fw Hrow Hx)
    as (col & Hcol & Hxi).
  assert (Hk : k < length (v_logsoftmaxes v))
    by (apply nth_error_Some; congruence).
  assert (Hentry : nth k (v_logsoftmaxes v) no_entry = entry)
    by now apply nth_error_nth.
  assert (Hsnd : snd entry = col).
  { assert (Hmap := map_nth_error snd k (v_logsoftmaxes v) He).
    change PickBatch with (list (list Z) * list nat)%type in Hal.
    rewrite Hal in Hmap. congruence. }
  specialize (Hch eq_refl k i Hk). rewrite Hentry, Hsnd in Hch.
  rewrite (nth_error_nth _ _ 0 Hxi) in Hch. apply Hch.
  - apply nth_error_Some. congruence.
  - destruct k as [|k]; [reflexivity|]. simpl in Hm. simpl.
    rewrite (nth_error_nth _ _ [] Hm). now apply nth_error_nth.
Qed.

(** ** [GreedySearch]: the translator is fed its own words *)

(** The translator run again along the columns of words, from the initial
    state: at each step the call that is made, and what it returns. *)
Fixpoint rerun (prev_word : option (list nat)) (state : State)
    (cols : list (list nat))
  : list (option (list nat) * State * TranslatorOutput) :=
  match cols with
  | [] => []
  | c :: cols' =>
      let o := output_one_step prev_word state in
      (prev_word, state, o) :: rerun (Some c) (t_state o) cols'
  end.

(** The call that follows. *)
Fixpoint end_of (prev_word : option (list nat)) (state : State)
    (cols : list (list nat)) : option (list nat) * State :=
  match cols with
  | [] => (prev_word, state)
  | c :: cols' =>
      end_of (Some c) (t_state (output_one_step prev_word state)) cols'
  end.

Lemma rerun_snoc (cols : list (list nat)) (c : list nat) :
  forall prev_word state,
    rerun prev_word state (cols ++ [c])
    = rerun prev_word state cols
      ++ [(fst (end_of prev_word state cols),
           snd (end_of prev_word state cols),
           output_one_step (fst (end_of prev_word state cols))
                           (snd (end_of prev_word state cols)))].
Proof.
  induction cols as [|c0 cols IH]; intros prev_word state; simpl.
  - reflexivity.
  - now rewrite IH.
Qed.

Lemma end_of_snoc (cols : list (list nat)) (c : list nat) :
  forall prev_word state,
    end_of prev_word state (cols ++ [c])
    = (Some c,
       t_state (output_one_step (fst (end_of prev_word state cols))
                                (snd (end_of prev_word state cols)))).
Proof.
  induction cols as [|c0 cols IH]; intros prev_word state; simpl.
  - reflexivity.
  - now rewrite IH.
Qed.

Definition Traced (initial_state : State) (log0 : World) (v : Locals)
    (log : World) : Prop :=
  let run := rerun None initial_state (v_word_ids v) in
  end_of None initial_state (v_word_ids v)
  = (prev_word_of (length (v_word_ids v)) v, v_current_state v)
  /\ map fst (v_logsoftmaxes v) = map (fun r => t_logsoftmax (snd r)) run
  /\ v_attentions v = map (fun r => t_attention (snd r)) run
  /\ v_states v = map (fun r => get_nobp_state (t_state (snd r))) run
  /\ log = log0 ++ map fst run.

Lemma step_keeps_Traced (initial_state : State) (log0 : World)
    (forced_trg_ids : option forced) (v v' : Locals) (log log' : World) :
  greedy_step forced_trg_ids (length (v_word_ids v)) v log = (Ok v', log') ->
  Traced initial_state log0 v log -> Traced initial_state log0 v' log'.
Proof.
  intros Hstep (Hend & Hls & Hat & Hst & Hlog0).
  destruct (greedy_step_ok _ _ _ _ Hstep)
    as (w0 & w1 & sc & Hlog & _ & Hw & _ & Ha & Hl & Hs & _ & Hcs & _).
  cbv zeta in *. unfold Traced. cbv zeta.
  rewrite Hw, rerun_snoc, end_of_snoc, Hend. cbn [fst snd].
  rewrite !map_app. cbn [map fst snd].
  split; [|split; [|split; [|split]]].
  - unfold prev_word_of. rewrite length_app. cbn [length].
    replace (length (v_word_ids v) + 1) with (S (length (v_word_ids v)))
      by lia.
    cbn [Nat.ltb Nat.leb]. rewrite Hw, Nat.sub_succ, Nat.sub_0_r.
    rewrite nth_error_snoc_last, Hcs. reflexivity.
  - rewrite Hl, map_app. f_equal. exact Hls.
  - rewrite Ha. f_equal. exact Hat.
  - rewrite Hs. f_equal. exact Hst.
  - rewrite Hlog, Hlog0, app_assoc. reflexivity.
Qed.

Lemma greedy_loop_Traced (initial_state : State) (log0 : World)
    (forced_trg_ids : option forced) (steps : nat) :
  forall (len : nat) (v v' : Locals) (log log' : World),
    greedy_loop forced_trg_ids steps len v log = (Ok v', log') ->
    length (v_word_ids v) = len ->
    Traced initial_state log0 v log -> Traced initial_state log0 v' log'.
Proof.
  induction steps as [|steps IH]; intros len v v' log log' H Hlen Ht.
  - simpl in H. inversion H; subst. exact Ht.
  - simpl in H.
    destruct (greedy_step forced_trg_ids len v log) as [[v1|e] log1] eqn:Es.
    2:{ bind_raise Es in H. discriminate. }
    bind_ok Es in H. subst len.
    assert (Ht1 := @step_keeps_Traced initial_state log0 forced_trg_ids
                     v v1 log log1 Es Ht).
    destruct (@greedy_step_ok forced_trg_ids _ v v1 log log1 Es)
      as (w0 & w1 & sc & _ & _ & Hw & _).
    destruct (all_done (v_done v1)).
    + inversion H; subst. exact Ht1.
    + apply (IH (S (length (v_word_ids v))) v1 v' log1 log' H); [|exact Ht1].
      rewrite Hw, length_app. simpl. lia.
Qed.

(** X17.  In every call that returns, the output is the trace of one run
    of the translator: the first call has no previous word and the initial
    state, every later call has the words of the step before, the
    end-of-sequence word for the finished elements, and the state that the
    call before returned; the recorded distributions, attentions and states
    are what these calls returned, in this order, and the log holds exactly
    these calls. *)
Theorem greedy_translator_is_fed_its_own_words
    (initial_state : State) (src_length : option nat)
    (forced_trg_ids : option forced) (log : World) :
  match generate_output initial_state src_length forced_trg_ids log with
  | (Ok outs, log') =>
      exists o,
        outs = [o]
        /\ let cols := map snd (logsoftmaxes o) in
           let run := rerun None initial_state cols in
           word_ids o = transpose cols
           /\ map fst (logsoftmaxes o)
              = map (fun r => t_logsoftmax (snd r)) run
           /\ attentions o = map (fun r => t_attention (snd r)) run
           /\ state o = map (fun r => get_nobp_state (t_state (snd r))) run
           /\ log' = log ++ map fst run
  | (Raise _, _) => True
  end.
Proof.
  destruct (generate_output initial_state src_length forced_trg_ids log)
    as [[outs|e] log'] eqn:Eg; [|exact I].
  destruct (generate_output_Recorded _ _ _ _ Eg)
    as (v & ws & w & El & Hs & (Hal & _) & Hw & ->).
  assert (Ht0 : Traced initial_state log (initial_locals initial_state) log).
  { unfold Traced. simpl. rewrite app_nil_r. repeat split. }
  assert (Ht := @greedy_loop_Traced initial_state log forced_trg_ids max_len
                  0 _ v log log' El eq_refl Ht0).
  destruct Ht as (_ & Hls & Hat & Hst & Hlog).
  eexists. split; [reflexivity|]. cbn [word_ids logsoftmaxes attentions state].
  cbv zeta. change PickBatch with (list (list Z) * list nat)%type in Hal.
  rewrite Hal. auto.
Qed.

(** ** [GreedySearch]: the forced targets *)

(** The columns follow the targets, and every target has a word for every
    step that was taken. *)
Definition Forced (f : forced) (v : Locals) : Prop :=
  forall k col, nth_error (v_word_ids v) k = Some col ->
    Forall2 (fun trg x => x = nth k (until_ES trg) Vocab.ES /\ k < length trg)
            (rows_of f) col.

Lemma step_keeps_Forced (f : forced) (v v' : Locals) (log log' : World) :
  greedy_step (Some f) (length (v_word_ids v)) v log = (Ok v', log') ->
  Shape v -> Forced f v -> Forced f v'.
Proof.
  intros Hstep Hshape Hcols.
  destruct (greedy_step_ok _ _ _ _ Hstep)
    as (w0 & w1 & sc & _ & Hc & Hw & _ & _ & _ & _ & _ & _ & _ & _ & Hcase).
  cbv zeta in Hc. apply choose_ok in Hc. destruct Hc as (_ & HF0).
  assert (Hl0 := Forall2_length HF0).
  intros k col Hk. rewrite Hw in Hk. apply nth_error_snoc in Hk.
  destruct Hk as [(_ & Hk)|(-> & ->)]; [now apply Hcols|].
  unfold Shape in Hshape. destruct (v_done v) as [d|].
  - destruct Hshape as (ws & w & Hws & -> & _).
    destruct Hcase as (_ & HFm & _ & Hld & Hn).
    assert (Hl1 : length w1 = length w0)
      by (apply Forall2_length in HFm; lia).
    assert (Hprev : Forall2 (fun trg x =>
                      x = nth (length ws) (until_ES trg) Vocab.ES
                      /\ length ws < length trg) (rows_of f) w).
    { apply Hcols. rewrite Hws. apply nth_error_snoc_last. }
    assert (Hlen : length (v_word_ids v) = S (length ws)).
    { rewrite Hws, length_app. cbn [length]. lia. }
    rewrite Hlen in *.
    apply Forall2_from_nth; [lia|].
    intros i trg x Htrg Hx.
    destruct (Forall2_nth_error _ HF0 Htrg) as (x0 & Hx0 & Hv0).
    assert (Hlt : S (length ws) < length trg)
      by (apply nth_error_Some; congruence).
    split; [|exact Hlt].
    destruct (Forall2_nth_error _ Hprev Htrg) as (p & Hp & Hpv & _).
    assert (Hi : i < length w) by (apply nth_error_Some; congruence).
    destruct (Nat.eq_dec p Vocab.ES) as [Hes|Hes].
    + assert (Hdi : nth_error (done_of w) i = Some true).
      { unfold done_of. rewrite nth_error_map, Hp. simpl.
        now rewrite Hes, Nat.eqb_refl. }
      destruct (Forall2_nth_error _ HFm Hdi) as (x' & Hx' & Hes').
      assert (Heq : x' = x) by congruence. rewrite <- Heq, (Hes' eq_refl).
      symmetry. apply until_ES_after_end. congruence.
    + assert (Hdi : nth i (done_of w) true = false).
      { unfold done_of. rewrite nth_map_in with (d0 := 0) by lia.
        rewrite (nth_error_nth _ _ 0 Hp). now apply Nat.eqb_neq. }
      specialize (Hn i x Hx Hdi).
      assert (Heq : x0 = x) by congruence.
      rewrite <- Heq, <- (nth_error_nth _ _ Vocab.ES Hv0).
      symmetry. apply until_ES_before_end. congruence.
  - destruct Hshape as (Hnil & _). destruct Hcase as (-> & _).
    rewrite Hnil in *. cbn [length] in *.
    apply Forall2_from_nth; [lia|].
    intros i trg x Htrg Hx.
    destruct (Forall2_nth_error _ HF0 Htrg) as (x0 & Hx0 & Hv0).
    assert (Heq : x0 = x) by congruence.
    split; [|apply nth_error_Some; congruence].
    rewrite <- Heq, <- (nth_error_nth _ _ Vocab.ES Hv0).
    symmetry. apply until_ES_head.
Qed.

Lemma greedy_loop_Forced (f : forced) (steps : nat) :
  forall (len : nat) (v v' : Locals) (log log' : World),
    greedy_loop (Some f) steps len v log = (Ok v', log') ->
    length (v_word_ids v) = len ->
    Shape v -> Masked v -> Forced f v -> Forced f v'.
Proof.
  induction steps as [|steps IH]; intros len v v' log log' H Hlen Hs Hm Hf.
  - simpl in H. inversion H; subst. exact Hf.
  - simpl in H.
    destruct (greedy_step (Some f) len v log) as [[v1|e] log1] eqn:Es.
    2:{ bind_raise Es in H. discriminate. }
    bind_ok Es in H. subst len.
    destruct (@step_keeps_Shape (Some f) _ v v1 log log1 Es Hs Hm)
      as (Hs1 & Hm1).
    assert (Hf1 := @step_keeps_Forced f v v1 log log1 Es Hs Hf).
    destruct (@greedy_step_ok (Some f) _ v v1 log log1 Es)
      as (w0 & w1 & sc & _ & _ & Hw & _).
    destruct (all_done (v_done v1)).
    + inversion H; subst. exact Hf1.
    + apply (IH (S (length (v_word_ids v))) v1 v' log1 log' H);
        [|assumption..].
      rewrite Hw, length_app. simpl. lia.
Qed.

(** X23.  The forced greedy search.  Whenever [generate_output] returns with
    forced targets, the output has one row of words per target, and word [k]
    of a row is word [k] of its target up to and including the target's first
    end-of-sequence word, and the end-of-sequence word after it.  No row is
    longer than its target: the call returns only if every target has a word
    for every step that is taken. *)
Theorem forced_greedy_search_follows_the_targets
    (initial_state : State) (src_length : option nat) (f : forced)
    (log : World) :
  match generate_output initial_state src_length (Some f) log with
  | (Ok outs, _) =>
      exists o,
        outs = [o]
        /\ Forall2 (fun trg row =>
                      length row <= length trg
                      /\ forall k x, nth_error row k = Some x ->
                                     x = nth k (until_ES trg) Vocab.ES)
                   (rows_of f) (word_ids o)
  | (Raise _, _) => True
  end.
Proof.
  destruct (generate_output initial_state src_length (Some f) log)
    as [[outs|e] log'] eqn:Eg; [|exact I].
  destruct (generate_output_Recorded _ _ _ _ Eg)
    as (v & ws & w & El & Hs & _ & Hw & ->).
  destruct (initial_locals_ok initial_state) as (Hs0 & Hm0 & Hl0 & _).
  assert (Hf0 : Forced f (initial_locals initial_state)).
  { intros [|k] col Hk; discriminate. }
  assert (Hf := @greedy_loop_Forced f max_len 0
                  (initial_locals initial_state)
                  v log log' El Hl0 Hs0 Hm0 Hf0).
  eexists. split; [reflexivity|]. cbn [word_ids].
  unfold Shape in Hs. destruct (v_done v) as [d|]; cycle 1.
  { destruct Hs as (Hnil & _). rewrite Hnil in Hw. destruct ws; discriminate. }
  destruct Hs as (ws' & w' & Hw' & _ & _ & _ & _ & _ & _ & Fw & _).
  assert (Hne : v_word_ids v <> [])
    by (rewrite Hw; destruct ws; discriminate).
  assert (Hlast : nth_error (v_word_ids v) (length ws) = Some w)
    by (rewrite Hw; apply nth_error_snoc_last).
  assert (Hlw := Forall2_length (Hf _ _ Hlast)).
  assert (Hw'' : w' = w).
  { rewrite Hw in Hw'. apply app_inj_tail in Hw'. now destruct Hw'. }
  subst w'.
  apply Forall2_from_nth.
  { unfold transpose. rewrite length_map, length_seq.
    destruct (v_word_ids v) as [|c0 cs]; [contradiction|].
    inversion Fw; subst. simpl. lia. }
  intros i trg row Htrg Hrow.
  destruct (@transpose_nth _ _ _ _ Hne Fw Hrow) as (Hi & Hroweq).
  split.
  - rewrite Hroweq, length_map, Hw, length_app. cbn [length].
    destruct (Forall2_nth_error _ (Hf _ _ Hlast) Htrg) as (x & _ & _ & Hlt).
    lia.
  - intros k x Hx.
    destruct (@transpose_entry _ _ _ _ _ _ Hne Fw Hrow Hx)
      as (col & Hcol & Hxi).
    destruct (Forall2_nth_error _ (Hf _ _ Hcol) Htrg) as (y & Hy & Hv & _).
    congruence.
Qed.

End Facts.

End GreedyFacts.

(** ** [BeamSearch]: the expansion step *)

Module BeamFacts.
Import BeamSearch.

Section Facts.
Context {State Attention : Type}.
Local Abbreviation hyp := (@hypothesis State Attention).
Variable output_one_step : option nat -> State -> @TranslatorOutput State Attention.
Variable normalize_partial : Z -> Z -> nat -> Z.
Variable normalize_completed : list hyp -> option nat -> list Z.
Variable argpartition : list Z -> Z -> list nat.
Variable beam_size : nat.
Variable max_len : nat.
Variable one_best : bool.

Local Abbreviation BeamOutput := (@BeamOutput State Attention).
Local Abbreviation World := (@World State).
Local Abbreviation top_words := (top_words argpartition beam_size).
Local Abbreviation queue_next := (queue_next normalize_partial).
Local Abbreviation expand_hyp :=
  (expand_hyp output_one_step normalize_partial argpartition beam_size).
Local Abbreviation beam_step :=
  (beam_step output_one_step normalize_partial argpartition beam_size).
Local Abbreviation beam_loop :=
  (beam_loop output_one_step normalize_partial argpartition beam_size).
Local Abbreviation generate_output :=
  (generate_output output_one_step normalize_partial normalize_completed
                   argpartition beam_size max_len one_best).

(** Number of steps that produced a hypothesis, and its words in
    chronological order. *)
Fixpoint depth (h : hyp) : nat :=
  match h with
  | Root => 0
  | Child _ _ p _ _ => S (depth p)
  end.

Definition words (h : hyp) : list nat := rev (fst (backtrace h)).

(** The child that [queue_next] appends for [cur_word]. *)
Definition child_of (length : nat) (h : hyp)
    (out : @TranslatorOutput State Attention) (cur_word : nat) : hyp :=
  let s := nth cur_word (t_logsoftmax out) 0%Z in
  Child (normalize_partial (h_score h) s (length + 1)) out h cur_word
        (s + h_unnormalized h)%Z.

Lemma words_Root : words Root = [].
Proof. reflexivity. Qed.

Lemma words_Child s o (p : hyp) w u : words (Child s o p w u) = words p ++ [w].
Proof.
  unfold words. simpl. destruct (backtrace p) as [ws ats]. reflexivity.
Qed.

Lemma words_length (h : hyp) : length (words h) = depth h.
Proof.
  induction h as [|s o p IH w u]; [reflexivity|].
  rewrite words_Child, length_app, IH. simpl. lia.
Qed.

Lemma queue_fold (len : nat) (h : hyp) out (top : list nat) :
  forall (new_set : list hyp) (log : World),
  match foldM (queue_next len h out) top new_set log with
  | (Ok new_set', log') =>
      log' = log
      /\ Forall (fun w => w < length (t_logsoftmax out)) top
      /\ new_set' = new_set ++ map (child_of len h out) top
  | (Raise e, log') =>
      log' = log /\ e = IndexError
      /\ exists w, In w top /\ length (t_logsoftmax out) <= w
  end.
Proof.
  induction top as [|w top IH]; intros new_set log; simpl.
  - rewrite app_nil_r. auto.
  - unfold bind at 1. unfold queue_next at 1, getitem, bind.
    destruct (nth_error (t_logsoftmax out) w) as [s|] eqn:E; simpl.
    + specialize (IH (new_set ++
        [Child (normalize_partial (h_score h) s (len + 1)) out h w
               (s + h_unnormalized h)%Z]) log).
      assert (Hw : w < length (t_logsoftmax out))
        by (apply nth_error_Some; congruence).
      assert (Hs : nth w (t_logsoftmax out) 0%Z = s)
        by (apply nth_error_nth; assumption).
      destruct (foldM _ top _ log) as [[ns'|e] log'].
      * destruct IH as (-> & HF & ->). repeat split; [now constructor|].
        rewrite <- app_assoc. simpl. unfold child_of at 2. rewrite Hs.
        reflexivity.
      * destruct IH as (-> & -> & w' & Hin & Hle). repeat split.
        exists w'. split; [now right | assumption].
    + repeat split. exists w. split; [now left|].
      now apply nth_error_None.
Qed.

(** What one visit of an active hypothesis does: either the hypothesis ends
    in the end-of-sequence word and is appended to the completed ones, with
    no call to the translator and no child; or the translator is called once
    and one child per selected word is queued. *)
Definition prev_of (initial_state : State) (len : nat) (h : hyp)
    (prev_word : option nat) (prev_state : State) : Prop :=
  if 0 <? len
  then prev_word = h_word h
       /\ exists o, h_output h = Some o /\ prev_state = t_state o
  else prev_word = None /\ prev_state = initial_state.

Definition top_of (forced_trg_ids : option (list nat)) (len : nat)
    (score : list Z) (top : list nat) : Prop :=
  match forced_trg_ids with
  | None =>
      top = if length score =? 0 then []
            else slice_last beam_size
                   (argpartition score
                      (Z.max (- Z.of_nat (length score))
                             (- Z.of_nat beam_size)))
  | Some f => exists w, nth_error f len = Some w /\ top = [w]
  end.

(** The part of the loop body after the end-of-sequence test. *)
Definition expand_tail (forced_trg_ids : option (list nat)) (len : nat)
    (completed_hyp new_set : list hyp) (h : hyp)
    (prev_word : option nat) (prev_state : State)
  : M World (list hyp * list hyp) :=
  current_output <- call_translator output_one_step prev_word prev_state ;;
  top <- match forced_trg_ids with
         | None => top_words (t_logsoftmax current_output)
         | Some f => w <- getitem f len ;; ret [w]
         end ;;
  new_set' <- foldM (queue_next len h current_output) top new_set ;;
  ret (completed_hyp, new_set').

Lemma expand_tail_cases (forced_trg_ids : option (list nat)) (len : nat)
    (completed_hyp new_set : list hyp) (h : hyp)
    (prev_word : option nat) (prev_state : State) (log : World) :
  let out := output_one_step prev_word prev_state in
  match expand_tail forced_trg_ids len completed_hyp new_set h
                    prev_word prev_state log with
  | (Ok (completed_hyp', new_set'), log') =>
      exists top,
        top_of forced_trg_ids len (t_logsoftmax out) top
        /\ Forall (fun w => w < length (t_logsoftmax out)) top
        /\ completed_hyp' = completed_hyp
        /\ new_set' = new_set ++ map (child_of len h out) top
        /\ log' = log ++ [(prev_word, prev_state)]
  | (Raise e, log') =>
      log' = log ++ [(prev_word, prev_state)]
      /\ ((e = IndexError /\ exists f, forced_trg_ids = Some f
              /\ nth_error f len = None)
          \/ (e = IndexError /\ exists top w,
                top_of forced_trg_ids len (t_logsoftmax out) top
                /\ In w top /\ length (t_logsoftmax out) <= w))
  end.
Proof.
  intros out. unfold expand_tail, top_of.
  set (log1 := log ++ [(prev_word, prev_state)]).
  rewrite bind_Ok with (a := out) (s1 := log1) by reflexivity.
  cbv beta.
  assert (Hfold := fun top => queue_fold len h out top new_set log1).
  destruct forced_trg_ids as [f|].
  - destruct (nth_error f len) as [w|] eqn:Hw.
    + rewrite bind_Ok with (a := [w]) (s1 := log1)
        by (unfold bind, getitem; now rewrite Hw).
      cbv beta. specialize (Hfold [w]).
      destruct (foldM (queue_next len h out) [w] new_set log1) as [[ns'|e] log'] eqn:Ef.
      * bind_ok Ef. simpl.
        destruct Hfold as (-> & HF & ->). exists [w]. repeat split; eauto.
      * bind_raise Ef.
        destruct Hfold as (-> & -> & w' & Hin & Hle). split; [reflexivity|].
        right. split; [reflexivity|]. exists [w], w'.
        repeat split; eauto.
    + rewrite bind_Raise with (e := IndexError) (s1 := log1)
        by (unfold bind, getitem; now rewrite Hw).
      split; [reflexivity|]. left. eauto.
  - set (top := if length (t_logsoftmax out) =? 0 then []
                else slice_last beam_size _).
    rewrite bind_Ok with (a := top) (s1 := log1)
      by (unfold BeamSearch.top_words, top;
          destruct (length (t_logsoftmax out) =? 0); reflexivity).
    cbv beta.
    specialize (Hfold top).
    destruct (foldM (queue_next len h out) top new_set log1) as [[ns'|e] log'] eqn:Ef.
    + bind_ok Ef. simpl.
      destruct Hfold as (-> & HF & ->). exists top. repeat split; auto.
    + bind_raise Ef.
      destruct Hfold as (-> & -> & w' & Hin & Hle). split; [reflexivity|].
      right. split; [reflexivity|]. exists top, w'.
      repeat split; auto.
Qed.

Lemma expand_hyp_cases (initial_state : State)
    (forced_trg_ids : option (list nat)) (len : nat)
    (completed_hyp new_set : list hyp) (h : hyp) (log : World) :
  match expand_hyp initial_state forced_trg_ids len
                   (completed_hyp, new_set) h log with
  | (Ok (completed_hyp', new_set'), log') =>
      (0 < len /\ h_word h = Some Vocab.ES
       /\ completed_hyp' = completed_hyp ++ [h] /\ new_set' = new_set
       /\ log' = log)
      \/ (exists prev_word prev_state top,
            let out := output_one_step prev_word prev_state in
            prev_of initial_state len h prev_word prev_state
            /\ is_ES prev_word = false
            /\ top_of forced_trg_ids len (t_logsoftmax out) top
            /\ Forall (fun w => w < length (t_logsoftmax out)) top
            /\ completed_hyp' = completed_hyp
            /\ new_set' = new_set ++ map (child_of len h out) top
            /\ log' = log ++ [(prev_word, prev_state)])
  | (Raise e, log') =>
      (e = AttributeError /\ 0 < len /\ h_output h = None /\ log' = log)
      \/ (exists prev_word prev_state,
            let out := output_one_step prev_word prev_state in
            prev_of initial_state len h prev_word prev_state
            /\ is_ES prev_word = false
            /\ log' = log ++ [(prev_word, prev_state)]
            /\ ((e = IndexError /\ exists f, forced_trg_ids = Some f
                    /\ nth_error f len = None)
                \/ (e = IndexError /\ exists top w,
                      top_of forced_trg_ids len (t_logsoftmax out) top
                      /\ In w top /\ length (t_logsoftmax out) <= w)))
  end.
Proof.
  assert (Htail := fun pw ps =>
    expand_tail_cases forced_trg_ids len completed_hyp new_set h pw ps log).
  unfold expand_hyp, prev_of.
  destruct (0 <? len) eqn:Hlen.
  - apply Nat.ltb_lt in Hlen.
    destruct h as [|s o p w u]; simpl.
    + left. auto.
    + unfold bind at 1. simpl.
      destruct (w =? Vocab.ES) eqn:Hw; simpl.
      * left. apply Nat.eqb_eq in Hw. subst w. auto 6.
      * specialize (Htail (Some w) (t_state o)). cbv zeta in Htail.
        unfold expand_tail in Htail.
        destruct (bind _ _ log) as [[[c' ns']|e] log'].
        -- right. destruct Htail as (top & H1 & H2 & H3 & H4 & H5).
           exists (Some w), (t_state o), top. cbv zeta.
           repeat split; eauto.
        -- right. destruct Htail as (H1 & H2).
           exists (Some w), (t_state o). cbv zeta.
           repeat split; eauto.
  - unfold bind at 1. simpl.
    specialize (Htail None initial_state). cbv zeta in Htail.
    unfold expand_tail in Htail.
    destruct (bind _ _ log) as [[[c' ns']|e] log'].
    + right. destruct Htail as (top & H1 & H2 & H3 & H4 & H5).
      exists None, initial_state, top. cbv zeta. repeat split; eauto.
    + right. destruct Htail as (H1 & H2).
      exists None, initial_state. cbv zeta. repeat split; eauto.
Qed.

(** ** [BeamSearch]: the loop *)

Lemma hoare_beam_step (initial_state : State)
    (forced_trg_ids : option (list nat)) (len : nat) (a c : list hyp)
    (I : list hyp -> list hyp * list hyp -> World -> Prop)
    (Q : list hyp * list hyp -> World -> Prop) (E : exn -> World -> Prop) :
  (forall x rest acc,
      hoare (I (x :: rest) acc)
            (expand_hyp initial_state forced_trg_ids len acc x) (I rest) E) ->
  (forall c' ns w,
      I [] (c', ns) w -> Q (c', firstn beam_size (sorted_desc h_score ns)) w) ->
  hoare (I a (c, [])) (beam_step initial_state forced_trg_ids len a c) Q E.
Proof.
  intros Hx HQ. unfold BeamSearch.beam_step.
  eapply hoare_bind; [apply hoare_foldM; exact Hx|].
  intros [c' ns]. apply hoare_ret. intros w Hw. now apply HQ.
Qed.

Lemma hoare_beam_loop (initial_state : State)
    (forced_trg_ids : option (list nat))
    (I : nat -> list hyp -> list hyp -> World -> Prop)
    (E : exn -> World -> Prop) (bound : nat) :
  (forall len a c, length c < beam_size -> len < bound ->
      hoare (I len a c) (beam_step initial_state forced_trg_ids len a c)
            (fun st w => I (S len) (snd st) (fst st) w) E) ->
  forall steps len a c, len + steps <= bound ->
    hoare (I len a c)
          (beam_loop initial_state forced_trg_ids steps len a c)
          (fun st w =>
             exists len', len <= len' <= len + steps
               /\ I len' (snd st) (fst st) w
               /\ (len' = len + steps \/ beam_size <= length (fst st))) E.
Proof.
  intros Hstep steps. induction steps as [|steps IH]; intros len a c Hb; simpl.
  - apply hoare_ret. intros w Hw. exists len. simpl.
    repeat split; auto; lia.
  - destruct (beam_size <=? length c) eqn:Hc.
    + apply Nat.leb_le in Hc. apply hoare_ret. intros w Hw. exists len.
      simpl. repeat split; auto; lia.
    + apply Nat.leb_gt in Hc.
      eapply hoare_bind; [apply (Hstep len a c Hc); lia|].
      intros [c' a']. simpl.
      eapply hoare_conseq; [apply (IH (S len) a' c'); lia | | |]; auto.
      cbv beta. intros st w (len' & Hl & HI & Hend). exists len'.
      repeat split; auto; lia.
Qed.

(** ** [BeamSearch]: packing the results *)

Definition pack_out (p : hyp * Z) : BeamOutput :=
  let u := h_unnormalized (fst p) in
  mkSearchOutput [words (fst p)] [rev (snd (backtrace (fst p)))]
    [mkHypScore (snd p) (if (u =? 0)%Z then snd p else u)] [] [] None.

Lemma pack_eq (p : hyp * Z) (w : World) : pack p w = (Ok (pack_out p), w).
Proof.
  destruct p as [h s]. unfold pack, pack_out, words. simpl.
  destruct (backtrace h) as [ws ats]. unfold bind, lift, HypScore_init.
  unfold py_bool, float_truth.
  destruct (h_unnormalized h =? 0)%Z; reflexivity.
Qed.

Lemma mapM_pack (l : list (hyp * Z)) (w : World) :
  mapM pack l w = (Ok (map pack_out l), w).
Proof.
  induction l as [|p l IH]; [reflexivity|]. simpl.
  rewrite bind_Ok with (a := pack_out p) (s1 := w) by apply pack_eq.
  cbv beta. bind_ok IH. reflexivity.
Qed.

(** The statements after the loop. *)
Definition finalize (src_length : option nat) (st : list hyp * list hyp)
  : M World (list BeamOutput) :=
  let '(completed_hyp, active_hyp) := st in
  let completed_hyp :=
    if length completed_hyp =? 0 then active_hyp else completed_hyp in
  let normalized_scores := normalize_completed completed_hyp src_length in
  let hyp_and_score :=
    sorted_desc snd (combine completed_hyp normalized_scores) in
  hyp_and_score <- (if one_best
                    then x <- getitem hyp_and_score 0 ;; ret [x]
                    else ret hyp_and_score) ;;
  mapM pack hyp_and_score.

(** The hypotheses that are reported, with their final scores, best first. *)
Definition ranked (src_length : option nat) (c a : list hyp)
  : list (hyp * Z) :=
  let completed_hyp := if length c =? 0 then a else c in
  sorted_desc snd
    (combine completed_hyp (normalize_completed completed_hyp src_length)).

Lemma finalize_eq (src_length : option nat) (c a : list hyp) (w : World) :
  finalize src_length (c, a) w =
  if one_best
  then match ranked src_length c a with
       | x :: _ => (Ok [pack_out x], w)
       | [] => (Raise IndexError, w)
       end
  else (Ok (map pack_out (ranked src_length c a)), w).
Proof.
  unfold finalize, ranked. cbv zeta.
  set (hs := sorted_desc snd _).
  destruct one_best.
  - destruct hs as [|x hs'].
    + reflexivity.
    + rewrite bind_Ok with (a := [x]) (s1 := w) by reflexivity.
      cbv beta. apply (mapM_pack [x]).
  - rewrite bind_Ok with (a := hs) (s1 := w) by reflexivity.
    apply mapM_pack.
Qed.

Lemma beam_generate_output_eq (initial_state : State) (src_length : option nat)
    (forced_trg_ids : option (list nat)) :
  generate_output initial_state src_length forced_trg_ids =
  if negb (is_None forced_trg_ids || (beam_size =? 1))
  then raise AssertionError
  else bind (beam_loop initial_state forced_trg_ids max_len 0 [Root] [])
            (finalize src_length).
Proof. reflexivity. Qed.

(** What is returned: the best one, or all of them. *)
Definition reported (src_length : option nat) (c a : list hyp)
  : list (hyp * Z) :=
  if one_best then firstn 1 (ranked src_length c a)
  else ranked src_length c a.

(** The normalized score an output carries. *)
Definition out_score (o : BeamOutput) : Z :=
  match score o with
  | hs :: _ => normalized hs
  | [] => 0%Z
  end.

Lemma out_score_pack_out (p : hyp * Z) : out_score (pack_out p) = snd p.
Proof. reflexivity. Qed.

Lemma reported_In (src_length : option nat) (c a : list hyp) (p : hyp * Z) :
  In p (reported src_length c a) -> In p (ranked src_length c a).
Proof.
  unfold reported. destruct one_best; [apply firstn_incl | trivial].
Qed.

Lemma descending_firstn (A : Type) (key : A -> Z) (n : nat) (l : list A) :
  descending key l -> descending key (firstn n l).
Proof.
  unfold descending. revert n.
  induction l as [|x l IH]; intros [|n] Hs; simpl; try constructor.
  - inversion Hs; subst. auto.
  - inversion Hs as [|? ? _ Hx]; subst. rewrite Forall_forall in *.
    intros y Hy. apply Hx. eapply firstn_incl; eauto.
Qed.

Lemma descending_map (A B : Type) (f : A -> B) (key : B -> Z) (l : list A) :
  descending (fun x => key (f x)) l -> descending key (map f l).
Proof.
  unfold descending. induction 1 as [|x l Hs IH Hx]; simpl; constructor; auto.
  rewrite Forall_forall in *. intros y Hy. apply in_map_iff in Hy.
  destruct Hy as (z & <- & Hz). auto.
Qed.

Lemma reported_descending (src_length : option nat) (c a : list hyp) :
  descending out_score (map pack_out (reported src_length c a)).
Proof.
  apply descending_map. unfold reported.
  assert (H : descending snd (ranked src_length c a))
    by apply sorted_desc_descending.
  destruct one_best; [apply descending_firstn|]; exact H.
Qed.

Lemma generate_from_loop (initial_state : State) (src_length : option nat)
    (forced_trg_ids : option (list nat)) (c a : list hyp) (log log' : World) :
  negb (is_None forced_trg_ids || (beam_size =? 1)) = false ->
  beam_loop initial_state forced_trg_ids max_len 0 [Root] [] log
    = (Ok (c, a), log') ->
  ranked src_length c a <> [] ->
  generate_output initial_state src_length forced_trg_ids log
    = (Ok (map pack_out (reported src_length c a)), log').
Proof.
  intros Hassert Hloop Hne. rewrite beam_generate_output_eq, Hassert.
  bind_ok Hloop. rewrite finalize_eq. unfold reported.
  destruct one_best; [|reflexivity].
  destruct (ranked src_length c a); [contradiction | reflexivity].
Qed.

(** ** [BeamSearch]: free decoding returns *)

Section FreeDecoding.

(** The beam is not empty, the translator's distributions are not empty, numpy
    returns a permutation of the indices for a valid [kth], and the length
    normalization returns one score per hypothesis. *)
Hypothesis beam_size_pos : 1 <= beam_size.
Hypothesis vocabulary_nonempty :
  forall prev_word prev_state,
    t_logsoftmax (output_one_step prev_word prev_state) <> [].
Hypothesis argpartition_perm :
  forall score kth,
    (- Z.of_nat (length score) <= kth < Z.of_nat (length score))%Z ->
    Permutation (argpartition score kth) (seq 0 (length score)).
Hypothesis normalize_completed_length :
  forall hyps src_length,
    length (normalize_completed hyps src_length) = length hyps.

Lemma top_words_in_range (len : nat) (score : list Z) (top : list nat) :
  score <> [] ->
  top_of None len score top ->
  top <> [] /\ Forall (fun w => w < length score) top.
Proof.
  intros Hne Htop.
  assert (Hlen : length score <> 0)
    by (intros H; apply length_zero_iff_nil in H; contradiction).
  unfold top_of in Htop. apply Nat.eqb_neq in Hlen. rewrite Hlen in Htop.
  apply Nat.eqb_neq in Hlen. subst top.
  assert (Hp := @argpartition_perm score
                  (Z.max (- Z.of_nat (length score)) (- Z.of_nat beam_size))).
  assert (Hperm : Permutation
            (argpartition score
               (Z.max (- Z.of_nat (length score)) (- Z.of_nat beam_size)))
            (seq 0 (length score))) by (apply Hp; lia).
  split.
  - apply slice_last_nonempty. intros Hnil. rewrite Hnil in Hperm.
    apply Permutation_length in Hperm. rewrite length_seq in Hperm.
    simpl in Hperm. lia.
  - apply Forall_forall. intros w Hw. apply slice_last_incl in Hw.
    apply (Permutation_in _ Hperm), in_seq in Hw. lia.
Qed.

(** The invariant of the outer loop. *)
Definition Inv (len : nat) (a c : list hyp) : Prop :=
  Forall (fun h => depth h = len) a
  /\ Forall (fun h => depth h <= len) c
  /\ length a <= beam_size
  /\ (c = [] -> a <> [])
  /\ length c <= 2 * beam_size - 1.

(** The invariant of the loop over the active hypotheses. *)
Definition Inv_expand (len : nat) (a c rest : list hyp)
    (acc : list hyp * list hyp) : Prop :=
  Forall (fun h => depth h = len) rest
  /\ Forall (fun h => depth h <= len) (fst acc)
  /\ Forall (fun h => depth h = S len) (snd acc)
  /\ length (fst acc) + length rest <= length c + length a
  /\ (fst acc = [] -> snd acc = [] -> rest <> []).

Lemma depth_child_of (len : nat) (h : hyp) out (w : nat) :
  depth (child_of len h out w) = S (depth h).
Proof. reflexivity. Qed.

Lemma free_expand (initial_state : State) (len : nat) (a c : list hyp)
    (x : hyp) (rest : list hyp) (acc : list hyp * list hyp) :
  hoare (fun _ => Inv_expand len a c (x :: rest) acc)
        (expand_hyp initial_state None len acc x)
        (fun acc' _ => Inv_expand len a c rest acc') no_exn.
Proof.
  intros log (Hrest & Hc & Hns & Hlen & Hne).
  destruct acc as [c0 ns0]. simpl in Hc, Hns, Hlen, Hne.
  inversion Hrest as [|? ? Hx Hrest']; subst.
  assert (H := expand_hyp_cases initial_state None (depth x) c0 ns0 x log).
  destruct (expand_hyp initial_state None (depth x) (c0, ns0) x log)
    as [[[c' ns']|e] log'].
  - destruct H as [(Hpos & Hw & -> & -> & ->)
                  |(pw & ps & top & Hprev & Hes & Htop & Hin & -> & -> & ->)].
    + unfold Inv_expand. simpl. repeat split; auto.
      * apply Forall_app. split; [assumption|]. constructor; [lia|constructor].
      * rewrite length_app. simpl in *. lia.
      * intros Hnil. apply app_eq_nil in Hnil. destruct Hnil; discriminate.
    + cbv zeta in *. unfold Inv_expand. simpl. repeat split; auto.
      * apply Forall_app. split; [assumption|].
        apply Forall_forall. intros h Hh. apply in_map_iff in Hh.
        destruct Hh as (w & <- & _). reflexivity.
      * simpl in Hlen. lia.
      * intros _ Hnil. apply app_eq_nil in Hnil. destruct Hnil as [_ Hnil].
        apply map_eq_nil in Hnil.
        destruct (top_words_in_range (vocabulary_nonempty pw ps) Htop)
          as [Hne' _].
        contradiction.
  - destruct H as [(-> & Hpos & Hout & ->)
                  |(pw & ps & Hprev & Hes & -> & Hcase)].
    + destruct x; simpl in *; [lia | discriminate].
    + cbv zeta in Hcase.
      destruct Hcase as [(-> & f & Hf & _)|(-> & top & w & Htop & Hin & Hle)].
      * discriminate.
      * destruct (top_words_in_range (vocabulary_nonempty pw ps) Htop)
          as [_ Hrange].
        rewrite Forall_forall in Hrange. specialize (Hrange w Hin). lia.
Qed.

Lemma free_step (initial_state : State) (len : nat) (a c : list hyp) :
  length c < beam_size -> Inv len a c ->
  hoare (fun _ => True) (beam_step initial_state None len a c)
        (fun st _ => Inv (S len) (snd st) (fst st)) no_exn.
Proof.
  intros Hc (Ha & Hcd & Hla & Hne & Hlc).
  eapply hoare_conseq;
    [apply (@hoare_beam_step initial_state None len a c
              (fun rest acc _ => Inv_expand len a c rest acc)
              (fun st _ => Inv (S len) (snd st) (fst st)) no_exn) | | |];
    auto.
  - intros x rest acc. apply free_expand.
  - intros c' ns _ (_ & Hc' & Hns & Hlen & Hne'). simpl in *.
    unfold Inv. simpl. repeat split.
    + apply Forall_forall. intros h Hh. apply firstn_incl in Hh.
      apply sorted_desc_In in Hh. rewrite Forall_forall in Hns. auto.
    + eapply Forall_impl; [|exact Hc']. cbv beta. intros; lia.
    + rewrite length_firstn. lia.
    + intros -> Hnil.
      assert (Hns' : ns <> [])
        by (intros Hn; exact (Hne' eq_refl Hn eq_refl)).
      apply (f_equal (@length hyp)) in Hnil.
      rewrite length_firstn, sorted_desc_length in Hnil. simpl in Hnil.
      destruct ns; [congruence | simpl in Hnil; lia].
    + lia.
  - intros s _. unfold Inv_expand. simpl. repeat split; auto.
Qed.

Lemma free_loop (initial_state : State) (log : World) :
  exists c a log' len,
    beam_loop initial_state None max_len 0 [Root] [] log = (Ok (c, a), log')
    /\ len <= max_len /\ Inv len a c.
Proof.
  assert (H := @hoare_beam_loop initial_state None
                 (fun len a c _ => Inv len a c) no_exn max_len).
  assert (Hstep : forall len a c, length c < beam_size -> len < max_len ->
            hoare (fun _ : World => Inv len a c)
                  (beam_step initial_state None len a c)
                  (fun st _ => Inv (S len) (snd st) (fst st)) no_exn).
  { intros len a c Hc _ s Hs. now apply free_step. }
  assert (H0 : Inv 0 [Root] []).
  { unfold Inv. simpl. repeat split; auto; try lia. discriminate. }
  specialize (H Hstep max_len 0 [Root] [] (le_n _) log H0).
  destruct (beam_loop initial_state None max_len 0 [Root] [] log)
    as [[[c a]|e] log'].
  - destruct H as (len & Hlen & HI & _).
    exists c, a, log', len. simpl in HI.
    split; [reflexivity|]. split; [lia | exact HI].
  - contradiction.
Qed.

Lemma ranked_length (src_length : option nat) (c a : list hyp) :
  length (ranked src_length c a)
  = length (if length c =? 0 then a else c).
Proof.
  unfold ranked. rewrite sorted_desc_length, length_combine.
  rewrite normalize_completed_length. apply Nat.min_id.
Qed.

Lemma ranked_In (src_length : option nat) (c a : list hyp) (p : hyp * Z) :
  In p (ranked src_length c a) -> In (fst p) (if length c =? 0 then a else c).
Proof.
  unfold ranked. intros Hp. apply sorted_desc_In in Hp.
  destruct p as [h s]. apply in_combine_l in Hp. exact Hp.
Qed.

Lemma Inv_reported_nonempty (len : nat) (a c : list hyp) :
  Inv len a c -> (if length c =? 0 then a else c) <> [].
Proof.
  intros (_ & _ & _ & Hne & _). destruct c; simpl; [auto | discriminate].
Qed.

Lemma ranked_nonempty (src_length : option nat) (c a : list hyp) :
  (if length c =? 0 then a else c) <> [] -> ranked src_length c a <> [].
Proof.
  intros Hne Hnil. apply (f_equal (@length (hyp * Z))) in Hnil.
  rewrite ranked_length in Hnil. simpl in Hnil.
  apply length_zero_iff_nil in Hnil. contradiction.
Qed.

Lemma reported_length (src_length : option nat) (c a : list hyp) :
  (if length c =? 0 then a else c) <> [] ->
  length (reported src_length c a)
  = if one_best then 1 else length (if length c =? 0 then a else c).
Proof.
  intros Hne. unfold reported. destruct one_best.
  - rewrite length_firstn, ranked_length.
    destruct (if length c =? 0 then a else c); [contradiction | reflexivity].
  - apply ranked_length.
Qed.

(** Free decoding returns, and returns what the loop left. *)
Lemma free_generate (initial_state : State) (src_length : option nat)
    (log : World) :
  exists c a log' len,
    beam_loop initial_state None max_len 0 [Root] [] log = (Ok (c, a), log')
    /\ len <= max_len /\ Inv len a c
    /\ generate_output initial_state src_length None log
       = (Ok (map pack_out (reported src_length c a)), log').
Proof.
  destruct (free_loop initial_state log) as (c & a & log' & len & Hl & Hm & HI).
  exists c, a, log', len.
  split; [exact Hl|]. split; [exact Hm|]. split; [exact HI|].
  apply generate_from_loop; auto.
  apply ranked_nonempty. eapply Inv_reported_nonempty; eauto.
Qed.

End FreeDecoding.

(** ** [BeamSearch]: forced decoding with a beam of one *)

(** A sequence cut after its first end-of-sequence word. *)
Fixpoint trim_es (l : list nat) : list nat :=
  match l with
  | [] => []
  | w :: l' => if w =? Vocab.ES then [w] else w :: trim_es l'
  end.

(** No word before the last one is the end-of-sequence word. *)
Definition noES_before (h : hyp) : Prop :=
  match h with
  | Root => True
  | Child _ _ p _ _ => ~ In Vocab.ES (words p)
  end.

Lemma trim_es_app (l r : list nat) :
  ~ In Vocab.ES l -> trim_es (l ++ r) = l ++ trim_es r.
Proof.
  induction l as [|x l IH]; intros Hl; [reflexivity|]. simpl.
  destruct (Nat.eqb_spec x Vocab.ES) as [->|Hx].
  - exfalso. apply Hl. now left.
  - f_equal. apply IH. intros Hin. apply Hl. now right.
Qed.

Lemma trim_es_single (w : nat) (r : list nat) :
  w = Vocab.ES \/ r = [] -> trim_es (w :: r) = [w].
Proof.
  intros [->| ->]; simpl; [reflexivity|].
  destruct (w =? Vocab.ES); reflexivity.
Qed.

(** The hypothesis the loop ends with spells the trimmed forced sequence. *)
Lemma words_trim (f : list nat) (h : hyp) :
  words h = firstn (depth h) f -> noES_before h -> depth h <= max_len ->
  depth h = max_len \/ h_word h = Some Vocab.ES ->
  words h = trim_es (firstn max_len f).
Proof.
  intros Hw Hno Hle Hend.
  rewrite (firstn_split f Hle), <- Hw.
  destruct h as [|s o p w u].
  - simpl in *. destruct Hend as [<-|]; [reflexivity | discriminate].
  - rewrite words_Child, <- app_assoc. simpl in Hno.
    rewrite trim_es_app by assumption. f_equal. simpl app.
    symmetry. apply trim_es_single.
    destruct Hend as [<-|Hes].
    + right. now rewrite Nat.sub_diag.
    + left. simpl in Hes. congruence.
Qed.

Section ForcedDecoding.

Variable initial_state : State.
Variable f : list nat.

(** The beam has one element, the forced words are in the vocabulary, the
    forced sequence has a word for every step that is taken, and the length
    normalization returns one score per hypothesis. *)
Hypothesis beam_size_one : beam_size = 1.
Hypothesis forced_in_vocabulary :
  forall prev_word prev_state w,
    In w f -> w < length (t_logsoftmax (output_one_step prev_word prev_state)).
Hypothesis forced_covers :
  max_len <= length f \/ In Vocab.ES (firstn max_len f).
Hypothesis normalize_completed_length :
  forall hyps src_length,
    length (normalize_completed hyps src_length) = length hyps.

(** The single active hypothesis at step [len]. *)
Definition on_track (len : nat) (h : hyp) : Prop :=
  depth h = len /\ words h = firstn len f /\ noES_before h.

Lemma on_track_noES (len : nat) (h : hyp) (prev_word : option nat)
    (prev_state : State) :
  on_track len h -> prev_of initial_state len h prev_word prev_state ->
  is_ES prev_word = false -> ~ In Vocab.ES (words h).
Proof.
  intros (Hd & Hw & Hno) Hprev Hes. unfold prev_of in Hprev.
  destruct h as [|s o p w u]; [simpl; tauto|].
  simpl in Hd. subst len. simpl in Hprev. destruct Hprev as [-> _].
  simpl in Hes, Hno. rewrite words_Child. intros Hin.
  apply in_app_or in Hin. destruct Hin as [Hin|[Heq|[]]]; [tauto|].
  rewrite Heq in Hes. discriminate.
Qed.

Lemma forced_has_word (len : nat) (h : hyp) :
  on_track len h -> len < max_len -> ~ In Vocab.ES (words h) ->
  len < length f.
Proof.
  intros (Hd & Hw & _) Hlen Hno.
  destruct forced_covers as [Hc|Hc]; [lia|].
  destruct (Nat.lt_ge_cases len (length f)) as [|Hge]; [assumption|].
  exfalso. apply Hno. rewrite Hw.
  rewrite firstn_all2 in Hc by lia. now rewrite firstn_all2 by lia.
Qed.

Lemma forced_step (len : nat) (h : hyp) (log : World) :
  len < max_len -> on_track len h ->
  exists st log',
    beam_step initial_state (Some f) len [h] [] log = (Ok st, log')
    /\ ((h_word h = Some Vocab.ES /\ st = ([h], []))
        \/ (exists h', st = ([], [h']) /\ on_track (S len) h')).
Proof.
  intros Hlen Htrack. unfold BeamSearch.beam_step.
  assert (H := expand_hyp_cases initial_state (Some f) len [] [] h log).
  destruct (expand_hyp initial_state (Some f) len ([], []) h log)
    as [[[c' ns']|e] log'] eqn:Eexp.
  - rewrite bind_Ok with (a := (c', ns')) (s1 := log')
      by (rewrite foldM_single; exact Eexp).
    cbv beta iota. rewrite beam_size_one.
    destruct H as [(Hpos & Hw & -> & -> & ->)
                  |(pw & ps & top & Hprev & Hes & Htop & Hin & -> & -> & ->)].
    + exists ([h], []), log. split; [reflexivity|]. left. auto.
    + cbv zeta in *. destruct Htop as (w & Hw & ->). simpl.
      eexists _, _. split; [reflexivity|]. right. eexists. split; [reflexivity|].
      assert (Ht := Htrack). destruct Ht as (Hd & Hws & Hno).
      unfold on_track. split; [rewrite depth_child_of; lia|]. split.
      * unfold child_of. rewrite words_Child.
        rewrite firstn_snoc with (x := w) by exact Hw. now rewrite Hws.
      * unfold child_of. cbn [noES_before]. eapply on_track_noES; eauto.
  - exfalso.
    destruct H as [(-> & Hpos & Hout & ->)
                  |(pw & ps & Hprev & Hes & -> & Hcase)].
    + destruct Htrack as (Hd & _). destruct h; simpl in *; [lia|discriminate].
    + cbv zeta in Hcase.
      assert (Hno : ~ In Vocab.ES (words h))
        by (eapply on_track_noES; eauto).
      assert (Hlt : len < length f) by (eapply forced_has_word; eauto).
      destruct Hcase as [(_ & f' & Hf & Hnth)|(_ & top & w & Htop & Hin & Hle)].
      * inversion Hf; subst f'. apply nth_error_None in Hnth. lia.
      * destruct Htop as (w' & Hw' & ->). destruct Hin as [<-|[]].
        apply nth_error_In in Hw'.
        specialize (forced_in_vocabulary pw ps w' Hw'). lia.
Qed.

Lemma beam_loop_full (forced_trg_ids : option (list nat)) (steps len : nat)
    (a c : list hyp) (log : World) :
  beam_size <= length c ->
  beam_loop initial_state forced_trg_ids steps len a c log = (Ok (c, a), log).
Proof.
  intros Hc. destruct steps as [|steps]; simpl; [reflexivity|].
  apply Nat.leb_le in Hc. now rewrite Hc.
Qed.

Lemma forced_loop (steps : nat) :
  forall (len : nat) (h : hyp) (log : World),
    len + steps = max_len -> on_track len h ->
    exists c a log' h',
      beam_loop initial_state (Some f) steps len [h] [] log
        = (Ok (c, a), log')
      /\ (if length c =? 0 then a else c) = [h']
      /\ words h' = trim_es (firstn max_len f).
Proof.
  induction steps as [|steps IH]; intros len h log Hsum Htrack.
  - exists [], [h], log, h. simpl. repeat split.
    destruct Htrack as (Hd & Hw & Hno).
    apply words_trim; rewrite ?Hd; auto; try lia.
  - assert (Hg : (beam_size <=? length (@nil hyp)) = false)
      by (rewrite beam_size_one; reflexivity).
    cbn [BeamSearch.beam_loop]. rewrite Hg.
    destruct (@forced_step len h log) as (st & log1 & Hstep & Hcase);
      [lia | assumption |].
    bind_ok Hstep.
    destruct Hcase as [(Hes & ->)|(h' & -> & Htrack')].
    + exists [h], [], log1, h. split.
      * apply beam_loop_full. rewrite beam_size_one. simpl. lia.
      * split; [reflexivity|].
        destruct Htrack as (Hd & Hw & Hno).
        apply words_trim; rewrite ?Hd; auto; lia.
    + apply IH; [lia | assumption].
Qed.

(** Forced decoding with a beam of one returns a single output that spells
    the forced sequence, cut after [max_len] words and after its first
    end-of-sequence word. *)
Lemma forced_generate (src_length : option nat) (log : World) :
  exists o log',
    generate_output initial_state src_length (Some f) log = (Ok [o], log')
    /\ word_ids o = [trim_es (firstn max_len f)].
Proof.
  destruct (@forced_loop max_len 0 Root log) as (c & a & log' & h & Hl & Hh & Hw).
  { reflexivity. }
  { unfold on_track. simpl. auto. }
  assert (Hr : exists s, ranked src_length c a = [(h, s)]).
  { unfold ranked. rewrite Hh.
    assert (Hn := normalize_completed_length [h] src_length).
    destruct (normalize_completed [h] src_length) as [|s [|s' l]];
      try discriminate.
    exists s. reflexivity. }
  destruct Hr as (s & Hr).
  exists (pack_out (h, s)), log'. split.
  - rewrite (@generate_from_loop initial_state src_length (Some f) c a log log').
    + unfold reported. rewrite Hr. destruct one_best; reflexivity.
    + rewrite beam_size_one. reflexivity.
    + exact Hl.
    + rewrite Hr. discriminate.
  - simpl. now rewrite Hw.
Qed.

End ForcedDecoding.

(** ** [BeamSearch]: finished hypotheses stay finished *)

(** No logged call has the end-of-sequence word as its previous word. *)
Definition log_ok (log : World) : Prop :=
  Forall (fun call => is_ES (fst call) = false) log.

Lemma noES_before_words (h : hyp) :
  noES_before h -> is_ES (h_word h) = false -> ~ In Vocab.ES (words h).
Proof.
  destruct h as [|s o p w u]; simpl; [tauto|].
  intros Hno Hes. rewrite words_Child. intros Hin.
  apply in_app_or in Hin. destruct Hin as [Hin|[Heq|[]]]; [tauto|].
  rewrite Heq in Hes. discriminate.
Qed.

Definition Inv_ES (len : nat) (a c : list hyp) (log : World) : Prop :=
  Forall noES_before a /\ Forall noES_before c
  /\ (len = 0 -> Forall (fun h => h = Root) a) /\ log_ok log.

Definition Inv_ES_expand (len : nat) (rest : list hyp)
    (acc : list hyp * list hyp) (log : World) : Prop :=
  Forall noES_before rest /\ Forall noES_before (fst acc)
  /\ Forall noES_before (snd acc)
  /\ (len = 0 -> Forall (fun h => h = Root) rest) /\ log_ok log.

Lemma log_ok_snoc (log : World) (prev_word : option nat) (prev_state : State) :
  log_ok log -> is_ES prev_word = false ->
  log_ok (log ++ [(prev_word, prev_state)]).
Proof.
  intros Hl He. apply Forall_app. split; [assumption|].
  constructor; [exact He | constructor].
Qed.

Lemma ES_expand (initial_state : State) (forced_trg_ids : option (list nat))
    (len : nat) (x : hyp) (rest : list hyp) (acc : list hyp * list hyp) :
  hoare (Inv_ES_expand len (x :: rest) acc)
        (expand_hyp initial_state forced_trg_ids len acc x)
        (Inv_ES_expand len rest) (fun _ => log_ok).
Proof.
  intros log (Hrest & Hc & Hns & H0 & Hlog). destruct acc as [c0 ns0].
  simpl in Hc, Hns.
  inversion Hrest as [|? ? Hx Hrest']; subst.
  assert (H0' : len = 0 -> x = Root /\ Forall (fun h => h = Root) rest).
  { intros Hl. specialize (H0 Hl). now inversion H0. }
  assert (H := expand_hyp_cases initial_state forced_trg_ids len c0 ns0 x log).
  destruct (expand_hyp initial_state forced_trg_ids len (c0, ns0) x log)
    as [[[c' ns']|e] log'].
  - destruct H as [(Hpos & Hw & -> & -> & ->)
                  |(pw & ps & top & Hprev & Hes & Htop & Hin & -> & -> & ->)].
    + unfold Inv_ES_expand. simpl. repeat split; auto.
      * apply Forall_app. split; [assumption|]. now constructor.
      * intros Hl. now apply H0'.
    + cbv zeta in *. unfold Inv_ES_expand. simpl. repeat split; auto.
      * apply Forall_app. split; [assumption|].
        apply Forall_forall. intros h Hh. apply in_map_iff in Hh.
        destruct Hh as (w & <- & _). unfold child_of. cbn [noES_before].
        unfold prev_of in Hprev. destruct (0 <? len) eqn:Hl.
        -- destruct Hprev as [-> _]. now apply noES_before_words.
        -- apply Nat.ltb_ge in Hl. destruct H0' as [-> _]; [lia|].
           simpl. tauto.
      * intros Hl. now apply H0'.
      * now apply log_ok_snoc.
  - destruct H as [(-> & Hpos & Hout & ->)
                  |(pw & ps & Hprev & Hes & -> & Hcase)];
      [assumption | now apply log_ok_snoc].
Qed.

Lemma ES_step (initial_state : State) (forced_trg_ids : option (list nat))
    (len : nat) (a c : list hyp) :
  hoare (Inv_ES len a c)
        (beam_step initial_state forced_trg_ids len a c)
        (fun st log => Inv_ES (S len) (snd st) (fst st) log)
        (fun _ => log_ok).
Proof.
  eapply hoare_conseq;
    [apply (@hoare_beam_step initial_state forced_trg_ids len a c
              (Inv_ES_expand len)
              (fun st log => Inv_ES (S len) (snd st) (fst st) log)
              (fun _ => log_ok)) | | |]; auto.
  - intros x rest acc. apply ES_expand.
  - intros c' ns log (_ & Hc' & Hns & _ & Hlog). simpl in *.
    unfold Inv_ES. simpl. repeat split; auto; [|discriminate].
    apply Forall_forall. intros h Hh. apply firstn_incl in Hh.
    apply sorted_desc_In in Hh. rewrite Forall_forall in Hns. auto.
  - intros log (Ha & Hc & H0 & Hlog). unfold Inv_ES_expand. simpl.
    repeat split; auto.
Qed.

Lemma ES_loop (initial_state : State) (forced_trg_ids : option (list nat))
    (steps : nat) :
  hoare log_ok
        (beam_loop initial_state forced_trg_ids steps 0 [Root] [])
        (fun st log => Forall noES_before (fst st ++ snd st) /\ log_ok log)
        (fun _ => log_ok).
Proof.
  eapply hoare_conseq;
    [apply (@hoare_beam_loop initial_state forced_trg_ids Inv_ES
              (fun _ => log_ok) steps) with (len := 0) | | |]; auto.
  - intros len a c _ _. apply ES_step.
  - intros log Hlog. unfold Inv_ES. simpl.
    repeat split; auto; repeat constructor.
  - cbv beta. intros st log (len' & _ & (Ha & Hc & _ & Hlog) & _).
    split; [|assumption]. apply Forall_app. auto.
Qed.

(** ** [BeamSearch]: the assertion *)

Definition not_assertion (e : exn) (_ : World) : Prop := e <> AssertionError.

Lemma loop_never_asserts (initial_state : State)
    (forced_trg_ids : option (list nat)) (steps len : nat) (a c : list hyp) :
  hoare (fun _ => True)
        (beam_loop initial_state forced_trg_ids steps len a c)
        (fun _ _ => True) not_assertion.
Proof.
  eapply hoare_conseq;
    [apply (@hoare_beam_loop initial_state forced_trg_ids
              (fun _ _ _ _ => True) not_assertion (len + steps))
       with (len := len) (a := a) (c := c) | | |]; auto.
  intros len0 a0 c0 _ _.
  apply (@hoare_beam_step initial_state forced_trg_ids len0 a0 c0
           (fun _ _ _ => True) (fun _ _ => True) not_assertion); [|auto].
  intros x rest [c1 ns1] log _.
  assert (H := expand_hyp_cases initial_state forced_trg_ids len0 c1 ns1 x log).
  destruct (expand_hyp initial_state forced_trg_ids len0 (c1, ns1) x log)
    as [[[c' ns']|e] log']; [trivial|].
  unfold not_assertion.
  destruct H as [(-> & _)|(pw & ps & _ & _ & _ & Hcase)]; [discriminate|].
  cbv zeta in Hcase.
  destruct Hcase as [(-> & _)|(-> & _)]; discriminate.
Qed.

Lemma trim_es_length (l : list nat) : length (trim_es l) <= length l.
Proof.
  induction l as [|w l IH]; simpl; [lia|].
  destruct (w =? Vocab.ES); simpl; lia.
Qed.

(** ** [BeamSearch]: the main properties *)

(** C1 (as amended).  With a beam of at least one, [generate_output] returns;
    it returns at least one and at most [2 * beam_size - 1] outputs (exactly
    one with [one_best]), each with at most [max_len] words, best normalized
    score first.  The translator's distributions are not empty, numpy's
    [argpartition] returns a permutation of the indices, the length
    normalization returns one score per hypothesis, and a forced target comes
    with a beam of one, words of the vocabulary and a word for every step
    that is taken. *)
Theorem C1_beam_output_count_length_order
    (initial_state : State) (src_length : option nat)
    (forced_trg_ids : option (list nat)) (log : World) :
  1 <= beam_size ->
  (forall prev_word prev_state,
      t_logsoftmax (output_one_step prev_word prev_state) <> []) ->
  (forall score kth,
      (- Z.of_nat (length score) <= kth < Z.of_nat (length score))%Z ->
      Permutation (argpartition score kth) (seq 0 (length score))) ->
  (forall hyps src, length (normalize_completed hyps src) = length hyps) ->
  (forall f, forced_trg_ids = Some f ->
      beam_size = 1
      /\ (forall prev_word prev_state w, In w f ->
            w < length (t_logsoftmax (output_one_step prev_word prev_state)))
      /\ (max_len <= length f \/ In Vocab.ES (firstn max_len f))) ->
  exists outs log',
    generate_output initial_state src_length forced_trg_ids log
      = (Ok outs, log')
    /\ 1 <= length outs <= 2 * beam_size - 1
    /\ (one_best = true -> length outs = 1)
    /\ Forall (fun o => exists ws, word_ids o = [ws] /\ length ws <= max_len)
              outs
    /\ descending out_score outs.
Proof.
  intros Hbeam Hvocab Hperm Hnorm Hforced.
  destruct forced_trg_ids as [f|].
  - destruct (Hforced f eq_refl) as (Hone & Hin & Hcov).
    destruct (@forced_generate initial_state f Hone Hin Hcov Hnorm
                src_length log) as (o & log' & Hgen & Hw).
    exists [o], log'. split; [exact Hgen|]. simpl. repeat split; try lia.
    + constructor; [|constructor]. eexists. split; [exact Hw|].
      etransitivity; [apply trim_es_length|]. apply firstn_le_length.
    + constructor; constructor.
  - destruct (@free_generate Hbeam Hvocab Hperm Hnorm initial_state
                src_length log)
      as (c & a & log' & len & Hloop & Hlen & HI & Hgen).
    exists (map pack_out (reported src_length c a)), log'.
    split; [exact Hgen|].
    assert (Hne := Inv_reported_nonempty HI).
    assert (Hrl := reported_length Hnorm src_length c a Hne).
    destruct HI as (Ha & Hc & Hla & _ & Hlc).
    rewrite length_map, Hrl. repeat split.
    + destruct one_best; [lia|].
      destruct (if length c =? 0 then a else c); [contradiction|simpl; lia].
    + destruct one_best; [lia|]. destruct (length c =? 0); lia.
    + intros ->. reflexivity.
    + apply Forall_forall. intros o Ho. apply in_map_iff in Ho.
      destruct Ho as (p & <- & Hp). exists (words (fst p)).
      split; [reflexivity|]. rewrite words_length.
      apply reported_In, ranked_In in Hp.
      destruct (length c =? 0);
        [rewrite Forall_forall in Ha; rewrite (Ha _ Hp)
        |rewrite Forall_forall in Hc; specialize (Hc _ Hp)]; lia.
    + apply reported_descending.
Qed.

(** C3.  With a forced target and a beam larger than one the call raises
    [AssertionError] and the log of translator calls is left as it was: no
    call was made.  With a beam of one, or without a forced target, whatever
    the call does it does not raise [AssertionError]. *)
Theorem C3_forced_beam_precondition
    (initial_state : State) (src_length : option nat) (log : World) :
  (forall f, 1 < beam_size ->
     generate_output initial_state src_length (Some f) log
       = (Raise AssertionError, log))
  /\ (forall forced_trg_ids, beam_size = 1 \/ forced_trg_ids = None ->
        fst (generate_output initial_state src_length forced_trg_ids log)
          <> Raise AssertionError).
Proof.
  split.
  - intros f Hb. rewrite beam_generate_output_eq. simpl.
    destruct (Nat.eqb_spec beam_size 1); [lia | reflexivity].
  - intros forced Hok. rewrite beam_generate_output_eq.
    assert (Hassert : negb (is_None forced || (beam_size =? 1)) = false).
    { destruct Hok as [-> | ->]; [|reflexivity].
      simpl. now rewrite orb_true_r. }
    rewrite Hassert.
    assert (Hloop := @loop_never_asserts initial_state forced max_len 0
                       [Root] [] log I).
    destruct (beam_loop initial_state forced max_len 0 [Root] [] log)
      as [[[c a]|e] log'] eqn:El.
    + bind_ok El. rewrite finalize_eq.
      destruct one_best; [|discriminate].
      destruct (ranked src_length c a); discriminate.
    + bind_raise El. simpl. intros Heq. apply Hloop. congruence.
Qed.

(** C4 (as amended).  With a beam of one, a forced target whose words are in
    the vocabulary and that holds a word for every step that is taken (it has
    at least [max_len] words, or an end-of-sequence word among the first
    [max_len]) is reproduced: one output is returned, and its words are the
    forced sequence cut after [max_len] words and after the first
    end-of-sequence word. *)
Theorem C4_forced_beam_reproduces_target
    (initial_state : State) (src_length : option nat) (f : list nat)
    (log : World) :
  beam_size = 1 ->
  (forall prev_word prev_state w, In w f ->
      w < length (t_logsoftmax (output_one_step prev_word prev_state))) ->
  max_len <= length f \/ In Vocab.ES (firstn max_len f) ->
  (forall hyps src, length (normalize_completed hyps src) = length hyps) ->
  exists o log',
    generate_output initial_state src_length (Some f) log = (Ok [o], log')
    /\ word_ids o = [trim_es (firstn max_len f)].
Proof.
  intros Hone Hin Hcov Hnorm.
  exact (@forced_generate initial_state f Hone Hin Hcov Hnorm src_length log).
Qed.

(** C7.  A visited hypothesis that ends in the end-of-sequence word is
    appended to the completed ones; the translator is not called and nothing
    is queued.  In every run, no translator call has the end-of-sequence word
    as its previous word, no hypothesis left by the loop has a finished
    ancestor, and in every output only the last word can be the
    end-of-sequence word. *)
Theorem C7_finished_hypotheses_are_not_expanded
    (initial_state : State) (src_length : option nat)
    (forced_trg_ids : option (list nat)) :
  (forall len completed_hyp new_set s o p u log,
      expand_hyp initial_state forced_trg_ids (S len)
                 (completed_hyp, new_set) (Child s o p Vocab.ES u) log
      = (Ok (completed_hyp ++ [Child s o p Vocab.ES u], new_set), log))
  /\ (match beam_loop initial_state forced_trg_ids max_len 0 [Root] [] [] with
      | (Ok (completed_hyp, active_hyp), log') =>
          Forall noES_before (completed_hyp ++ active_hyp) /\ log_ok log'
      | (Raise _, log') => log_ok log'
      end)
  /\ (match generate_output initial_state src_length forced_trg_ids [] with
      | (Ok outs, log') =>
          log_ok log'
          /\ Forall (fun o => exists ws, word_ids o = [ws]
                              /\ ~ In Vocab.ES (removelast ws)) outs
      | (Raise _, log') => log_ok log'
      end).
Proof.
  assert (Hloop := @ES_loop initial_state forced_trg_ids max_len []
                     (Forall_nil _)).
  split; [reflexivity|]. split.
  - destruct (beam_loop initial_state forced_trg_ids max_len 0 [Root] [] [])
      as [[[c a]|e] log']; exact Hloop.
  - rewrite beam_generate_output_eq.
    destruct (negb (is_None forced_trg_ids || (beam_size =? 1)));
      [constructor|].
    destruct (beam_loop initial_state forced_trg_ids max_len 0 [Root] [] [])
      as [[[c a]|e] log'] eqn:El.
    + bind_ok El. rewrite finalize_eq. simpl in Hloop.
      destruct Hloop as [Hhyps Hlog].
      assert (Hout : forall p, In p (ranked src_length c a) ->
                exists ws, word_ids (pack_out p) = [ws]
                           /\ ~ In Vocab.ES (removelast ws)).
      { intros [h s] Hp. exists (words h). split; [reflexivity|].
        unfold ranked in Hp. apply sorted_desc_In, in_combine_l in Hp.
        assert (Hh : In h (c ++ a))
          by (apply in_or_app; destruct (length c =? 0); auto).
        rewrite Forall_forall in Hhyps. specialize (Hhyps h Hh).
        destruct h as [|s' o p w u]; [simpl; tauto|].
        rewrite words_Child, removelast_last. exact Hhyps. }
      destruct one_best.
      * destruct (ranked src_length c a) as [|p l] eqn:Er; [exact Hlog|].
        split; [exact Hlog|]. constructor; [|constructor].
        apply Hout. now left.
      * split; [exact Hlog|]. apply Forall_forall. intros o Ho.
        apply in_map_iff in Ho. destruct Ho as (p & <- & Hp). now apply Hout.
    + bind_raise El. exact Hloop.
Qed.

(** ** [BeamSearch]: the frontier is reported *)

Section Frontier.

Hypothesis beam_size_pos : 1 <= beam_size.
Hypothesis vocabulary_nonempty :
  forall prev_word prev_state,
    t_logsoftmax (output_one_step prev_word prev_state) <> [].
Hypothesis argpartition_perm :
  forall score kth,
    (- Z.of_nat (length score) <= kth < Z.of_nat (length score))%Z ->
    Permutation (argpartition score kth) (seq 0 (length score)).




End Frontier.


(** Every output of the beam search has an empty list of log-probabilities,
    an empty list of states and no mask. *)
Lemma beam_fields_empty (initial_state : State) (src_length : option nat)
    (forced_trg_ids : option (list nat)) (log : World) :
  match generate_output initial_state src_length forced_trg_ids log with
  | (Ok outs, _) =>
      Forall (fun o : BeamOutput =>
                logsoftmaxes o = [] /\ state o = [] /\ mask o = None) outs
  | (Raise _, _) => True
  end.
Proof.
  rewrite beam_generate_output_eq.
  destruct (negb (is_None forced_trg_ids || (beam_size =? 1))); [exact I|].
  destruct (beam_loop initial_state forced_trg_ids max_len 0 [Root] [] log)
    as [[[c a]|e] log'] eqn:El.
  - bind_ok El. rewrite finalize_eq. destruct one_best.
    + destruct (ranked src_length c a); [exact I|].
      constructor; [|constructor]. repeat split.
    + apply Forall_forall. intros o Ho. apply in_map_iff in Ho.
      destruct Ho as (p & <- & _). repeat split.
  - bind_raise El. exact I.
Qed.

(** ** [BeamSearch]: the calls of the translator *)

(** The number of calls after [len] passes of the outer loop is at most
    [call_bound len]: one call in the first pass, where the root alone is
    active, and one per active hypothesis in each later pass. *)
Definition call_bound (len : nat) : nat :=
  match len with
  | 0 => 0
  | S n => 1 + n * beam_size
  end.

Lemma call_bound_mono (n m : nat) : n <= m -> call_bound n <= call_bound m.
Proof.
  intros H. destruct n as [|n]; [simpl; lia|].
  destruct m as [|m]; [lia|]. simpl.
  assert (n * beam_size <= m * beam_size)
    by (apply Nat.mul_le_mono_r; lia).
  lia.
Qed.

Definition Inv_calls (log0 : World) (len : nat) (a c : list hyp)
    (log : World) : Prop :=
  length a <= match len with 0 => 1 | S _ => beam_size end
  /\ exists calls, log = log0 ++ calls /\ length calls <= call_bound len.

Definition Inv_calls_expand (log0 : World) (len : nat) (rest : list hyp)
    (acc : list hyp * list hyp) (log : World) : Prop :=
  exists calls,
    log = log0 ++ calls /\ length calls + length rest <= call_bound (S len).

Definition calls_bounded (log0 : World) (bound : nat) (_ : exn) (log : World)
  : Prop :=
  exists calls, log = log0 ++ calls /\ length calls <= bound.

Lemma calls_expand (log0 : World) (initial_state : State)
    (forced_trg_ids : option (list nat)) (len : nat) (x : hyp)
    (rest : list hyp) (acc : list hyp * list hyp) :
  hoare (Inv_calls_expand log0 len (x :: rest) acc)
        (expand_hyp initial_state forced_trg_ids len acc x)
        (Inv_calls_expand log0 len rest)
        (calls_bounded log0 (call_bound (S len))).
Proof.
  intros log (calls & -> & Hlen). destruct acc as [c0 ns0].
  cbn [length] in Hlen.
  assert (H := expand_hyp_cases initial_state forced_trg_ids len c0 ns0 x
                                (log0 ++ calls)).
  destruct (expand_hyp initial_state forced_trg_ids len (c0, ns0) x
                       (log0 ++ calls)) as [[[c' ns']|e] log'].
  - destruct H as [(_ & _ & _ & _ & ->)
                  |(pw & ps & top & _ & _ & _ & _ & _ & _ & ->)].
    + exists calls. split; [reflexivity | lia].
    + exists (calls ++ [(pw, ps)]). rewrite app_assoc.
      split; [reflexivity|]. rewrite length_app. cbn [length]. lia.
  - destruct H as [(_ & _ & _ & ->)|(pw & ps & _ & _ & -> & _)].
    + exists calls. split; [reflexivity | lia].
    + exists (calls ++ [(pw, ps)]). rewrite app_assoc.
      split; [reflexivity|]. rewrite length_app. cbn [length]. lia.
Qed.

Lemma calls_step (log0 : World) (initial_state : State)
    (forced_trg_ids : option (list nat)) (len : nat) (a c : list hyp) :
  hoare (Inv_calls log0 len a c)
        (beam_step initial_state forced_trg_ids len a c)
        (fun st log => Inv_calls log0 (S len) (snd st) (fst st) log)
        (calls_bounded log0 (call_bound (S len))).
Proof.
  eapply hoare_conseq;
    [apply (@hoare_beam_step initial_state forced_trg_ids len a c
              (Inv_calls_expand log0 len)
              (fun st log => Inv_calls log0 (S len) (snd st) (fst st) log)
              (calls_bounded log0 (call_bound (S len)))) | | |]; auto.
  - intros x rest acc. apply calls_expand.
  - intros c' ns log (calls & -> & Hlen). unfold Inv_calls. cbn [fst snd].
    split; [rewrite length_firstn; apply Nat.le_min_l|].
    exists calls. split; [reflexivity|]. cbn [length] in Hlen. lia.
  - intros log (Ha & calls & -> & Hlen). exists calls.
    split; [reflexivity|]. destruct len as [|n]; simpl in *; lia.
Qed.

Lemma calls_loop (log0 : World) (initial_state : State)
    (forced_trg_ids : option (list nat)) :
  hoare (fun log => log = log0)
        (beam_loop initial_state forced_trg_ids max_len 0 [Root] [])
        (fun _ log => exists calls,
             log = log0 ++ calls /\ length calls <= call_bound max_len)
        (calls_bounded log0 (call_bound max_len)).
Proof.
  eapply hoare_conseq;
    [apply (@hoare_beam_loop initial_state forced_trg_ids (Inv_calls log0)
              (calls_bounded log0 (call_bound max_len)) max_len)
       with (len := 0) (a := [Root]) (c := []) | | |]; auto.
  - intros len a c _ Hlen.
    eapply hoare_conseq;
      [apply (@calls_step log0 initial_state forced_trg_ids len a c) | | |];
      auto.
    intros e log (calls & -> & Hc). exists calls. split; [reflexivity|].
    assert (call_bound (S len) <= call_bound max_len)
      by (apply call_bound_mono; lia).
    lia.
  - intros log ->. split; [simpl; lia|]. exists [].
    rewrite app_nil_r. split; [reflexivity | simpl; lia].
  - cbv beta. intros st log (len' & Hl & (_ & calls & -> & Hc) & _).
    exists calls. split; [reflexivity|].
    assert (call_bound len' <= call_bound max_len)
      by (apply call_bound_mono; lia).
    lia.
Qed.

(** X11.  In every call of [generate_output], whether it returns or raises,
    the translator is called at most [1 + (max_len - 1) * beam_size] times,
    and not at all when [max_len] is 0: the log of the calls is the log at
    entry followed by at most that many calls. *)
Theorem beam_search_bounds_the_translator_calls
    (initial_state : State) (src_length : option nat)
    (forced_trg_ids : option (list nat)) (log : World) :
  exists calls,
    snd (generate_output initial_state src_length forced_trg_ids log)
    = log ++ calls
    /\ length calls <= 1 + (max_len - 1) * beam_size
    /\ (max_len = 0 -> calls = []).
Proof.
  assert (Hb : forall calls : World,
             length calls <= call_bound max_len ->
             length calls <= 1 + (max_len - 1) * beam_size
             /\ (max_len = 0 -> calls = [])).
  { intros calls Hc. destruct max_len as [|n]; simpl in *.
    - split; [lia|]. intros _. destruct calls; [reflexivity|simpl in Hc; lia].
    - rewrite Nat.sub_0_r. split; [lia | discriminate]. }
  rewrite beam_generate_output_eq.
  destruct (negb (is_None forced_trg_ids || (beam_size =? 1))).
  { exists []. simpl. rewrite app_nil_r. split; [reflexivity|].
    split; [apply Nat.le_0_l | reflexivity]. }
  assert (Hloop := @calls_loop log initial_state forced_trg_ids log eq_refl).
  destruct (beam_loop initial_state forced_trg_ids max_len 0 [Root] [] log)
    as [[[c a]|e] log'] eqn:El.
  - bind_ok El. rewrite finalize_eq. destruct Hloop as (calls & -> & Hc).
    exists calls.
    assert (Hs : forall r : result (list BeamOutput),
               snd (r, log ++ calls) = log ++ calls) by reflexivity.
    split; [|now apply Hb].
    destruct one_best; [|reflexivity].
    destruct (ranked src_length c a); reflexivity.
  - bind_raise El. destruct Hloop as (calls & -> & Hc). exists calls.
    split; [reflexivity | now apply Hb].
Qed.

(** ** [BeamSearch]: the scores of the outputs *)

(** Where the translator is called for the children of a hypothesis: with
    its word and the state of its output; for the root, with no word and the
    initial state. *)
Definition exit_of (initial_state : State) (h : hyp) : option nat * State :=
  (h_word h,
   match h_output h with
   | Some o => t_state o
   | None => initial_state
   end).

(** A hypothesis is a trace of the translator: every output on its path is
    what the translator returned after the parent, and [unnormalized] adds the
    log-probability of the word to the parent's. *)
Fixpoint genuine (initial_state : State) (h : hyp) : Prop :=
  match h with
  | Root => True
  | Child _ o p w u =>
      genuine initial_state p
      /\ o = output_one_step (fst (exit_of initial_state p))
                             (snd (exit_of initial_state p))
      /\ exists x, nth_error (t_logsoftmax o) w = Some x
                   /\ u = (x + h_unnormalized p)%Z
  end.

(** The translator run again along a word sequence, from the initial state:
    the word and the state reached, and the sum of the log-probabilities of
    the words. *)
Definition replay_step (st : option (option nat * State * Z)) (w : nat)
  : option (option nat * State * Z) :=
  match st with
  | None => None
  | Some (prev_word, prev_state, total) =>
      let o := output_one_step prev_word prev_state in
      match nth_error (t_logsoftmax o) w with
      | Some x => Some (Some w, t_state o, (x + total)%Z)
      | None => None
      end
  end.

Definition sequence_log_probability (initial_state : State) (ws : list nat)
  : option Z :=
  match fold_left replay_step ws (Some (None, initial_state, 0%Z)) with
  | Some (_, _, total) => Some total
  | None => None
  end.

Lemma genuine_replay (initial_state : State) (h : hyp) :
  genuine initial_state h ->
  fold_left replay_step (words h) (Some (None, initial_state, 0%Z))
  = Some (fst (exit_of initial_state h), snd (exit_of initial_state h),
          h_unnormalized h).
Proof.
  induction h as [|s o p IH w u]; intros Hg.
  - reflexivity.
  - destruct Hg as (Hp & Ho & x & Hx & Hu).
    rewrite words_Child, fold_left_app, (IH Hp). cbn [fold_left replay_step].
    cbv zeta. rewrite <- Ho, Hx, Hu. reflexivity.
Qed.

Definition Inv_gen (initial_state : State) (len : nat) (a c : list hyp)
    (_ : World) : Prop :=
  Forall (fun h => depth h = len /\ genuine initial_state h) a
  /\ Forall (genuine initial_state) c.

Definition Inv_gen_expand (initial_state : State) (len : nat)
    (rest : list hyp) (acc : list hyp * list hyp) (_ : World) : Prop :=
  Forall (fun h => depth h = len /\ genuine initial_state h) rest
  /\ Forall (genuine initial_state) (fst acc)
  /\ Forall (fun h => depth h = S len /\ genuine initial_state h) (snd acc).

Definition whatever (_ : exn) (_ : World) : Prop := True.

Lemma gen_expand (initial_state : State)
    (forced_trg_ids : option (list nat)) (len : nat) (x : hyp)
    (rest : list hyp) (acc : list hyp * list hyp) :
  hoare (Inv_gen_expand initial_state len (x :: rest) acc)
        (expand_hyp initial_state forced_trg_ids len acc x)
        (Inv_gen_expand initial_state len rest) whatever.
Proof.
  intros log (Hrest & Hc & Hns). destruct acc as [c0 ns0].
  cbn [fst snd] in Hc, Hns.
  inversion Hrest as [|? ? [Hd Hg] Hrest']; subst.
  assert (H := expand_hyp_cases initial_state forced_trg_ids (depth x)
                                c0 ns0 x log).
  destruct (expand_hyp initial_state forced_trg_ids (depth x) (c0, ns0) x log)
    as [[[c' ns']|e] log']; [|exact I].
  destruct H as [(_ & _ & -> & -> & _)
                |(pw & ps & top & Hprev & _ & _ & Hin & -> & -> & _)].
  - split; [assumption|]. split; [|assumption]. cbn [fst].
    apply Forall_app. split; [assumption|]. constructor; [assumption|constructor].
  - cbv zeta in *. split; [assumption|]. split; [assumption|]. cbn [snd].
    apply Forall_app. split; [assumption|].
    apply Forall_forall. intros h Hh. apply in_map_iff in Hh.
    destruct Hh as (w & <- & Hw). split; [reflexivity|].
    rewrite Forall_forall in Hin. specialize (Hin w Hw).
    unfold child_of. cbn [genuine]. split; [assumption|].
    assert (Hexit : exit_of initial_state x = (pw, ps)).
    { unfold prev_of in Hprev. unfold exit_of.
      destruct (0 <? depth x) eqn:Hl.
      - destruct Hprev as (-> & o & Ho & ->). now rewrite Ho.
      - apply Nat.ltb_ge in Hl. destruct Hprev as (-> & ->).
        destruct x; [reflexivity | simpl in Hl; lia]. }
    rewrite Hexit. cbn [fst snd]. split; [reflexivity|].
    eexists. split; [|reflexivity]. now apply nth_error_nth'.
Qed.

Lemma gen_loop (initial_state : State)
    (forced_trg_ids : option (list nat)) :
  hoare (fun _ => True)
        (beam_loop initial_state forced_trg_ids max_len 0 [Root] [])
        (fun st _ => Forall (genuine initial_state) (fst st ++ snd st))
        whatever.
Proof.
  eapply hoare_conseq;
    [apply (@hoare_beam_loop initial_state forced_trg_ids
              (Inv_gen initial_state) whatever max_len)
       with (len := 0) (a := [Root]) (c := []) | | |]; auto.
  - intros len a c _ _.
    eapply hoare_conseq;
      [apply (@hoare_beam_step initial_state forced_trg_ids len a c
                (Inv_gen_expand initial_state len)
                (fun st log => Inv_gen initial_state (S len) (snd st) (fst st)
                                       log) whatever) | | |]; auto.
    + intros x rest acc. apply gen_expand.
    + intros c' ns log (_ & Hc' & Hns). cbn [fst snd] in *. split; [|assumption].
      cbn [snd]. apply Forall_forall. intros h Hh. apply firstn_incl in Hh.
      apply sorted_desc_In in Hh. rewrite Forall_forall in Hns. auto.
    + intros log (Ha & Hc). split; [assumption|]. split; [assumption|].
      constructor.
  - intros log _. split; repeat constructor.
  - cbv beta. intros st log (len' & _ & (Ha & Hc) & _).
    apply Forall_app. split; [assumption|].
    eapply Forall_impl; [|exact Ha]. cbv beta. tauto.
Qed.

(** X12.  In every call that returns, and for every output: the translator,
    run again from the initial state along the words of the output, gives a
    log-probability to each of them, and the unnormalized score of the output
    is their sum, unless that sum is 0: then the output carries its
    normalized score in its place. *)
Theorem beam_scores_add_the_log_probabilities_of_the_words
    (initial_state : State) (src_length : option nat)
    (forced_trg_ids : option (list nat)) (log : World) :
  match generate_output initial_state src_length forced_trg_ids log with
  | (Ok outs, _) =>
      Forall (fun o : BeamOutput =>
                exists ws hs total,
                  word_ids o = [ws] /\ score o = [hs]
                  /\ sequence_log_probability initial_state ws = Some total
                  /\ unnormalized hs
                     = (if (total =? 0)%Z then normalized hs else total)) outs
  | (Raise _, _) => True
  end.
Proof.
  rewrite beam_generate_output_eq.
  destruct (negb (is_None forced_trg_ids || (beam_size =? 1))); [exact I|].
  assert (Hloop := @gen_loop initial_state forced_trg_ids log I).
  destruct (beam_loop initial_state forced_trg_ids max_len 0 [Root] [] log)
    as [[[c a]|e] log'] eqn:El.
  2:{ bind_raise El. exact I. }
  bind_ok El. rewrite finalize_eq. cbn [fst snd] in Hloop.
  assert (Hout : forall p, In p (ranked src_length c a) ->
            exists ws hs total,
              word_ids (pack_out p) = [ws] /\ score (pack_out p) = [hs]
              /\ sequence_log_probability initial_state ws = Some total
              /\ unnormalized hs
                 = (if (total =? 0)%Z then normalized hs else total)).
  { intros [h s] Hp. unfold ranked in Hp.
    apply sorted_desc_In, in_combine_l in Hp.
    assert (Hh : In h (c ++ a))
      by (apply in_or_app; destruct (length c =? 0); auto).
    rewrite Forall_forall in Hloop. specialize (Hloop h Hh).
    exists (words h), (mkHypScore s (if (h_unnormalized h =? 0)%Z
                                     then s else h_unnormalized h)),
           (h_unnormalized h).
    split; [reflexivity|]. split; [reflexivity|]. split; [|reflexivity].
    unfold sequence_log_probability. now rewrite (@genuine_replay initial_state h Hloop). }
  destruct one_best.
  - destruct (ranked src_length c a) as [|p l] eqn:Er; [exact I|].
    constructor; [|constructor]. apply Hout. now left.
  - apply Forall_forall. intros o Ho. apply in_map_iff in Ho.
    destruct Ho as (p & <- & Hp). now apply Hout.
Qed.

(** ** [BeamSearch]: a search without steps *)

(** X13.  Without a forced target, a beam of size 0 or a [max_len] of 0
    leaves the loop before the first call of the translator; the root is
    reported, so the call returns one output without words, whose two scores
    are the score that the length normalization gives to the root. *)
Theorem beam_search_without_steps_returns_the_root
    (initial_state : State) (src_length : option nat) (log : World) (s : Z) :
  beam_size = 0 \/ max_len = 0 ->
  normalize_completed [Root] src_length = [s] ->
  generate_output initial_state src_length None log
  = (Ok [mkSearchOutput [[]] [[]] [mkHypScore s s] [] [] None], log).
Proof.
  intros Hzero Hnorm. rewrite beam_generate_output_eq. cbn [is_None orb negb].
  assert (Hloop : beam_loop initial_state None max_len 0 [Root] [] log
                  = (Ok ([], [Root]), log)).
  { destruct max_len as [|n]; [reflexivity|].
    destruct Hzero as [Hb|Hm]; [|discriminate].
    simpl. rewrite Hb. reflexivity. }
  bind_ok Hloop. rewrite finalize_eq.
  assert (Hr : ranked src_length [] [Root] = [(Root, s)]).
  { unfold ranked. simpl. rewrite Hnorm. reflexivity. }
  rewrite Hr. destruct one_best; reflexivity.
Qed.

(** ** [BeamSearch]: the outputs are different translations *)

Lemma NoDup_firstn (A : Type) (n : nat) (l : list A) :
  NoDup l -> NoDup (firstn n l).
Proof.
  intros H. rewrite <- (firstn_skipn n l) in H.
  now apply NoDup_app_remove_r in H.
Qed.

Lemma NoDup_slice_last (A : Type) (n : nat) (l : list A) :
  NoDup l -> NoDup (slice_last n l).
Proof.
  intros H. unfold slice_last. destruct (n =? 0); [exact H|].
  rewrite <- (firstn_skipn (length l - n) l) in H.
  now apply NoDup_app_remove_l in H.
Qed.

Lemma NoDup_map_combine (A B C : Type) (f : A -> C) (l : list A) :
  forall l' : list B,
    NoDup (map f l) -> NoDup (map (fun p => f (fst p)) (combine l l')).
Proof.
  induction l as [|x l IH]; intros [|y l'] H; simpl; try constructor.
  - inversion H as [|? ? Hx Hl]; subst. intros Hin. apply Hx.
    apply in_map_iff in Hin. destruct Hin as ([a b] & Hab & Hp).
    apply in_combine_l in Hp. simpl in Hab. rewrite <- Hab.
    now apply in_map.
  - inversion H; subst. now apply IH.
Qed.

Definition Inv_nd (len : nat) (a c : list hyp) (_ : World) : Prop :=
  Forall (fun h => depth h = len) a
  /\ Forall (fun h => depth h < len) c
  /\ NoDup (map words a) /\ NoDup (map words c).

Definition Inv_nd_expand (len : nat) (rest : list hyp)
    (acc : list hyp * list hyp) (_ : World) : Prop :=
  Forall (fun h => depth h = len) rest
  /\ NoDup (map words rest)
  /\ Forall (fun h => depth h <= len) (fst acc)
  /\ NoDup (map words (fst acc))
  /\ (forall h, In h (fst acc) -> depth h = len ->
        ~ In (words h) (map words rest))
  /\ Forall (fun h => depth h = S len) (snd acc)
  /\ NoDup (map words (snd acc))
  /\ (forall h x, In h (snd acc) -> In x rest ->
        removelast (words h) <> words x).

Section Distinct.

Hypothesis argpartition_perm :
  forall score kth,
    (- Z.of_nat (length score) <= kth < Z.of_nat (length score))%Z ->
    Permutation (argpartition score kth) (seq 0 (length score)).

Lemma top_of_NoDup (forced_trg_ids : option (list nat)) (len : nat)
    (score : list Z) (top : list nat) :
  top_of forced_trg_ids len score top -> NoDup top.
Proof.
  unfold top_of. destruct forced_trg_ids as [f|].
  - intros (w & _ & ->). repeat constructor. simpl. tauto.
  - intros ->. destruct (Nat.eqb_spec (length score) 0) as [Hlen|Hlen];
      [constructor|].
    apply NoDup_slice_last.
    eapply Permutation_NoDup;
      [symmetry; apply argpartition_perm; lia | apply seq_NoDup].
Qed.

Lemma nd_expand (initial_state : State)
    (forced_trg_ids : option (list nat)) (len : nat) (x : hyp)
    (rest : list hyp) (acc : list hyp * list hyp) :
  hoare (Inv_nd_expand len (x :: rest) acc)
        (expand_hyp initial_state forced_trg_ids len acc x)
        (Inv_nd_expand len rest) whatever.
Proof.
  intros log (Hrest & Hnr & Hc & Hnc & Hcr & Hns & Hnn & Hnp).
  destruct acc as [c0 ns0]. cbn [fst snd] in *.
  inversion Hrest as [|? ? Hd Hrest']; subst.
  inversion Hnr as [|? ? Hxr Hnr']; subst.
  assert (H := expand_hyp_cases initial_state forced_trg_ids (depth x)
                                c0 ns0 x log).
  destruct (expand_hyp initial_state forced_trg_ids (depth x) (c0, ns0) x log)
    as [[[c' ns']|e] log']; [|exact I].
  destruct H as [(_ & _ & -> & -> & _)
                |(pw & ps & top & _ & _ & Htop & _ & -> & -> & _)].
  - unfold Inv_nd_expand. cbn [fst snd].
    split; [assumption|]. split; [assumption|]. split.
    { apply Forall_app. split; [assumption|]. constructor; [lia|constructor]. }
    split.
    { rewrite map_app. apply NoDup_app; [assumption| |].
      - repeat constructor. simpl. tauto.
      - intros ws Hin [<-|[]]. apply in_map_iff in Hin.
        destruct Hin as (h & Hw & Hh).
        apply (Hcr h Hh).
        + rewrite <- !words_length. now rewrite Hw.
        + rewrite Hw. simpl. now left. }
    split.
    { intros h Hh Hdh Hin. apply in_app_or in Hh. destruct Hh as [Hh|[<-|[]]].
      - apply (Hcr h Hh Hdh). simpl. now right.
      - contradiction. }
    split; [assumption|]. split; [assumption|].
    intros h y Hh Hy. apply Hnp; [assumption | now right].
  - cbv zeta in *. unfold Inv_nd_expand. cbn [fst snd].
    set (out := output_one_step pw ps) in *.
    assert (Hwc : forall w, words (child_of (depth x) x out w)
                            = words x ++ [w])
      by (intros w; apply words_Child).
    split; [assumption|]. split; [assumption|]. split; [assumption|].
    split; [assumption|]. split.
    { intros h Hh Hdh Hin. apply (Hcr h Hh Hdh). simpl. now right. }
    split.
    { apply Forall_app. split; [assumption|].
      apply Forall_forall. intros h Hh. apply in_map_iff in Hh.
      destruct Hh as (w & <- & _). reflexivity. }
    split.
    { rewrite map_app. apply NoDup_app; [assumption| |].
      - rewrite map_map. apply NoDup_map_NoDup_ForallPairs.
        + intros w1 w2 _ _ Heq. rewrite !Hwc in Heq.
          apply app_inv_head in Heq. congruence.
        + eapply top_of_NoDup; eauto.
      - intros ws Hin Hin2. apply in_map_iff in Hin.
        destruct Hin as (h & Hw & Hh).
        apply in_map_iff in Hin2. destruct Hin2 as (h2 & Hw2 & Hh2).
        apply in_map_iff in Hh2. destruct Hh2 as (w & <- & _).
        rewrite Hwc in Hw2. apply (Hnp h x Hh); [now left|].
        rewrite Hw, <- Hw2. apply removelast_last. }
    intros h y Hh Hy. apply in_app_or in Hh. destruct Hh as [Hh|Hh].
    + apply Hnp; [assumption | now right].
    + apply in_map_iff in Hh. destruct Hh as (w & <- & _).
      rewrite Hwc, removelast_last. intros Heq. apply Hxr.
      rewrite Heq. now apply in_map.
Qed.

Lemma nd_loop (initial_state : State)
    (forced_trg_ids : option (list nat)) :
  hoare (fun _ => True)
        (beam_loop initial_state forced_trg_ids max_len 0 [Root] [])
        (fun st _ => NoDup (map words (fst st))
                     /\ NoDup (map words (snd st)))
        whatever.
Proof.
  eapply hoare_conseq;
    [apply (@hoare_beam_loop initial_state forced_trg_ids Inv_nd whatever
              max_len)
       with (len := 0) (a := [Root]) (c := []) | | |]; auto.
  - intros len a c _ _.
    eapply hoare_conseq;
      [apply (@hoare_beam_step initial_state forced_trg_ids len a c
                (Inv_nd_expand len)
                (fun st log => Inv_nd (S len) (snd st) (fst st) log)
                whatever) | | |]; auto.
    + intros x rest acc. apply nd_expand.
    + intros c' ns log (_ & _ & Hc' & Hnc & _ & Hns & Hnn & _).
      cbn [fst snd] in *. unfold Inv_nd. cbn [fst snd].
      split.
      { apply Forall_forall. intros h Hh. apply firstn_incl in Hh.
        apply sorted_desc_In in Hh. rewrite Forall_forall in Hns. auto. }
      split.
      { eapply Forall_impl; [|exact Hc']. cbv beta. intros; lia. }
      split; [|assumption].
      rewrite <- firstn_map. apply NoDup_firstn.
      eapply Permutation_NoDup; [|exact Hnn].
      apply Permutation_map. symmetry. apply sorted_desc_perm.
    + intros log (Ha & Hc & Hna & Hnc). unfold Inv_nd_expand. cbn [fst snd].
      split; [assumption|]. split; [assumption|]. split.
      { eapply Forall_impl; [|exact Hc]. cbv beta. intros; lia. }
      split; [assumption|]. split.
      { intros h Hh Hdh. rewrite Forall_forall in Hc. specialize (Hc h Hh).
        lia. }
      split; [constructor|]. split; [constructor|]. intros h y [].
  - intros log _. unfold Inv_nd. simpl.
    repeat split; repeat constructor; auto.
  - cbv beta. intros st log (len' & _ & (_ & _ & Hna & Hnc) & _). auto.
Qed.

(** X21.  Where numpy's [argpartition] returns a permutation of the indices,
    no list of words is returned twice: in every call that returns, the
    outputs have different word lists. *)
Theorem beam_search_returns_different_translations
    (initial_state : State) (src_length : option nat)
    (forced_trg_ids : option (list nat)) (log : World) :
  match generate_output initial_state src_length forced_trg_ids log with
  | (Ok outs, _) => NoDup (map (fun o : BeamOutput => word_ids o) outs)
  | (Raise _, _) => True
  end.
Proof.
  rewrite beam_generate_output_eq.
  destruct (negb (is_None forced_trg_ids || (beam_size =? 1))); [exact I|].
  assert (Hloop := @nd_loop initial_state forced_trg_ids log I).
  destruct (beam_loop initial_state forced_trg_ids max_len 0 [Root] [] log)
    as [[[c a]|e] log'] eqn:El.
  2:{ bind_raise El. exact I. }
  bind_ok El. rewrite finalize_eq. cbn [fst snd] in Hloop.
  destruct Hloop as (Hnc & Hna).
  assert (Hw : NoDup (map (fun p : hyp * Z => words (fst p))
                          (ranked src_length c a))).
  { unfold ranked. eapply Permutation_NoDup;
      [apply Permutation_map; symmetry; apply sorted_desc_perm|].
    apply NoDup_map_combine. destruct (length c =? 0); assumption. }
  assert (Hr : NoDup (map (fun o : BeamOutput => word_ids o)
                          (map pack_out (ranked src_length c a)))).
  { rewrite map_map. unfold pack_out. cbn [word_ids].
    rewrite <- (map_map (fun p : hyp * Z => words (fst p))
                        (fun ws : list nat => [ws])).
    apply NoDup_map_NoDup_ForallPairs; [|exact Hw].
    intros p q _ _ Heq. now inversion Heq. }
  destruct one_best.
  - destruct (ranked src_length c a) as [|p l]; [exact I|].
    repeat constructor. simpl. tauto.
  - exact Hr.
Qed.

End Distinct.

End Facts.

(** ** [BeamSearch]: the best output and all outputs *)

Section OneBest.

Context {State Attention : Type}.
Variable output_one_step
  : option nat -> State -> @TranslatorOutput State Attention.
Variable normalize_partial : Z -> Z -> nat -> Z.
Variable normalize_completed
  : list (@hypothesis State Attention) -> option nat -> list Z.
Variable argpartition : list Z -> Z -> list nat.
Variable beam_size : nat.
Variable max_len : nat.

Local Abbreviation search :=
  (generate_output output_one_step normalize_partial normalize_completed
                   argpartition beam_size max_len).

(** X14.  The two settings of [one_best] on the same input.  The search
    with [one_best] returns the first output of the search without it, and
    calls the translator in the same way; where the search without
    [one_best] raises, the other raises the same exception; where it returns
    no output at all, the other raises [IndexError]. *)
Theorem one_best_is_the_first_of_all_outputs
    (initial_state : State) (src_length : option nat)
    (forced_trg_ids : option (list nat)) (log : World) :
  match search false initial_state src_length forced_trg_ids log with
  | (Ok (o :: _), log') =>
      search true initial_state src_length forced_trg_ids log = (Ok [o], log')
  | (Ok [], log') =>
      search true initial_state src_length forced_trg_ids log
      = (Raise IndexError, log')
  | (Raise e, log') =>
      search true initial_state src_length forced_trg_ids log
      = (Raise e, log')
  end.
Proof.
  rewrite !beam_generate_output_eq.
  destruct (negb (is_None forced_trg_ids || (beam_size =? 1)));
    [reflexivity|].
  destruct (beam_loop output_one_step normalize_partial argpartition beam_size
                      initial_state forced_trg_ids max_len 0 [Root] [] log)
    as [[[c a]|e] log'] eqn:El.
  - bind_ok El. bind_ok El. rewrite !finalize_eq.
    destruct (ranked normalize_completed src_length c a); reflexivity.
  - bind_raise El. bind_raise El. reflexivity.
Qed.

End OneBest.

End BeamFacts.

(** ** [SamplingSearch] *)

Module SamplingFacts.
Import Batched BatchedFacts SamplingSearch.

Section Facts.
Context {State NobpState Attention Rng : Type}.
Local Abbreviation TranslatorOutput := (@TranslatorOutput State Attention).
Local Abbreviation World := (@World State Rng).
Local Abbreviation Locals := (@Locals State NobpState Attention).
Local Abbreviation SamplingOutput := (@SamplingOutput NobpState Attention).
Variable output_one_step : option (list nat) -> State -> TranslatorOutput.
Variable get_nobp_state : State -> NobpState.
Variable categorical_sample : list (list Z) -> Rng -> list nat * Rng.
Variable max_length : nat.
Variable sample_size : nat.

Local Abbreviation sample_step :=
  (sample_step output_one_step get_nobp_state categorical_sample).
Local Abbreviation sample_loop :=
  (sample_loop output_one_step get_nobp_state categorical_sample).
Local Abbreviation sample_one :=
  (sample_one output_one_step get_nobp_state categorical_sample max_length).
Local Abbreviation generate_output :=
  (generate_output output_one_step get_nobp_state categorical_sample
                   max_length sample_size).




Lemma sample_step_lengths (forced_trg_ids : option (list target))
    (len : nat) (v v' : Locals) (w w' : World) :
  sample_step forced_trg_ids len v w = (Ok v', w') ->
  length (v_logsofts v') = S (length (v_logsofts v))
  /\ length (v_states v') = S (length (v_states v)).
Proof.
  unfold SamplingSearch.sample_step. intros H.
  apply bind_inv in H. destruct H as (out & w1 & _ & H).
  apply bind_inv in H. destruct H as (sample0 & w2 & _ & H).
  apply bind_inv in H. destruct H as ([[sample logsoft] masks] & w3 & _ & H).
  inversion H; subst. simpl. rewrite !length_app. simpl. lia.
Qed.

Lemma sample_loop_lengths (forced_trg_ids : option (list target))
    (steps : nat) :
  forall (len : nat) (v v' : Locals) (w w' : World),
    sample_loop forced_trg_ids steps len v w = (Ok v', w') ->
    length (v_logsofts v) = length (v_states v) ->
    length (v_logsofts v') = length (v_states v').
Proof.
  induction steps as [|steps IH]; intros len v v' w w' H Hl; simpl in H.
  - inversion H; subst. exact Hl.
  - apply bind_inv in H. destruct H as (v1 & w1 & Hstep & H).
    apply sample_step_lengths in Hstep. destruct Hstep as (H1 & H2).
    destruct (all_done (v_done v1)).
    + inversion H; subst. lia.
    + eapply IH; [exact H | lia].
Qed.

(** An output of [sample_one] has at least one log-probability, one state
    and one mask. *)
Lemma sampling_fields_populated (initial_state : State)
    (forced_trg_ids : option (list target)) (w : World) :
  match sample_one initial_state forced_trg_ids w with
  | (Ok o, _) => logsoftmaxes o <> [] /\ state o <> [] /\ mask o <> []
  | (Raise _, _) => True
  end.
Proof.
  destruct (sample_one initial_state forced_trg_ids w) as [[o|e] w'] eqn:E;
    [|exact I].
  unfold SamplingSearch.sample_one in E.
  apply bind_inv in E. destruct E as (v & w1 & Hloop & E).
  apply sample_loop_lengths in Hloop; [|reflexivity].
  apply bind_inv in E. destruct E as (scores & w2 & Hesum & E).
  apply bind_inv in E. destruct E as (ones & w3 & _ & E).
  apply bind_inv in E. destruct E as (samples & w4 & _ & E).
  apply bind_inv in E. destruct E as (hs & w5 & _ & E).
  inversion E; subst. cbn [logsoftmaxes state mask].
  assert (Hne : v_logsofts v <> []).
  { unfold esum in Hesum. destruct (v_logsofts v); discriminate. }
  repeat split; try discriminate; try assumption.
  intros Hnil. rewrite Hnil in Hloop. simpl in Hloop.
  apply length_zero_iff_nil in Hloop. contradiction.
Qed.

(** Every output of [generate_output] has at least one log-probability, one
    state and one mask. *)
Lemma sampling_outputs_populated (initial_state : State)
    (src_length : option nat) (forced_trg_ids : option (list target))
    (w : World) :
  match generate_output initial_state src_length forced_trg_ids w with
  | (Ok outs, _) =>
      Forall (fun o : SamplingOutput =>
                logsoftmaxes o <> [] /\ state o <> [] /\ mask o <> []) outs
  | (Raise _, _) => True
  end.
Proof.
  destruct (generate_output initial_state src_length forced_trg_ids w)
    as [[outs|e] w'] eqn:E; [|exact I].
  unfold SamplingSearch.generate_output in E.
  assert (HF : Forall2 (fun (_ : nat) (o : SamplingOutput) =>
                          logsoftmaxes o <> [] /\ state o <> []
                          /\ mask o <> []) (seq 0 sample_size) outs).
  { eapply mapM_ok_Forall2; [|exact E]. cbv beta.
    intros k w0 o w0' Hk.
    destruct ((k =? 0) && is_Some forced_trg_ids).
    - assert (H := sampling_fields_populated initial_state forced_trg_ids w0).
      rewrite Hk in H. exact H.
    - assert (H := sampling_fields_populated initial_state None w0).
      rewrite Hk in H. exact H. }
  clear E. induction HF; constructor; auto.
Qed.

Section Progress.

Variable B : nat.
Variable V : nat.

(** Every output of the translator has [B] distributions over [V] words, the
    end-of-sequence word is one of them, and the sampler draws one word of
    the vocabulary per batch element. *)
Hypothesis translator_batch :
  forall current_words current_state,
    length (t_logsoftmax (output_one_step current_words current_state)) = B.
Hypothesis translator_vocabulary :
  forall current_words current_state,
    Forall (fun d => length d = V)
           (t_logsoftmax (output_one_step current_words current_state)).
Hypothesis ES_in_vocabulary : Vocab.ES < V.
Hypothesis sampler_in_range :
  forall logsoftmax rng,
    length (fst (categorical_sample logsoftmax rng)) = length logsoftmax
    /\ Forall (fun x => x < V) (fst (categorical_sample logsoftmax rng)).

(** A forced target is a batch: one sentence per batch element, made of
    words of the vocabulary. *)
Definition in_vocabulary (trg : target) : Prop :=
  match trg with
  | Sentence words => Forall (fun x => x < V) words
  | Word _ => False
  end.

Definition admissible (forced_trg_ids : option (list target)) : Prop :=
  match forced_trg_ids with
  | None => True
  | Some trgs => length trgs = B /\ Forall in_vocabulary trgs
  end.

(** After at least one step [done] describes the last sample, and samples
    and scores have [B] entries each. *)
Definition Shape (v : Locals) : Prop :=
  match v_done v with
  | None => v_samples v = [] /\ v_logsofts v = []
  | Some d =>
      exists ws w,
        v_samples v = ws ++ [w] /\ d = done_of w
        /\ v_current_words v = Some w
        /\ v_logsofts v <> []
        /\ Forall (fun c => length c = B) (v_samples v)
        /\ Forall (fun s => length s = B) (v_logsofts v)
  end.





Definition initial_locals (initial_state : State) : Locals :=
  mkLocals None initial_state None [] [] [] [] [].





End Progress.

(** A forced target that holds a word id where a sentence is expected, as
    when the words of one sentence are passed: the first step calls the
    translator and raises [TypeError] at [len(forced_trg)]. *)
Lemma forced_words_of_flat_target (len : nat) (trgs : list target) (x : nat)
    (w : World) :
  In (Word x) trgs -> mapM (forced_word len) trgs w = (Raise TypeError, w).
Proof.
  induction trgs as [|trg trgs IH]; intros Hin; [contradiction|].
  cbn [mapM]. destruct trg as [ws|y].
  - assert (Hw : forced_word len (Sentence ws) w
                 = (Ok (nth len ws Vocab.ES), w)).
    { unfold forced_word, getitem.
      destruct (Nat.ltb_spec len (length ws)) as [Hl|Hl].
      - destruct (nth_error ws len) as [y|] eqn:E.
        + now rewrite (nth_error_nth _ _ Vocab.ES E).
        + apply nth_error_None in E. lia.
      - now rewrite nth_overflow. }
    bind_ok Hw. destruct Hin as [Hin|Hin]; [discriminate|].
    rewrite bind_Raise with (e := TypeError) (s1 := w) by auto.
    reflexivity.
  - reflexivity.
Qed.

Lemma flat_target_raises (initial_state : State) (trgs : list target)
    (x : nat) (w : World) :
  1 <= max_length -> In (Word x) trgs ->
  sample_one initial_state (Some trgs) w
  = (Raise TypeError, (fst w ++ [(None, initial_state)], snd w)).
Proof.
  intros Hlen Hin. unfold SamplingSearch.sample_one.
  destruct max_length as [|n]; [lia|].
  cbn [SamplingSearch.sample_loop].
  set (w1 := (fst w ++ [(None, initial_state)], snd w)).
  rewrite bind_Raise with (e := TypeError) (s1 := w1); [reflexivity|].
  rewrite bind_Raise with (e := TypeError) (s1 := w1); [reflexivity|].
  unfold SamplingSearch.sample_step. cbn [v_current_words v_current_state].
  rewrite bind_Ok with (a := output_one_step None initial_state) (s1 := w1)
    by reflexivity.
  cbv beta.
  rewrite bind_Raise with (e := TypeError) (s1 := w1); [reflexivity|].
  now apply forced_words_of_flat_target with (x := x).
Qed.


(** ** [SamplingSearch]: the forced sample *)

Lemma forced_word_value (len : nat) (trg : list nat) (w w' : World) (x : nat) :
  forced_word len (Sentence trg) w = (Ok x, w') ->
  w' = w /\ x = nth len trg Vocab.ES.
Proof.
  unfold forced_word, getitem. destruct (Nat.ltb_spec len (length trg)).
  - destruct (nth_error trg len) as [y|] eqn:E; simpl; intros Hx;
      inversion Hx; subst. split; [reflexivity|].
    symmetry. now apply nth_error_nth.
  - simpl. intros Hx. inversion Hx; subst. split; [reflexivity|].
    symmetry. now apply nth_overflow.
Qed.

(** What a step with a forced target appends to [samples]. *)
Lemma sample_step_forced (trgs : list (list nat)) (len : nat)
    (v v' : Locals) (w w' : World) :
  sample_step (Some (map Sentence trgs)) len v w = (Ok v', w') ->
  exists sample0 sample,
    Forall2 (fun trg x => x = nth len trg Vocab.ES) trgs sample0
    /\ v_samples v' = v_samples v ++ [sample]
    /\ v_done v' = Some (done_of sample)
    /\ length sample = length trgs
    /\ match v_done v with
       | None => sample = sample0
       | Some d =>
           Forall2 (fun (b : bool) x => b = true -> x = Vocab.ES) d sample
           /\ (forall j x, nth_error sample j = Some x ->
                 nth j d true = false -> nth_error sample0 j = Some x)
       end.
Proof.
  unfold SamplingSearch.sample_step. intros H.
  apply bind_inv in H. destruct H as (out & w1 & _ & H).
  apply bind_inv in H. destruct H as (sample0 & w2 & Hf & H).
  apply bind_inv in H. destruct H as ([[sample logsoft] masks] & w3 & Hst & H).
  inversion H; subst v' w'. cbn [v_samples v_done].
  assert (HF : Forall2 (fun trg x => x = nth len trg Vocab.ES) trgs sample0).
  { apply Forall2_map_left with (f := Sentence).
    eapply mapM_ok_Forall2; [|exact Hf]. cbv beta.
    intros t w0 x w0' Hx trg ->. now apply forced_word_value in Hx. }
  assert (Hl0 := Forall2_length HF).
  exists sample0, sample. split; [exact HF|]. split; [reflexivity|].
  split; [reflexivity|].
  destruct (v_done v) as [d|].
  - apply bind_inv in Hst. destruct Hst as (sample' & w4 & Hm & Hst).
    apply bind_inv in Hst. destruct Hst as (sc0 & w5 & Hp & Hst).
    apply bind_inv in Hst. destruct Hst as (sc & w6 & Hc & Hst).
    inversion Hst; subst.
    destruct (mask_words_ok _ _ _ _ Hm) as (_ & HFm & Hn).
    destruct (pick_batch_ok _ _ _ Hp) as (_ & Hl1 & _).
    destruct (cmult_ok _ _ _ Hc) as (_ & Hl2 & _).
    apply Forall2_length in HFm as Hl3.
    split; [lia|]. split; [exact HFm|]. intros j x Hx Hd.
    specialize (Hn j x Hx Hd). exact Hn.
  - apply bind_inv in Hst. destruct Hst as (sc & w4 & _ & Hst).
    inversion Hst; subst. split; [lia | reflexivity].
Qed.

(** The columns follow the targets: the word of element [i] at step [k] is
    word [k] of target [i] cut after its first end-of-sequence word, and the
    end-of-sequence word where the cut target has no word [k]. *)
Definition Follows (trgs : list (list nat)) (v : Locals) : Prop :=
  (forall k col, nth_error (v_samples v) k = Some col ->
     Forall2 (fun trg x => x = nth k (until_ES trg) Vocab.ES) trgs col)
  /\ match v_done v with
     | None => v_samples v = []
     | Some d => exists cols c, v_samples v = cols ++ [c] /\ d = done_of c
     end.

Lemma step_keeps_Follows (trgs : list (list nat)) (v v' : Locals)
    (w w' : World) :
  sample_step (Some (map Sentence trgs)) (length (v_samples v)) v w = (Ok v', w') ->
  Follows trgs v -> Follows trgs v'.
Proof.
  intros Hstep (Hcols & Hlast).
  destruct (sample_step_forced _ _ _ _ Hstep)
    as (sample0 & sample & HF0 & Hs & Hd & Hlen & Hcase).
  split.
  2:{ rewrite Hd. exists (v_samples v), sample. auto. }
  intros k col Hk. rewrite Hs in Hk. apply nth_error_snoc in Hk.
  destruct Hk as [(_ & Hk)|(-> & ->)]; [now apply Hcols|].
  apply Forall2_from_nth; [lia|].
  intros i trg x Htrg Hx.
  destruct (Forall2_nth_error _ HF0 Htrg) as (x0 & Hx0 & Hv0).
  destruct (v_done v) as [d|].
  - destruct Hlast as (cols & c & Hv & ->). destruct Hcase as (HFm & Hn).
    rewrite Hv in *. rewrite length_app in *. cbn [length] in *.
    replace (length cols + 1) with (S (length cols)) in * by lia.
    assert (Hprev := Hcols (length cols) c (nth_error_snoc_last cols c)).
    assert (Hlc : length c = length trgs)
      by (apply Forall2_length in Hprev; lia).
    assert (Hi : i < length c)
      by (rewrite Hlc; apply nth_error_Some; congruence).
    destruct (Forall2_nth_error _ Hprev Htrg) as (p & Hp & Hpv).
    destruct (Nat.eq_dec p Vocab.ES) as [Hes|Hes].
    + assert (Hdi : nth_error (done_of c) i = Some true).
      { unfold done_of. rewrite nth_error_map, Hp. simpl.
        now rewrite Hes, Nat.eqb_refl. }
      destruct (Forall2_nth_error _ HFm Hdi) as (x' & Hx' & Hes').
      rewrite Hx in Hx'. inversion Hx'; subst x'. rewrite (Hes' eq_refl).
      symmetry. apply until_ES_after_end. congruence.
    + assert (Hdi : nth i (done_of c) true = false).
      { unfold done_of. rewrite nth_map_in with (d0 := 0) by lia.
        rewrite (nth_error_nth _ _ 0 Hp). now apply Nat.eqb_neq. }
      specialize (Hn i x Hx Hdi). rewrite Hx0 in Hn.
      assert (Heq : x0 = x) by congruence. rewrite <- Heq, Hv0.
      symmetry. apply until_ES_before_end. congruence.
  - subst sample. rewrite Hlast in *. cbn [length] in *.
    assert (Heq : x0 = x) by congruence. rewrite <- Heq, Hv0.
    symmetry. apply until_ES_head.
Qed.

Lemma sample_loop_Follows (trgs : list (list nat)) (steps : nat) :
  forall (v v' : Locals) (w w' : World),
    sample_loop (Some (map Sentence trgs)) steps (length (v_samples v)) v w = (Ok v', w') ->
    Follows trgs v ->
    Follows trgs v'
    /\ length (v_samples v') <= length (v_samples v) + steps.
Proof.
  induction steps as [|steps IH]; intros v v' w w' H Hf; simpl in H.
  - inversion H; subst. split; [exact Hf | lia].
  - apply bind_inv in H. destruct H as (v1 & w1 & Hstep & H).
    assert (Hf1 := @step_keeps_Follows trgs v v1 w w1 Hstep Hf).
    destruct (sample_step_forced _ _ _ _ Hstep)
      as (sample0 & sample & _ & Hs & _).
    assert (Hl : length (v_samples v1) = S (length (v_samples v)))
      by (rewrite Hs, length_app; simpl; lia).
    destruct (all_done (v_done v1)).
    + inversion H; subst. split; [exact Hf1 | lia].
    + rewrite <- Hl in H. destruct (IH v1 v' w1 w' H Hf1) as (Hf' & Hlen).
      split; [exact Hf' | lia].
Qed.

(** X18.  The forced sample.  Whenever [sample_one] returns with a forced
    batch of targets, the output has one row of words per target and at most
    [max_length] words per row, and the row follows its target: word [k] is
    word [k] of the target up to and including its first end-of-sequence
    word, and the end-of-sequence word from there on, also where the target
    has ended without one. *)
Theorem forced_sample_follows_the_padded_targets
    (initial_state : State) (trgs : list (list nat)) (w : World) :
  match sample_one initial_state (Some (map Sentence trgs)) w with
  | (Ok o, _) =>
      Forall2 (fun trg row =>
                 length row <= max_length
                 /\ forall k x, nth_error row k = Some x ->
                                x = nth k (until_ES trg) Vocab.ES)
              trgs (word_ids o)
  | (Raise _, _) => True
  end.
Proof.
  destruct (sample_one initial_state (Some (map Sentence trgs)) w) as [[o|e] w'] eqn:E;
    [|exact I].
  unfold SamplingSearch.sample_one in E.
  apply bind_inv in E. destruct E as (v & w1 & Hloop & E).
  apply bind_inv in E. destruct E as (scores & w2 & _ & E).
  apply bind_inv in E. destruct E as (ones & w3 & _ & E).
  apply bind_inv in E. destruct E as (samples & w4 & Hstack & E).
  apply bind_inv in E. destruct E as (hs & w5 & _ & E).
  inversion E; subst o w'. cbn [word_ids].
  set (v0 := mkLocals _ _ _ _ _ _ _ _) in Hloop.
  assert (Hf0 : Follows trgs v0).
  { split; [|reflexivity]. intros [|k] col Hk; discriminate. }
  assert (HL := @sample_loop_Follows trgs max_length v0 v w w1).
  cbn [v_samples length v0] in HL.
  destruct (HL Hloop Hf0) as ((Hcols & _) & Hlen). clear HL.
  unfold stack_axis1 in Hstack.
  destruct (v_samples v) as [|c0 cs] eqn:Ev; [discriminate|].
  destruct (forallb (fun c => length c =? length c0) (c0 :: cs)) eqn:Hall;
    [|discriminate].
  inversion Hstack; subst samples.
  assert (Hc0 : length c0 = length trgs).
  { specialize (Hcols 0 c0 eq_refl). apply Forall2_length in Hcols. lia. }
  apply Forall2_from_nth.
  { rewrite length_map, length_seq. lia. }
  intros i trg row Htrg Hrow.
  assert (Hi : i < length trgs) by (apply nth_error_Some; congruence).
  rewrite nth_error_map in Hrow.
  rewrite nth_error_nth' with (d := 0) in Hrow
    by (rewrite length_seq; lia).
  rewrite seq_nth in Hrow by lia. simpl in Hrow.
  inversion Hrow; subst row. split.
  { cbn [length]. rewrite length_map. simpl in Hlen. lia. }
  intros k x Hx.
  change (nth i c0 0 :: map (fun c => nth i c 0) cs)
    with (map (fun c => nth i c 0) (c0 :: cs)) in Hx.
  rewrite nth_error_map in Hx.
  destruct (nth_error (c0 :: cs) k) as [col|] eqn:Ek; [|discriminate].
  simpl in Hx. inversion Hx; subst x.
  specialize (Hcols k col Ek).
  destruct (Forall2_nth_error _ Hcols Htrg) as (y & Hy & Hv).
  now rewrite (nth_error_nth _ _ 0 Hy).
Qed.

(** ** [SamplingSearch]: finished elements *)

(** What a step appends. *)
Lemma sample_step_inv (forced_trg_ids : option (list target)) (len : nat)
    (v v' : Locals) (w w' : World) :
  sample_step forced_trg_ids len v w = (Ok v', w') ->
  exists sample logsoft,
    v_samples v' = v_samples v ++ [sample]
    /\ v_logsofts v' = v_logsofts v ++ [logsoft]
    /\ v_done v' = Some (done_of sample)
    /\ length logsoft = length sample
    /\ match v_done v with
       | None => v_masks v' = v_masks v
       | Some d =>
           v_masks v' = v_masks v ++ [mask_of d]
           /\ length d = length sample
           /\ Forall2 (fun (b : bool) x => b = true -> x = Vocab.ES) d sample
           /\ Forall2 (fun (b : bool) s => b = true -> s = 0%Z) d logsoft
       end.
Proof.
  unfold SamplingSearch.sample_step. intros H.
  apply bind_inv in H. destruct H as (out & w1 & _ & H).
  apply bind_inv in H. destruct H as (sample0 & w2 & _ & H).
  apply bind_inv in H. destruct H as ([[sample logsoft] masks] & w3 & Hst & H).
  inversion H; subst v' w'. cbn [v_samples v_logsofts v_done v_masks].
  exists sample, logsoft. split; [reflexivity|]. split; [reflexivity|].
  split; [reflexivity|].
  destruct (v_done v) as [d|].
  - apply bind_inv in Hst. destruct Hst as (sample' & w4 & Hm & Hst).
    apply bind_inv in Hst. destruct Hst as (sc0 & w5 & Hp & Hst).
    apply bind_inv in Hst. destruct Hst as (sc & w6 & Hc & Hst).
    inversion Hst; subst.
    destruct (mask_words_ok _ _ _ _ Hm) as (_ & HFm & _).
    destruct (cmult_ok _ _ _ Hc) as (_ & _ & HFc).
    apply Forall2_length in HFm as Hl1.
    apply Forall2_length in HFc as Hl2.
    split; [lia|]. split; [reflexivity|]. split; [exact Hl1|]. auto.
  - apply bind_inv in Hst. destruct Hst as (sc & w4 & Hp & Hst).
    inversion Hst; subst.
    destruct (pick_batch_ok _ _ _ Hp) as (_ & Hl & _). auto.
Qed.

(** What the loop of [sample_one] maintains: once an element has the
    end-of-sequence word, it keeps it, its mask is 0 and its log-probability
    is 0. *)
Definition Padded (v : Locals) : Prop :=
  length (v_logsofts v) = length (v_samples v)
  /\ match v_done v with
     | None => v_samples v = [] /\ v_masks v = []
     | Some d =>
         exists cols c,
           v_samples v = cols ++ [c] /\ d = done_of c
           /\ length (v_masks v) = length cols
     end
  /\ (exists n, Forall (fun c => length c = n) (v_samples v))
  /\ forall k m prev cur, k < m ->
       nth_error (v_samples v) k = Some prev ->
       nth_error (v_samples v) m = Some cur ->
       Forall2 (fun p c => p = Vocab.ES -> c = Vocab.ES) prev cur
       /\ (exists mk, nth_error (v_masks v) (m - 1) = Some mk
                      /\ Forall2 (fun p x => p = Vocab.ES -> x = 0%Z) prev mk)
       /\ (exists sc, nth_error (v_logsofts v) m = Some sc
                      /\ Forall2 (fun p x => p = Vocab.ES -> x = 0%Z) prev sc).

Lemma Forall2_ES_refl (c : list nat) :
  Forall2 (fun p x => p = Vocab.ES -> x = Vocab.ES) c c.
Proof. induction c; constructor; auto. Qed.

Lemma step_keeps_Padded (forced_trg_ids : option (list target))
    (len : nat) (v v' : Locals) (w w' : World) :
  sample_step forced_trg_ids len v w = (Ok v', w') ->
  Padded v -> Padded v'.
Proof.
  intros Hstep (Hll & Hlast & (n & Hn) & Hlater).
  destruct (sample_step_inv _ _ _ _ Hstep)
    as (s & sc & Hs & Hl & Hd & Hlsc & Hcase).
  destruct (v_done v) as [d|].
  - destruct Hlast as (cols & c & Hv & -> & Hlm).
    destruct Hcase as (Hm & Hld & HFs & HFsc).
    assert (Hc : nth_error (v_samples v) (length cols) = Some c)
      by (rewrite Hv; apply nth_error_snoc_last).
    assert (HL : length (v_samples v) = S (length cols))
      by (rewrite Hv, length_app; simpl; lia).
    assert (Hcn : length c = n).
    { rewrite Forall_forall in Hn. apply Hn. eapply nth_error_In; eauto. }
    split; [rewrite Hs, Hl, !length_app; simpl; lia|].
    split; [rewrite Hd; exists (v_samples v), s; rewrite Hm, length_app;
            simpl; repeat split; auto; lia|].
    split.
    { exists n. rewrite Hs. apply Forall_app. split; [exact Hn|].
      constructor; [|constructor]. unfold done_of in Hld.
      rewrite length_map in Hld. lia. }
    intros k m prev cur Hkm Hp Hcur. rewrite Hs in Hp, Hcur.
    apply nth_error_snoc in Hcur. destruct Hcur as [(Hm' & Hcur)|(-> & ->)].
    + rewrite nth_error_app1 in Hp by lia.
      destruct (Hlater k m prev cur Hkm Hp Hcur)
        as (H1 & (mk & Hmk & H2) & (sc' & Hsc' & H3)).
      split; [exact H1|]. split.
      * exists mk. split; [|exact H2]. rewrite Hm.
        rewrite nth_error_app1; [exact Hmk|].
        apply nth_error_Some. congruence.
      * exists sc'. split; [|exact H3]. rewrite Hl.
        rewrite nth_error_app1; [exact Hsc'|].
        apply nth_error_Some. congruence.
    + rewrite nth_error_app1 in Hp by lia.
      assert (Hpc : Forall2 (fun p x => p = Vocab.ES -> x = Vocab.ES) prev c).
      { destruct (Nat.eq_dec k (length cols)) as [->|Hne].
        - rewrite Hc in Hp. inversion Hp; subst. apply Forall2_ES_refl.
        - destruct (Hlater k (length cols) prev c) as (H1 & _);
            [lia | assumption | assumption | exact H1]. }
      split; [|split].
      * eapply GreedyFacts.Forall2_ES_trans; [exact Hpc|].
        now apply GreedyFacts.Forall2_done_of.
      * exists (mask_of (done_of c)). split.
        -- rewrite Hm, HL. simpl. rewrite Nat.sub_0_r, <- Hlm.
           apply nth_error_snoc_last.
        -- eapply GreedyFacts.Forall2_ES_trans; [exact Hpc|].
           apply GreedyFacts.Forall2_mask_of.
      * exists sc. split.
        -- rewrite Hl, <- Hll. apply nth_error_snoc_last.
        -- eapply GreedyFacts.Forall2_ES_trans; [exact Hpc|].
           now apply GreedyFacts.Forall2_done_of.
  - destruct Hlast as (Hnil & Hmnil). rewrite Hnil in *.
    assert (Hl0 : v_logsofts v = [])
      by (apply length_zero_iff_nil; exact Hll).
    split; [rewrite Hs, Hl, Hl0; reflexivity|].
    split; [rewrite Hd; exists [], s; rewrite Hcase, Hmnil; auto|].
    split; [exists (length s); rewrite Hs; repeat constructor|].
    intros k m prev cur Hkm Hp Hcur. rewrite Hs in Hp, Hcur. simpl in *.
    destruct m as [|m]; [lia|]. destruct m; discriminate.
Qed.

Lemma sample_loop_Padded (forced_trg_ids : option (list target))
    (steps : nat) :
  forall (len : nat) (v v' : Locals) (w w' : World),
    sample_loop forced_trg_ids steps len v w = (Ok v', w') ->
    Padded v -> Padded v'.
Proof.
  induction steps as [|steps IH]; intros len v v' w w' H Hp; simpl in H.
  - inversion H; subst. exact Hp.
  - apply bind_inv in H. destruct H as (v1 & w1 & Hstep & H).
    assert (Hp1 := @step_keeps_Padded forced_trg_ids len v v1 w w1 Hstep Hp).
    destruct (all_done (v_done v1)).
    + inversion H; subst. exact Hp1.
    + exact (IH (S len) v1 v' w1 w' H Hp1).
Qed.

Lemma sample_one_masks (initial_state : State)
    (forced_trg_ids : option (list target)) (w w' : World)
    (o : SamplingOutput) :
  sample_one initial_state forced_trg_ids w = (Ok o, w') ->
  forall i k m row,
    nth_error (word_ids o) i = Some row ->
    nth_error row k = Some Vocab.ES -> k < m -> m < length row ->
    nth_error row m = Some Vocab.ES
    /\ (exists mk, nth_error (mask o) m = Some mk
                   /\ nth_error mk i = Some 0%Z)
    /\ (exists sc, nth_error (logsoftmaxes o) m = Some sc
                   /\ nth_error sc i = Some 0%Z).
Proof.
  intros E. unfold SamplingSearch.sample_one in E.
  apply bind_inv in E. destruct E as (v & w1 & Hloop & E).
  apply bind_inv in E. destruct E as (scores & w2 & _ & E).
  apply bind_inv in E. destruct E as (ones & w3 & _ & E).
  apply bind_inv in E. destruct E as (samples & w4 & Hstack & E).
  apply bind_inv in E. destruct E as (hs & w5 & _ & E).
  inversion E; subst o w'. cbn [word_ids mask logsoftmaxes].
  set (v0 := mkLocals _ _ _ _ _ _ _ _) in Hloop.
  assert (Hp0 : Padded v0).
  { split; [reflexivity|]. split; [split; reflexivity|].
    split; [exists 0; constructor|].
    intros k m prev cur _ Hk. destruct k; discriminate. }
  destruct (@sample_loop_Padded forced_trg_ids max_length 0 v0 v w w1
              Hloop Hp0) as (_ & _ & (n & Hn) & Hlater).
  assert (Hsamples : samples = transpose (v_samples v)
                     /\ v_samples v <> []).
  { unfold stack_axis1 in Hstack.
    destruct (v_samples v) as [|c0 cs]; [discriminate|].
    destruct (forallb (fun c => length c =? length c0) (c0 :: cs));
      [|discriminate].
    inversion Hstack. split; [reflexivity | discriminate]. }
  destruct Hsamples as (-> & Hne).
  intros i k m row Hrow Hk Hkm Hmr.
  destruct (@transpose_nth _ _ _ _ Hne Hn Hrow) as (Hi & Hroweq).
  destruct (@transpose_entry _ _ _ _ _ _ Hne Hn Hrow Hk)
    as (prev & Hprev & Hpi).
  assert (Hmlen : m < length (v_samples v))
    by (rewrite Hroweq, length_map in Hmr; exact Hmr).
  destruct (nth_error (v_samples v) m) as [cur|] eqn:Ecur.
  2:{ apply nth_error_None in Ecur. lia. }
  destruct (Hlater k m prev cur Hkm Hprev Ecur)
    as (H1 & (mk & Hmk & H2) & (sc & Hsc & H3)).
  destruct (Forall2_nth_error _ H1 Hpi) as (c & Hc & Hces).
  destruct (Forall2_nth_error _ H2 Hpi) as (x & Hx & Hx0).
  destruct (Forall2_nth_error _ H3 Hpi) as (y & Hy & Hy0).
  rewrite (Hces eq_refl) in Hc. rewrite (Hx0 eq_refl) in Hx.
  rewrite (Hy0 eq_refl) in Hy.
  split; [|split].
  - eapply transpose_entry_inv; eauto.
  - exists mk. split; [|exact Hx].
    destruct m as [|m]; [lia|]. simpl.
    now replace (S m - 1) with m in Hmk by lia.
  - exists sc. auto.
Qed.

(** X19.  In every call of [generate_output] that returns, and in every
    sample: once a batch element has the end-of-sequence word at a step, at
    every later step its word is the end-of-sequence word, its mask is 0 and
    the log-probability recorded for it is 0. *)
Theorem sampling_masks_finished_elements
    (initial_state : State) (src_length : option nat)
    (forced_trg_ids : option (list target)) (w : World) :
  match generate_output initial_state src_length forced_trg_ids w with
  | (Ok outs, _) =>
      Forall (fun o : SamplingOutput =>
                forall i k m row,
                  nth_error (word_ids o) i = Some row ->
                  nth_error row k = Some Vocab.ES -> k < m ->
                  m < length row ->
                  nth_error row m = Some Vocab.ES
                  /\ (exists mk, nth_error (mask o) m = Some mk
                                 /\ nth_error mk i = Some 0%Z)
                  /\ (exists sc, nth_error (logsoftmaxes o) m = Some sc
                                 /\ nth_error sc i = Some 0%Z)) outs
  | (Raise _, _) => True
  end.
Proof.
  destruct (generate_output initial_state src_length forced_trg_ids w)
    as [[outs|e] w'] eqn:E; [|exact I].
  unfold SamplingSearch.generate_output in E.
  assert (HF : Forall2 (fun (_ : nat) (o : SamplingOutput) =>
                 forall i k m row,
                   nth_error (word_ids o) i = Some row ->
                   nth_error row k = Some Vocab.ES -> k < m ->
                   m < length row ->
                   nth_error row m = Some Vocab.ES
                   /\ (exists mk, nth_error (mask o) m = Some mk
                                  /\ nth_error mk i = Some 0%Z)
                   /\ (exists sc, nth_error (logsoftmaxes o) m = Some sc
                                  /\ nth_error sc i = Some 0%Z))
                (seq 0 sample_size) outs).
  { eapply mapM_ok_Forall2; [|exact E]. intros k w0 o w0' Ho.
    cbv beta in Ho. destruct ((k =? 0) && is_Some forced_trg_ids).
    - exact (@sample_one_masks initial_state forced_trg_ids w0 w0' o Ho).
    - exact (@sample_one_masks initial_state None w0 w0' o Ho). }
  clear E. induction HF; constructor; auto.
Qed.

End Facts.

End SamplingFacts.

(** ** Searches without steps *)

Module NoSteps.
Section NoSteps.

Context {State NobpState Attention Rng : Type}.
Variable output_one_step
  : option (list nat) -> State -> @Batched.TranslatorOutput State Attention.
Variable get_nobp_state : State -> NobpState.
Variable categorical_sample : list (list Z) -> Rng -> list nat * Rng.

(** X20.  With [max_len] 0 the greedy search raises [TypeError]: the loop
    is not entered, [done] is still [None] and [len(done)] fails.  With
    [max_length] 0 the sampling search raises in its first sample, for every
    sample size but 0.  Neither calls the translator or the sampler.  With a
    sample size of 0 the sampling search returns no output. *)
Theorem greedy_and_sampling_need_a_step
    (initial_state : State) (src_length : option nat)
    (forced_trg_ids : option GreedySearch.forced)
    (forced_batch : option (list SamplingSearch.target))
    (log : @Batched.World State) (w : @SamplingSearch.World State Rng)
    (max_length sample_size : nat) :
  GreedySearch.generate_output output_one_step get_nobp_state 0
    initial_state src_length forced_trg_ids log
  = (Raise TypeError, log)
  /\ (exists e,
        SamplingSearch.generate_output output_one_step get_nobp_state
          categorical_sample 0 (S sample_size) initial_state src_length
          forced_batch w
        = (Raise e, w))
  /\ SamplingSearch.generate_output output_one_step get_nobp_state
       categorical_sample max_length 0 initial_state src_length
       forced_batch w
     = (Ok [], w).
Proof.
  split; [reflexivity|]. split; [|reflexivity].
  exists DynetError. unfold SamplingSearch.generate_output.
  cbn [seq mapM]. destruct forced_batch; reflexivity.
Qed.

End NoSteps.
End NoSteps.

(** ** Facts about the instances *)

Module DemoFacts.
Import BeamSearch Demo.

Lemma argsort_perm (score : list Z) (kth : Z) :
  Permutation (argsort score kth) (seq 0 (length score)).
Proof.
  unfold argsort. rewrite <- Permutation_rev. apply sorted_desc_perm.
Qed.

Lemma running_scores_length (State Attention : Type)
    (hyps : list (@hypothesis State Attention)) (src_length : option nat) :
  length (running_scores hyps src_length) = length hyps.
Proof. apply length_map. Qed.

Lemma peaked_distribution_length (calls : nat) :
  length (peaked_distribution calls) = 5.
Proof. unfold peaked_distribution. destruct (calls =? 0); reflexivity. Qed.


End DemoFacts.

(** ** The properties at concrete inputs *)

Module Examples.
Import Demo DemoFacts.

(** Scenario 1 of the specification: greedy search returns [3, 1]. *)
Example greedy_scenario :
  exists o log', greedy 10 None [] = (Ok [o], log')
                 /\ word_ids o = [[3; 1]].
Proof. eexists _, _. split; reflexivity. Qed.

(** Scenario 2 of the specification: a beam of two returns the best
    hypothesis, [3, 1], with the sum of the two log-probabilities as raw
    score. *)
Example beam_scenario :
  exists o log', beam peaked 2 10 true None [] = (Ok [o], log')
                 /\ word_ids o = [[3; 1]]
                 /\ score o = [mkHypScore (-2)%Z (-1 + -1)%Z].
Proof. eexists _, _. repeat split; reflexivity. Qed.

(** A batch of two: the first sentence is finished after the second step;
    at the third step its word is the end-of-sequence word, its mask is 0
    and nothing is added to its score. *)
Example greedy_batch_of_two :
  exists o log',
    GreedySearch.generate_output staggered_batch (fun s : nat => s) 10 0 None
      None [] = (Ok [o], log')
    /\ word_ids o = [[3; 1; 1]; [3; 3; 1]]
    /\ mask o = [[1; 1]; [1; 1]; [0; 1]]%Z
    /\ score o = mkHypScore [-2; -3]%Z [-2; -3]%Z.
Proof. eexists _, _. repeat split; reflexivity. Qed.

(** C1, counterexample.  With a beam of two and [one_best = False], three
    outputs are returned: the loop stops only once the completed hypotheses
    are at least [beam_size], and all of them are returned. *)
Lemma C1_beam_of_two_returns_three :
  exists outs log',
    beam branching 2 4 false None [] = (Ok outs, log')
    /\ map (@word_ids _ _ _ _ _) outs = [[[1]]; [[2; 2; 1]]; [[2; 3; 1]]]
    /\ ~ (1 <= length outs <= 2).
Proof.
  eexists _, _. split; [reflexivity|]. split; [reflexivity|].
  simpl. lia.
Qed.

(** C1 at a concrete input: the branching translator, a beam of two, four
    steps, all completed hypotheses returned. *)
Lemma C1_witness :
  exists outs log',
    beam branching 2 4 false None [] = (Ok outs, log')
    /\ 1 <= length outs <= 2 * 2 - 1
    /\ (false = true -> length outs = 1)
    /\ Forall (fun o => exists ws, word_ids o = [ws] /\ length ws <= 4) outs
    /\ descending BeamFacts.out_score outs.
Proof.
  apply (@BeamFacts.C1_beam_output_count_length_order nat unit branching
           add_partial running_scores argsort 2 4 false 0 None None []).
  - lia.
  - intros prev_word prev_state. discriminate.
  - intros score kth _. apply argsort_perm.
  - intros hyps src. apply running_scores_length.
  - intros f Hf. discriminate.
Defined.



(** C3 at concrete inputs: the forced target [[3, 1]] with a beam of two and
    with a beam of one. *)
Lemma C3_witness :
  beam peaked 2 10 true (Some [3; 1]) [] = (Raise AssertionError, [])
  /\ fst (beam peaked 1 10 true (Some [3; 1]) []) <> Raise AssertionError.
Proof.
  split.
  - apply (proj1 (@BeamFacts.C3_forced_beam_precondition nat unit peaked
                    add_partial running_scores argsort 2 10 true 0 None [])).
    lia.
  - apply (proj2 (@BeamFacts.C3_forced_beam_precondition nat unit peaked
                    add_partial running_scores argsort 1 10 true 0 None [])).
    left. reflexivity.
Defined.

(** C4, counterexample.  A forced target with more than [max_len] words is
    cut at [max_len] words, before its end-of-sequence word. *)
Lemma C4_long_target_is_cut :
  exists o log',
    beam peaked 1 2 true (Some [3; 2; 2; 1]) [] = (Ok [o], log')
    /\ word_ids o = [[3; 2]]
    /\ word_ids o <> [BeamFacts.trim_es [3; 2; 2; 1]].
Proof.
  eexists _, _. split; [reflexivity|]. split; [reflexivity|]. discriminate.
Qed.

(** A forced target that ends before [max_len] without the end-of-sequence
    word makes the beam search and the greedy search raise. *)
Example short_target_raises :
  fst (beam peaked 1 10 true (Some [3; 2]) []) = Raise IndexError
  /\ fst (greedy 10 (Some (GreedySearch.Unbatched [3; 2])) [])
     = Raise IndexError.
Proof. split; reflexivity. Qed.

(** C4 at a concrete input: the forced target [[3, 1]] with ten steps. *)
Lemma C4_witness :
  exists o log',
    beam peaked 1 10 true (Some [3; 1]) [] = (Ok [o], log')
    /\ word_ids o = [BeamFacts.trim_es (firstn 10 [3; 1])].
Proof.
  apply (@BeamFacts.C4_forced_beam_reproduces_target nat unit peaked
           add_partial running_scores argsort 1 10 true 0 None [3; 1] []).
  - reflexivity.
  - intros prev_word prev_state w Hw. simpl.
    rewrite peaked_distribution_length.
    destruct Hw as [<-|[<-|[]]]; lia.
  - right. simpl. auto.
  - intros hyps src. apply running_scores_length.
Defined.

(** C5, the code at the failing input.  A forced target without the
    end-of-sequence word and with fewer than [max_len] words: after the step
    that uses the last forced word the call raises [IndexError], and no
    output is returned. *)
Lemma C5_greedy_short_target_raises :
  greedy 2 (Some (GreedySearch.Unbatched [3])) []
  = (Raise IndexError, [(None, 0); (Some [3], 1)]).
Proof. reflexivity. Qed.

(** [SamplingSearch.sample_one] guards the same access: the same target is
    continued with the end-of-sequence word. *)
Example sampling_pads_short_target :
  exists o w',
    sampling 2 1 (Some [SamplingSearch.Sentence [3]]) ([], 0) = (Ok [o], w')
               /\ word_ids o = [[3; 1]].
Proof. eexists _, _. split; reflexivity. Qed.

(** Free greedy search with the peaked translator: one output, a loop that
    stops when the sentence is done. *)
Example greedy_termination_example :
  exists v o log',
    GreedySearch.greedy_loop peaked_batch (fun s : nat => s) None 10 0
      (GreedyFacts.initial_locals 0) [] = (Ok v, log')
    /\ greedy 10 None [] = (Ok [o], log')
    /\ word_ids o = BatchedFacts.transpose (GreedySearch.v_word_ids v)
    /\ 1 <= length (GreedySearch.v_word_ids v) <= 10
    /\ length log' = length (@nil (option (list nat) * nat))
                     + length (GreedySearch.v_word_ids v)
    /\ Forall (fun row => length row = length (GreedySearch.v_word_ids v))
              (word_ids o)
    /\ (length (GreedySearch.v_word_ids v) = 10
        \/ GreedySearch.all_done (GreedySearch.v_done v) = true)
    /\ (forall k col, S k < length (GreedySearch.v_word_ids v) ->
          nth_error (GreedySearch.v_word_ids v) k = Some col ->
          GreedyFacts.not_all_done col).
Proof.
  apply (@GreedyFacts.greedy_one_output_and_termination nat nat unit
           peaked_batch (fun s : nat => s) 10 1 5 0 None None []).
  - lia.
  - intros prev_word current_state. reflexivity.
  - intros prev_word current_state. simpl.
    constructor; [apply peaked_distribution_length | constructor].
  - simpl. lia.
Defined.



End Examples.

(** ** The per-step fields of the outputs *)

Module OutputFields.
Section Contrast.

Context {State Attention BatchState NobpState BatchAttention Rng : Type}.

Variable output_one_step
  : option nat -> State -> @BeamSearch.TranslatorOutput State Attention.
Variable normalize_partial : Z -> Z -> nat -> Z.
Variable normalize_completed
  : list (@BeamSearch.hypothesis State Attention) -> option nat -> list Z.
Variable argpartition : list Z -> Z -> list nat.
Variable beam_size : nat.
Variable max_len : nat.
Variable one_best : bool.

Variable batch_output_one_step
  : option (list nat) -> BatchState
    -> @Batched.TranslatorOutput BatchState BatchAttention.
Variable get_nobp_state : BatchState -> NobpState.
Variable categorical_sample : list (list Z) -> Rng -> list nat * Rng.
Variable greedy_max_len : nat.
Variable max_length : nat.
Variable sample_size : nat.

(** C10.  Every output of [BeamSearch.generate_output] has an empty list of
    log-probabilities, an empty list of states and the mask [None], whatever
    its words are.  Every output of [GreedySearch.generate_output] and of
    [SamplingSearch.generate_output] has at least one entry in each of the
    three fields. *)
Theorem C10_beam_outputs_have_no_step_records :
  (forall initial_state src_length forced_trg_ids log,
      match BeamSearch.generate_output output_one_step normalize_partial
              normalize_completed argpartition beam_size max_len one_best
              initial_state src_length forced_trg_ids log with
      | (Ok outs, _) =>
          Forall (fun o => logsoftmaxes o = [] /\ state o = []
                           /\ mask o = None) outs
      | (Raise _, _) => True
      end)
  /\ (forall initial_state src_length forced_trg_ids log,
        match GreedySearch.generate_output batch_output_one_step
                get_nobp_state greedy_max_len initial_state src_length
                forced_trg_ids log with
        | (Ok outs, _) =>
            Forall (fun o => logsoftmaxes o <> [] /\ state o <> []
                             /\ mask o <> []) outs
        | (Raise _, _) => True
        end)
  /\ (forall initial_state src_length forced_trg_ids w,
        match SamplingSearch.generate_output batch_output_one_step
                get_nobp_state categorical_sample max_length sample_size
                initial_state src_length forced_trg_ids w with
        | (Ok outs, _) =>
            Forall (fun o => logsoftmaxes o <> [] /\ state o <> []
                             /\ mask o <> []) outs
        | (Raise _, _) => True
        end).
Proof.
  split; [|split].
  - intros initial_state src_length forced_trg_ids log.
    apply BeamFacts.beam_fields_empty.
  - intros initial_state src_length forced_trg_ids log.
    assert (H := GreedyFacts.greedy_fields_populated batch_output_one_step
                   get_nobp_state greedy_max_len initial_state src_length
                   forced_trg_ids log).
    destruct (GreedySearch.generate_output batch_output_one_step
                get_nobp_state greedy_max_len initial_state src_length
                forced_trg_ids log) as [[outs|e] log']; [|exact I].
    eapply Forall_impl; [|exact H]. cbv beta. tauto.
  - intros initial_state src_length forced_trg_ids w.
    apply SamplingFacts.sampling_outputs_populated.
Qed.

End Contrast.
End OutputFields.

(** ** [Vocab]: the dictionary *)

Module VocabFacts.
Import VocabClass.
Import String.StringSyntax.
Local Open Scope string_scope.
Local Open Scope list_scope.

Local Abbreviation string := String.string.

Lemma dict_get_set (d : dict) (k k' : string) (v : nat) :
  dict_get (dict_set d k v) k'
  = if String.eqb k' k then Some v else dict_get d k'.
Proof.
  induction d as [|[k0 v0] d IH]; simpl.
  - reflexivity.
  - destruct (String.eqb_spec k k0) as [->|Hk]; simpl.
    + destruct (String.eqb_spec k' k0); reflexivity.
    + rewrite IH. destruct (String.eqb_spec k' k0) as [->|Hk'].
      * destruct (String.eqb_spec k0 k); congruence.
      * reflexivity.
Qed.

Lemma dict_contains_get (d : dict) (k : string) :
  dict_contains d k = true <-> exists v, dict_get d k = Some v.
Proof.
  unfold dict_contains. destruct (dict_get d k) as [v|].
  - split; eauto.
  - split; [discriminate | intros [v H]; discriminate].
Qed.

Lemma dict_contains_false (d : dict) (k : string) :
  dict_contains d k = false <-> dict_get d k = None.
Proof.
  unfold dict_contains. destruct (dict_get d k); split; congruence.
Qed.

Lemma mem_In (w : string) (l : list string) : mem w l = true <-> In w l.
Proof.
  unfold mem. rewrite existsb_exists. split.
  - intros (x & Hx & He). apply String.eqb_eq in He. now subst.
  - intros H. exists w. split; [assumption | apply String.eqb_refl].
Qed.

Lemma mem_not_In (w : string) (l : list string) : mem w l = false <-> ~ In w l.
Proof.
  rewrite <- mem_In. destruct (mem w l); split; congruence.
Qed.

(** ** [Vocab]: what the instances keep *)

(** Words and ids are in one-to-one correspondence, the reserved words have
    the reserved ids, and [unk_token] is assigned: [None], or an id of a
    frozen vocabulary. *)
Definition well_formed (v : vocab) : Prop :=
  (forall w k, dict_get (w2i v) w = Some k <-> nth_error (i2w v) k = Some w)
  /\ nth_error (i2w v) Vocab.SS = Some SS_STR
  /\ nth_error (i2w v) Vocab.ES = Some ES_STR
  /\ exists u, unk_token v = Some u
       /\ forall k, u = Some k -> k < length (i2w v) /\ frozen v = true.

(** [Vocab()] *)
Definition fresh : vocab :=
  mkVocab [SS_STR; ES_STR] [(SS_STR, Vocab.SS); (ES_STR, Vocab.ES)] false
          (Some None).

Lemma init_fresh (read_lines : string -> option (list string))
    (strip : string -> string) :
  init read_lines strip None None = inr fresh.
Proof. reflexivity. Qed.

Lemma fresh_well_formed : well_formed fresh.
Proof.
  unfold well_formed, fresh. simpl. split; [|split; [|split]]; auto.
  - intros w k. split.
    + destruct (String.eqb_spec w SS_STR) as [->|H1].
      { intros H. inversion H. reflexivity. }
      destruct (String.eqb_spec w ES_STR) as [->|H2].
      { intros H. inversion H. reflexivity. }
      discriminate.
    + destruct k as [|[|k]]; simpl; intros H; inversion H; subst.
      * reflexivity.
      * reflexivity.
      * destruct k; discriminate.
  - exists None. split; [reflexivity | discriminate].
Qed.

Lemma well_formed_NoDup (v : vocab) : well_formed v -> NoDup (i2w v).
Proof.
  intros (Hb & _). apply NoDup_nth_error. intros i j Hi Hij.
  destruct (nth_error (i2w v) i) as [w|] eqn:Ei.
  2:{ apply nth_error_None in Ei. lia. }
  symmetry in Hij. apply Hb in Ei, Hij. congruence.
Qed.

Lemma well_formed_In (v : vocab) (w : string) :
  well_formed v -> (dict_contains (w2i v) w = true <-> In w (i2w v)).
Proof.
  intros (Hb & _). rewrite dict_contains_get. split.
  - intros (k & Hk). apply Hb in Hk. eapply nth_error_In; eauto.
  - intros H. apply In_nth_error in H. destruct H as (k & Hk).
    exists k. now apply Hb.
Qed.

Lemma add_word_well_formed (v : vocab) (w : string) :
  well_formed v -> dict_get (w2i v) w = None -> well_formed (add_word v w).
Proof.
  intros (Hb & Hss & Hes & u & Hu & Hk) Hnew. unfold well_formed, add_word.
  cbn [i2w w2i frozen unk_token]. split; [|split; [|split]].
  - intros w' k. rewrite dict_get_set.
    destruct (String.eqb_spec w' w) as [->|Hw].
    + split.
      * intros H. inversion H. apply nth_error_snoc_last.
      * intros H. apply nth_error_snoc in H.
        destruct H as [(_ & H)|(-> & _)]; [|reflexivity].
        apply Hb in H. congruence.
    + rewrite Hb. split.
      * intros H. rewrite nth_error_app1; [exact H|].
        apply nth_error_Some. congruence.
      * intros H. apply nth_error_snoc in H.
        destruct H as [(_ & H)|(_ & H)]; [exact H | congruence].
  - rewrite nth_error_app1; [exact Hss|]. apply nth_error_Some. congruence.
  - rewrite nth_error_app1; [exact Hes|]. apply nth_error_Some. congruence.
  - exists u. split; [exact Hu|]. intros k Hk'. rewrite length_app. simpl.
    destruct (Hk k Hk'). split; [lia | assumption].
Qed.

Lemma lookup_known (v : vocab) (w : string) (k : nat) :
  dict_get (w2i v) w = Some k -> lookup v w = (inr k, v).
Proof. unfold lookup. now intros ->. Qed.

Lemma add_word_get (v : vocab) (w : string) :
  dict_get (w2i (add_word v w)) w = Some (length (i2w v)).
Proof.
  unfold add_word. simpl. rewrite dict_get_set, String.eqb_refl. reflexivity.
Qed.

(** What [convert] does, case by case. *)
Lemma convert_cases (v : vocab) (w : string) :
  (exists k, dict_get (w2i v) w = Some k /\ convert v w = (inr k, v))
  \/ (dict_get (w2i v) w = None /\ frozen v = false
      /\ convert v w = (inr (length (i2w v)), add_word v w))
  \/ (dict_get (w2i v) w = None /\ frozen v = true
      /\ convert v w = match unk_token v with
                       | None => (inl AttributeError, v)
                       | Some None => (inl AssertionError, v)
                       | Some (Some unk) => (inr unk, v)
                       end).
Proof.
  unfold convert, dict_contains.
  destruct (dict_get (w2i v) w) as [k|] eqn:E; simpl.
  - left. exists k. split; [reflexivity|]. now apply lookup_known.
  - right. destruct (frozen v).
    + right. auto.
    + left. split; [reflexivity|]. split; [reflexivity|].
      apply lookup_known, add_word_get.
Qed.

Lemma convert_well_formed (v : vocab) (w : string) :
  well_formed v -> well_formed (snd (convert v w)).
Proof.
  intros Hwf.
  destruct (convert_cases v w) as [(k & _ & ->)|[(Hn & _ & ->)|(_ & _ & ->)]];
    simpl.
  - exact Hwf.
  - now apply add_word_well_formed.
  - destruct (unk_token v) as [[u|]|]; exact Hwf.
Qed.

Lemma freeze_well_formed (v : vocab) : well_formed v -> well_formed (freeze v).
Proof.
  intros (Hb & Hss & Hes & u & Hu & Hk). unfold well_formed, freeze. simpl.
  repeat split; try apply Hb; auto.
  exists u. split; [exact Hu|]. intros k Hk'. destruct (Hk k Hk'). auto.
Qed.

(** What [set_unk] does, case by case. *)
Lemma set_unk_cases (v : vocab) (w : string) :
  (frozen v = false /\ set_unk v w = (inl AssertionError, v))
  \/ (exists k, frozen v = true /\ dict_get (w2i v) w = Some k
        /\ set_unk v w
           = (inr tt, mkVocab (i2w v) (w2i v) true (Some (Some k))))
  \/ (frozen v = true /\ dict_get (w2i v) w = None
      /\ set_unk v w
         = (inr tt, mkVocab (i2w v ++ [w])
                            (dict_set (w2i v) w (length (i2w v))) true
                            (Some (Some (length (i2w v)))))).
Proof.
  unfold set_unk, dict_contains. destruct (frozen v) eqn:Ef; simpl.
  - right. destruct (dict_get (w2i v) w) as [k|] eqn:E; simpl.
    + left. exists k. rewrite E, Ef. auto.
    + right. rewrite dict_get_set, String.eqb_refl. rewrite Ef. auto.
  - left. auto.
Qed.

Lemma set_unk_well_formed (v : vocab) (w : string) :
  well_formed v -> well_formed (snd (set_unk v w)).
Proof.
  intros Hwf.
  destruct (set_unk_cases v w)
    as [(_ & ->)|[(k & Hf & Hk & ->)|(Hf & Hn & ->)]]; simpl.
  - exact Hwf.
  - destruct Hwf as (Hb & Hss & Hes & _). unfold well_formed. simpl.
    repeat split; try apply Hb; auto.
    exists (Some k). split; [reflexivity|]. intros k' Hk'. inversion Hk'.
    subst k'. split; [|reflexivity]. apply Hb in Hk.
    apply nth_error_Some. congruence.
  - assert (Ha := @add_word_well_formed v w Hwf Hn).
    destruct Ha as (Hb & Hss & Hes & _). unfold add_word in *. simpl in *.
    unfold well_formed. simpl. repeat split; try apply Hb; auto.
    exists (Some (length (i2w v))). split; [reflexivity|].
    intros k' Hk'. inversion Hk'. subst k'. rewrite length_app. simpl.
    split; [lia | reflexivity].
Qed.

(** ** [Vocab]: a vocabulary in use *)

(** The calls that change an instance. *)
Inductive call : Type :=
| Convert (w : string)
| Freeze
| Set_unk (w : string).

(** The instance after a call, whether the call returns or raises. *)
Definition do_call (self : vocab) (c : call) : vocab :=
  match c with
  | Convert w => snd (convert self w)
  | Freeze => freeze self
  | Set_unk w => snd (set_unk self w)
  end.

(** The instance [Vocab()] after a sequence of calls. *)
Definition after (calls : list call) : vocab := fold_left do_call calls fresh.

Lemma do_call_well_formed (v : vocab) (c : call) :
  well_formed v -> well_formed (do_call v c).
Proof.
  destruct c; simpl; intros H.
  - now apply convert_well_formed.
  - now apply freeze_well_formed.
  - now apply set_unk_well_formed.
Qed.

Lemma after_well_formed (calls : list call) : well_formed (after calls).
Proof.
  unfold after. generalize fresh_well_formed. generalize fresh.
  induction calls as [|c calls IH]; intros v Hv; simpl; [exact Hv|].
  apply IH. now apply do_call_well_formed.
Qed.

Lemma getitem_nth (v : vocab) (k : nat) (w : string) :
  nth_error (i2w v) k = Some w -> getitem v (Z.of_nat k) = inr w.
Proof.
  intros H. unfold getitem.
  assert (Hk : k < length (i2w v)) by (apply nth_error_Some; congruence).
  destruct (Z.ltb_spec (Z.of_nat k) 0); [lia|].
  destruct (Z.leb_spec 0 (Z.of_nat k)); [|lia].
  destruct (Z.ltb_spec (Z.of_nat k) (Z.of_nat (length (i2w v)))); [|lia].
  simpl. rewrite Nat2Z.id, H. reflexivity.
Qed.

(** The position that [self.i2w[i]] reads. *)
Definition position (v : vocab) (i : Z) : nat :=
  Z.to_nat (if (i <? 0)%Z then (i + Z.of_nat (length (i2w v)))%Z else i).

Lemma getitem_inv (v : vocab) (i : Z) (w : string) :
  getitem v i = inr w ->
  nth_error (i2w v) (position v i) = Some w
  /\ (- Z.of_nat (length (i2w v)) <= i < Z.of_nat (length (i2w v)))%Z.
Proof.
  unfold getitem, position. cbv zeta.
  set (n := Z.of_nat (length (i2w v))).
  set (j := if (i <? 0)%Z then (i + n)%Z else i).
  destruct (Z.leb_spec 0 j); simpl; [|discriminate].
  destruct (Z.ltb_spec j n); simpl; [|discriminate].
  destruct (nth_error (i2w v) (Z.to_nat j)) as [x|]; [|discriminate].
  intros Hx. inversion Hx; subst x. split; [reflexivity|].
  subst j. destruct (Z.ltb_spec i 0); lia.
Qed.

(** X1.  Whatever calls of [convert], [freeze] and [set_unk] are made on
    [Vocab()], and whether they return or raise, afterwards no word has two
    ids, [w2i] and [i2w] are inverse to each other, and the reserved words
    [<s>] and [</s>] have the ids [Vocab.SS] and [Vocab.ES]. *)
Theorem vocab_words_and_ids_stay_inverse (calls : list call) :
  let v := after calls in
  NoDup (i2w v)
  /\ (forall w k, dict_get (w2i v) w = Some k <-> nth_error (i2w v) k = Some w)
  /\ fst (convert v SS_STR) = inr Vocab.SS
  /\ fst (convert v ES_STR) = inr Vocab.ES
  /\ getitem v (Z.of_nat Vocab.SS) = inr SS_STR
  /\ getitem v (Z.of_nat Vocab.ES) = inr ES_STR.
Proof.
  intros v. assert (Hwf := after_well_formed calls). fold v in Hwf.
  assert (Hnd := well_formed_NoDup Hwf).
  destruct Hwf as (Hb & Hss & Hes & _).
  split; [exact Hnd|]. split; [exact Hb|].
  assert (Hcs : forall w k, nth_error (i2w v) k = Some w ->
                            fst (convert v w) = inr k).
  { intros w k Hk. apply Hb in Hk.
    destruct (convert_cases v w) as [(k' & Hk' & ->)|[(Hn & _)|(Hn & _)]];
      simpl; congruence. }
  split; [now apply Hcs|]. split; [now apply Hcs|].
  split; now apply getitem_nth.
Qed.

(** X2.  [convert], for a vocabulary that has been built from [Vocab()]: a
    known word, and any word while the vocabulary is not frozen, gets an id
    under which [vocab[id]] is that word; a new word of a frozen vocabulary
    gets the id of the unknown word if [set_unk] has been called, and raises
    [AssertionError] otherwise; in both cases the vocabulary is unchanged. *)
Theorem convert_then_getitem (calls : list call) (w : string) :
  let v := after calls in
  if frozen v && negb (contains v (Str w))
  then snd (convert v w) = v
       /\ match unk_token v with
          | Some (Some unk) => fst (convert v w) = inr unk
          | _ => fst (convert v w) = inl AssertionError
          end
  else exists k, fst (convert v w) = inr k
                 /\ getitem (snd (convert v w)) (Z.of_nat k) = inr w.
Proof.
  intros v. assert (Hwf := after_well_formed calls). fold v in Hwf.
  assert (Hwf' := convert_well_formed w Hwf).
  simpl contains. unfold dict_contains.
  destruct (convert_cases v w)
    as [(k & Hk & Hc)|[(Hn & Hf & Hc)|(Hn & Hf & Hc)]].
  - rewrite Hk. simpl. rewrite andb_false_r. exists k. rewrite Hc. simpl.
    split; [reflexivity|]. apply getitem_nth. now apply Hwf.
  - rewrite Hn, Hf. simpl. exists (length (i2w v)). rewrite Hc in *. simpl.
    split; [reflexivity|]. apply getitem_nth. apply Hwf'.
    apply add_word_get.
  - rewrite Hn, Hf. simpl. rewrite Hc.
    destruct Hwf as (_ & _ & _ & u & Hu & _). rewrite Hu.
    destruct u as [unk|]; simpl; auto.
Qed.

(** X3.  For a vocabulary that has been built from [Vocab()]: whenever
    [vocab[i]] returns a word, also for a negative index, [convert] of that
    word returns the position that was read and changes nothing. *)
Theorem getitem_then_convert (calls : list call) (i : Z) (w : string) :
  getitem (after calls) i = inr w ->
  convert (after calls) w = (inr (position (after calls) i), after calls).
Proof.
  intros H. apply getitem_inv in H. destruct H as (H & _).
  assert (Hwf := after_well_formed calls). apply Hwf in H.
  now apply lookup_known in H as Hl; unfold convert, dict_contains; rewrite H.
Qed.

(** ** [Vocab]: building a vocabulary *)

(** [vocab.convert(w)] for the words of a list, one after the other. *)
Fixpoint convert_all (self : vocab) (ws : list string)
  : list (error + nat) * vocab :=
  match ws with
  | [] => ([], self)
  | w :: ws' =>
      let '(r, self1) := convert self w in
      let '(rs, self2) := convert_all self1 ws' in
      (r :: rs, self2)
  end.

(** The elements of a list in the order of their first occurrence. *)
Definition first_occurrences (l : list string) : list string :=
  rev (nodup String.string_dec (rev l)).

Lemma nodup_drop_repeated (a r : list string) (w : string) :
  In w r ->
  nodup String.string_dec (a ++ w :: r) = nodup String.string_dec (a ++ r).
Proof.
  intros Hw. induction a as [|x a IH]; simpl.
  - destruct (in_dec String.string_dec w r); [reflexivity | contradiction].
  - rewrite IH.
    destruct (in_dec String.string_dec x (a ++ w :: r)) as [H1|H1];
      destruct (in_dec String.string_dec x (a ++ r)) as [H2|H2];
      try reflexivity; exfalso.
    + apply H2. apply in_app_or in H1. apply in_or_app.
      destruct H1 as [H1|[->|H1]]; auto.
    + apply H1. apply in_app_or in H2. apply in_or_app.
      destruct H2 as [H2|H2]; [auto | right; right; exact H2].
Qed.

Lemma first_occurrences_known (l ws : list string) (w : string) :
  In w l -> first_occurrences (l ++ w :: ws) = first_occurrences (l ++ ws).
Proof.
  intros H. unfold first_occurrences. f_equal.
  rewrite !rev_app_distr. simpl. rewrite <- app_assoc. simpl.
  apply nodup_drop_repeated. now apply in_rev in H.
Qed.

Lemma convert_all_spec (ws : list string) :
  forall v, well_formed v -> frozen v = false ->
    let '(ids, v') := convert_all v ws in
    i2w v' = first_occurrences (i2w v ++ ws)
    /\ (exists ext, i2w v' = i2w v ++ ext)
    /\ Forall2 (fun w r => exists k, r = inr k
                                     /\ nth_error (i2w v') k = Some w) ws ids.
Proof.
  induction ws as [|w ws IH]; intros v Hwf Hf; simpl.
  - rewrite app_nil_r. split; [|split; [exists []; now rewrite app_nil_r|]].
    + unfold first_occurrences.
      rewrite nodup_fixed_point, rev_involutive; [reflexivity|].
      apply NoDup_rev. now apply well_formed_NoDup.
    + constructor.
  - assert (Hwf1 := convert_well_formed w Hwf).
    destruct (convert_cases v w)
      as [(k & Hk & Hc)|[(Hn & _ & Hc)|(_ & Hf' & _)]]; [| |congruence];
      rewrite Hc in *; simpl in Hwf1.
    + specialize (IH v Hwf Hf). destruct (convert_all v ws) as [ids v'].
      destruct IH as (Hi & (ext & Hext) & HF).
      split; [|split; [eauto|]].
      * rewrite Hi. symmetry. apply first_occurrences_known.
        apply Hwf in Hk. eapply nth_error_In; eauto.
      * constructor; [|exact HF]. exists k. split; [reflexivity|].
        apply Hwf in Hk. rewrite Hext. rewrite nth_error_app1; [exact Hk|].
        apply nth_error_Some. congruence.
    + specialize (IH (add_word v w) Hwf1 Hf).
      destruct (convert_all (add_word v w) ws) as [ids v'].
      destruct IH as (Hi & (ext & Hext) & HF). simpl in Hi, Hext.
      rewrite <- app_assoc in Hi, Hext. simpl in Hi, Hext.
      split; [exact Hi|]. split; [eauto|].
      constructor; [|exact HF]. exists (length (i2w v)).
      split; [reflexivity|]. rewrite Hext.
      rewrite nth_error_app2, Nat.sub_diag by lia. reflexivity.
Qed.

(** X4.  Ids are given in the order of first occurrence: after [Vocab()]
    and [convert] of the words of a list, one after the other, [i2w] holds
    [<s>], [</s>] and then the words of the list without repetition, in the
    order in which they first occur; every call returns an id, and the word at
    that id in the final vocabulary is the word that was converted. *)
Theorem convert_numbers_words_by_first_occurrence (ws : list string) :
  let '(ids, v) := convert_all fresh ws in
  i2w v = first_occurrences (SS_STR :: ES_STR :: ws)
  /\ len v = length (nodup String.string_dec (SS_STR :: ES_STR :: ws))
  /\ Forall2 (fun w r => exists k, r = inr k /\ getitem v (Z.of_nat k) = inr w)
             ws ids.
Proof.
  assert (H := convert_all_spec ws fresh_well_formed eq_refl).
  destruct (convert_all fresh ws) as [ids v]. destruct H as (Hi & _ & HF).
  simpl in Hi. split; [exact Hi|]. split.
  - unfold len. rewrite Hi. unfold first_occurrences. rewrite length_rev.
    apply Permutation_length.
    apply NoDup_Permutation; try apply NoDup_nodup.
    intros x. rewrite !nodup_In. symmetry. apply in_rev.
  - eapply Forall2_impl; [|exact HF]. cbv beta.
    intros w0 r (k & -> & Hk). exists k. split; [reflexivity|].
    now apply getitem_nth.
Qed.

(** ** [Vocab]: the unknown word *)

(** X5.  The unknown word.  On a vocabulary built from [Vocab()] and then
    frozen, [set_unk(u)] returns, adds at most the word [u], and afterwards
    [convert] of every word that is not in the vocabulary returns an id under
    which [vocab[id]] is [u], and leaves the vocabulary as it is. *)
Theorem set_unk_catches_new_words (calls : list call) (u w : string) :
  let v := snd (set_unk (freeze (after calls)) u) in
  contains v (Str w) = false ->
  fst (set_unk (freeze (after calls)) u) = inr tt
  /\ (i2w v = i2w (after calls) \/ i2w v = i2w (after calls) ++ [u])
  /\ exists k, convert v w = (inr k, v)
               /\ getitem v (Z.of_nat k) = inr u.
Proof.
  intros v Hw.
  assert (Hwf0 := freeze_well_formed (after_well_formed calls)).
  assert (Hwf := set_unk_well_formed u Hwf0). fold v in Hwf.
  simpl in Hw. apply dict_contains_false in Hw.
  destruct (set_unk_cases (freeze (after calls)) u)
    as [(Hf & _)|[(k & _ & Hk & Hs)|(_ & Hn & Hs)]]; [discriminate| |];
    subst v; rewrite Hs in *; simpl in *.
  - split; [reflexivity|]. split; [now left|]. exists k. split.
    + unfold convert, dict_contains. simpl. rewrite Hw. reflexivity.
    + apply getitem_nth. simpl. now apply Hwf0.
  - split; [reflexivity|]. split; [now right|].
    exists (length (i2w (after calls))). split.
    + unfold convert, dict_contains. simpl. rewrite Hw. reflexivity.
    + apply getitem_nth. simpl.
      rewrite nth_error_app2, Nat.sub_diag by lia. reflexivity.
Qed.

(** X6.  The order of the protocol.  [set_unk] on a vocabulary that is not
    frozen raises [AssertionError] and changes nothing; so does [convert] of
    a new word on a vocabulary built from [Vocab()] by [convert] alone and
    then frozen, where no unknown word has been set. *)
Theorem unknown_word_needs_frozen_vocabulary (ws : list string) (w : string) :
  let v := snd (convert_all fresh ws) in
  set_unk v w = (inl AssertionError, v)
  /\ (~ In w (SS_STR :: ES_STR :: ws) ->
      convert (freeze v) w = (inl AssertionError, freeze v)).
Proof.
  assert (H : forall ws v, well_formed v -> frozen v = false ->
                unk_token v = Some None ->
                let v' := snd (convert_all v ws) in
                frozen v' = false /\ unk_token v' = Some None).
  { clear. induction ws as [|w ws IH]; intros v Hwf Hf Hu; simpl; [auto|].
    assert (Hwf1 := convert_well_formed w Hwf).
    destruct (convert_cases v w)
      as [(k & Hk & Hc)|[(Hn & _ & Hc)|(_ & Hf' & _)]]; [| |congruence];
      rewrite Hc in *; simpl in Hwf1.
    - specialize (IH v Hwf Hf Hu). now destruct (convert_all v ws).
    - specialize (IH (add_word v w) Hwf1 Hf Hu).
      now destruct (convert_all (add_word v w) ws). }
  intros v. destruct (H ws fresh fresh_well_formed eq_refl eq_refl) as (Hf & Hu).
  fold v in Hf, Hu. split.
  - unfold set_unk. rewrite Hf. reflexivity.
  - intros Hnew.
    assert (Hs := convert_all_spec ws fresh_well_formed eq_refl).
    assert (Hwf : well_formed v).
    { clear - ws. subst v. generalize fresh_well_formed. generalize fresh.
      induction ws as [|w ws IH]; intros v Hv; simpl; [exact Hv|].
      assert (Hwf1 := convert_well_formed w Hv).
      destruct (convert v w) as [r v1]. simpl in Hwf1. specialize (IH v1 Hwf1).
      now destruct (convert_all v1 ws). }
    subst v. destruct (convert_all fresh ws) as [ids v]. simpl in *.
    destruct Hs as (Hi & _).
    assert (Hnot : dict_get (w2i v) w = None).
    { apply dict_contains_false.
      destruct (dict_contains (w2i v) w) eqn:E; [|reflexivity].
      apply (well_formed_In w Hwf) in E. rewrite Hi in E.
      unfold first_occurrences in E. apply in_rev in E.
      apply nodup_In in E. apply in_rev in E. contradiction. }
    unfold convert, dict_contains. simpl. rewrite Hnot, Hu. reflexivity.
Qed.

(** X7.  Membership.  For a vocabulary built from [Vocab()], [w in vocab]
    holds for a string exactly when it is one of the words; for an integer
    [i in vocab] is false, also when [i] is the id of a word. *)
Theorem contains_words_not_ids (calls : list call) :
  let v := after calls in
  (forall w, contains v (Str w) = true <-> In w (i2w v))
  /\ (forall z, contains v (Int z) = false)
  /\ contains v (Int (Z.of_nat Vocab.ES)) = false
  /\ getitem v (Z.of_nat Vocab.ES) = inr ES_STR.
Proof.
  intros v. assert (Hwf := after_well_formed calls). fold v in Hwf.
  assert (Hint : forall z, contains v (Int z) = false).
  { intros z. simpl. induction (i2w v); simpl; auto. }
  split; [|split; [exact Hint|split; [apply Hint|]]].
  - intros w. simpl. now apply well_formed_In.
  - apply getitem_nth. apply Hwf.
Qed.

(** ** [Vocab]: vocabularies from word lists and files *)

Lemma enumerate_from_snoc (l : list string) (x : string) :
  forall n, enumerate_from n (l ++ [x])
            = enumerate_from n l ++ [(n + length l, x)].
Proof.
  induction l as [|y l IH]; intros n; simpl.
  - now rewrite Nat.add_0_r.
  - rewrite IH. replace (n + S (length l)) with (S n + length l) by lia.
    reflexivity.
Qed.

Lemma index_words_snoc (l : list string) (x : string) :
  index_words (l ++ [x]) = dict_set (index_words l) x (length l).
Proof.
  unfold index_words. rewrite enumerate_from_snoc, fold_left_app. reflexivity.
Qed.

(** The dictionary of a word list maps a word to its last position. *)
Lemma index_words_get (l : list string) (w : string) (k : nat) :
  dict_get (index_words l) w = Some k
  <-> nth_error l k = Some w /\ forall j, k < j -> nth_error l j <> Some w.
Proof.
  revert k. induction l as [|x l IH] using rev_ind; intros k.
  - simpl. split; [discriminate|]. intros [H _]. destruct k; discriminate.
  - rewrite index_words_snoc, dict_get_set.
    destruct (String.eqb_spec w x) as [->|Hw].
    + split.
      * intros H. inversion H. split; [apply nth_error_snoc_last|].
        intros j Hj Hn.
        assert (j < length (l ++ [x])) by (apply nth_error_Some; congruence).
        rewrite length_app in *. simpl in *. lia.
      * intros [H Hlast]. apply nth_error_snoc in H.
        destruct H as [(Hk & _)|(-> & _)]; [|reflexivity].
        exfalso. apply (Hlast (length l) Hk). apply nth_error_snoc_last.
    + rewrite IH. split.
      * intros [H Hlast].
        assert (Hk : k < length l) by (apply nth_error_Some; congruence).
        split; [now rewrite nth_error_app1|].
        intros j Hj Hn. apply nth_error_snoc in Hn.
        destruct Hn as [(_ & Hn)|(_ & Hn)]; [|congruence].
        exact (Hlast j Hj Hn).
      * intros [H Hlast]. apply nth_error_snoc in H.
        destruct H as [(Hk & H)|(_ & H)]; [|congruence].
        split; [exact H|]. intros j Hj Hn. apply (Hlast j Hj).
        rewrite nth_error_app1; [exact Hn|].
        apply nth_error_Some. congruence.
Qed.

Lemma index_words_None (l : list string) (w : string) :
  dict_get (index_words l) w = None <-> ~ In w l.
Proof.
  induction l as [|x l IH] using rev_ind.
  - simpl. tauto.
  - rewrite index_words_snoc, dict_get_set, in_app_iff. simpl.
    destruct (String.eqb_spec w x) as [->|Hw].
    + split; [discriminate | tauto].
    + rewrite IH. split; [|tauto]. intros H [H1|[H1|[]]]; congruence.
Qed.

Section FilesFacts.

Variable read_lines : string -> option (list string).
Variable strip : string -> string.

Local Abbreviation read_words := (read_words strip).
Local Abbreviation i2w_from_vocab_file :=
  (i2w_from_vocab_file read_lines strip).
Local Abbreviation init := (init read_lines strip).

(** The message of the error raised for a reserved word. *)
Definition reserved_word_message (vocab_file word : string) : string :=
  String.append "Vocab file "
    (String.append vocab_file
       (String.append " contains a reserved word: " word)).

Lemma read_words_ok (vocab_file : string) (lines : list string) :
  forall vocab,
    Forall (fun line => ~ In (strip line) reserved) lines ->
    read_words vocab_file lines vocab = inr (vocab ++ map strip lines).
Proof.
  induction lines as [|line lines IH]; intros vocab H;
    cbn [VocabClass.read_words map]; cbv zeta.
  - now rewrite app_nil_r.
  - inversion H as [|? ? Hl Hrest]; subst.
    apply mem_not_In in Hl. rewrite Hl, IH by assumption.
    now rewrite <- app_assoc.
Qed.

Lemma read_words_reserved (vocab_file : string)
    (before : list string) (line : string) (rest : list string) :
  forall vocab,
    Forall (fun line => ~ In (strip line) reserved) before ->
    In (strip line) reserved ->
    read_words vocab_file (before ++ line :: rest) vocab
    = inl (RuntimeError (reserved_word_message vocab_file (strip line))).
Proof.
  induction before as [|b before IH]; intros vocab H Hl;
    cbn [VocabClass.read_words app]; cbv zeta.
  - apply mem_In in Hl. rewrite Hl. reflexivity.
  - inversion H as [|? ? Hb Hrest]; subst.
    apply mem_not_In in Hb. rewrite Hb. now apply IH.
Qed.

(** X8.  [i2w_from_vocab_file] on a file that can be opened: if no line,
    stripped, is one of [<s>], [</s>], [<unk>], the result is [<s>], [</s>]
    and then every stripped line, an empty or repeated one too; otherwise the
    call raises [RuntimeError] with the message that names the file and the
    first reserved word. *)
Theorem i2w_from_vocab_file_cases (vocab_file : string)
    (lines : list string) :
  read_lines vocab_file = Some lines ->
  (Forall (fun line => ~ In (strip line) reserved) lines ->
   i2w_from_vocab_file vocab_file
   = inr (SS_STR :: ES_STR :: map strip lines))
  /\ (forall before line rest,
        lines = before ++ line :: rest ->
        Forall (fun line => ~ In (strip line) reserved) before ->
        In (strip line) reserved ->
        i2w_from_vocab_file vocab_file
        = inl (RuntimeError
                 (reserved_word_message vocab_file (strip line)))).
Proof.
  intros Hr. unfold VocabClass.i2w_from_vocab_file. rewrite Hr. split.
  - intros H. now rewrite read_words_ok.
  - intros before line rest -> H Hl. now apply read_words_reserved.
Qed.

(** X9.  [Vocab(i2w=l)] is frozen, and [convert] never changes it.  A word
    of [l] is converted to its last position in [l]; with words that are all
    different that is the position of the word.  A word that is not in [l]
    makes [convert] raise [AttributeError]: this constructor leaves
    [unk_token] unassigned. *)
Theorem vocabulary_from_word_list (l : list string) :
  exists v,
    init (Some l) None = inr v
    /\ i2w v = l /\ frozen v = true
    /\ (forall w, snd (convert v w) = v)
    /\ (forall w, In w l ->
          exists k, fst (convert v w) = inr k
                    /\ getitem v (Z.of_nat k) = inr w
                    /\ forall j, k < j -> nth_error l j <> Some w)
    /\ (NoDup l -> forall k w, nth_error l k = Some w ->
                               fst (convert v w) = inr k)
    /\ (forall w, ~ In w l -> fst (convert v w) = inl AttributeError).
Proof.
  exists (mkVocab l (index_words l) true None).
  split; [reflexivity|]. split; [reflexivity|]. split; [reflexivity|].
  assert (Hc : forall w k, dict_get (index_words l) w = Some k ->
             convert (mkVocab l (index_words l) true None) w
             = (inr k, mkVocab l (index_words l) true None)).
  { intros w k Hk. unfold convert, dict_contains. simpl. rewrite Hk. simpl.
    now apply lookup_known. }
  assert (Hn : forall w, dict_get (index_words l) w = None ->
             convert (mkVocab l (index_words l) true None) w
             = (inl AttributeError, mkVocab l (index_words l) true None)).
  { intros w Hk. unfold convert, dict_contains. simpl. now rewrite Hk. }
  split; [|split; [|split]].
  - intros w. destruct (dict_get (index_words l) w) as [k|] eqn:E.
    + now rewrite (Hc w k E).
    + now rewrite (Hn w E).
  - intros w Hw. destruct (dict_get (index_words l) w) as [k|] eqn:E.
    + exists k. rewrite (Hc w k E). simpl. apply index_words_get in E.
      destruct E as (Hk & Hlast). split; [reflexivity|].
      split; [now apply getitem_nth | exact Hlast].
    + apply index_words_None in E. contradiction.
  - intros Hnd k w Hk.
    destruct (dict_get (index_words l) w) as [k'|] eqn:E.
    + rewrite (Hc w k' E). simpl. apply index_words_get in E.
      destruct E as (Hk' & _). f_equal.
      rewrite NoDup_nth_error in Hnd. symmetry. apply Hnd; [|congruence].
      apply nth_error_Some. congruence.
    + apply index_words_None in E. exfalso. apply E.
      eapply nth_error_In; eauto.
  - intros w Hw. apply index_words_None in Hw. now rewrite (Hn w Hw).
Qed.

(** X10.  [Vocab(vocab_file=f)] for a file that can be opened and holds no
    reserved word: the vocabulary is frozen, it has two words more than the
    file has lines, [<s>] and [</s>] are converted to [Vocab.SS] and
    [Vocab.ES], and [<unk>] is not a word of it. *)
Theorem vocabulary_from_file (vocab_file : string) (lines : list string) :
  vocab_file <> "" ->
  read_lines vocab_file = Some lines ->
  Forall (fun line => ~ In (strip line) reserved) lines ->
  exists v,
    init None (Some vocab_file) = inr v
    /\ i2w v = SS_STR :: ES_STR :: map strip lines
    /\ len v = 2 + length lines
    /\ frozen v = true
    /\ convert v SS_STR = (inr Vocab.SS, v)
    /\ convert v ES_STR = (inr Vocab.ES, v)
    /\ contains v (Str UNK_STR) = false.
Proof.
  intros Hf Hr Hok.
  set (l := SS_STR :: ES_STR :: map strip lines).
  exists (mkVocab l (index_words l) true None).
  assert (Hnot : forall w, In w reserved -> ~ In w (map strip lines)).
  { intros w Hw Hin. apply in_map_iff in Hin. destruct Hin as (x & <- & Hx).
    rewrite Forall_forall in Hok. exact (Hok x Hx Hw). }
  assert (Hc : forall w k, dict_get (index_words l) w = Some k ->
             convert (mkVocab l (index_words l) true None) w
             = (inr k, mkVocab l (index_words l) true None)).
  { intros w k Hk. unfold convert, dict_contains. simpl. rewrite Hk. simpl.
    now apply lookup_known. }
  split; [|split; [reflexivity|split; [|split; [reflexivity|split; [|split]]]]].
  - unfold VocabClass.init. simpl.
    destruct (String.eqb_spec vocab_file ""); [contradiction|]. simpl.
    unfold VocabClass.i2w_from_vocab_file. rewrite Hr.
    now rewrite read_words_ok.
  - unfold len, l. simpl. now rewrite length_map.
  - apply Hc, index_words_get. split; [reflexivity|].
    intros j Hj Hn. unfold Vocab.SS in Hj.
    destruct j as [|[|j]]; [lia | discriminate |].
    simpl in Hn. apply nth_error_In in Hn.
    apply (Hnot SS_STR); simpl; auto.
  - apply Hc, index_words_get. split; [reflexivity|].
    intros j Hj Hn. unfold Vocab.ES in Hj.
    destruct j as [|[|j]]; [lia | lia |].
    simpl in Hn. apply nth_error_In in Hn.
    apply (Hnot ES_STR); simpl; auto.
  - simpl. apply dict_contains_false, index_words_None.
    intros [H|[H|H]]; [discriminate | discriminate |].
    apply (Hnot UNK_STR); simpl; auto.
Qed.

(** X24.  A vocabulary file in use.  [Vocab(vocab_file=f)] for a file
    without reserved word, followed by [set_unk("<unk>")]: the unknown word
    is appended after the words of the file; every word of the file, and
    [<s>] and [</s>], is converted to an id at which the vocabulary holds
    that word; every other word is converted to the id of [<unk>]; no call
    of [convert] changes the vocabulary. *)
Theorem vocabulary_from_file_with_unknown_word
    (vocab_file : string) (lines : list string) :
  vocab_file <> "" ->
  read_lines vocab_file = Some lines ->
  Forall (fun line => ~ In (strip line) reserved) lines ->
  exists v v',
    init None (Some vocab_file) = inr v
    /\ set_unk v UNK_STR = (inr tt, v')
    /\ i2w v' = SS_STR :: ES_STR :: map strip lines ++ [UNK_STR]
    /\ unk_token v' = Some (Some (2 + length lines))
    /\ (forall w, snd (convert v' w) = v')
    /\ (forall w, In w (SS_STR :: ES_STR :: map strip lines) ->
          exists k, fst (convert v' w) = inr k
                    /\ getitem v' (Z.of_nat k) = inr w)
    /\ (forall w, ~ In w (SS_STR :: ES_STR :: UNK_STR :: map strip lines) ->
          fst (convert v' w) = inr (2 + length lines)
          /\ getitem v' (Z.of_nat (2 + length lines)) = inr UNK_STR).
Proof.
  intros Hf Hr Hok.
  set (l := SS_STR :: ES_STR :: map strip lines).
  assert (Hlen : length l = 2 + length lines)
    by (unfold l; simpl; now rewrite length_map).
  assert (Hunk : ~ In UNK_STR l).
  { intros [H|[H|H]]; [discriminate | discriminate |].
    apply in_map_iff in H. destruct H as (x & Hx & Hin).
    rewrite Forall_forall in Hok. apply (Hok x Hin). rewrite Hx.
    simpl. auto. }
  set (v' := mkVocab (l ++ [UNK_STR]) (index_words (l ++ [UNK_STR])) true
                     (Some (Some (length l)))).
  exists (mkVocab l (index_words l) true None), v'.
  assert (Hc : forall w k, dict_get (index_words (l ++ [UNK_STR])) w = Some k ->
                 convert v' w = (inr k, v')).
  { intros w k Hk. unfold convert, dict_contains. cbn [w2i v'].
    rewrite Hk. cbn [negb]. now apply lookup_known. }
  assert (Hn : forall w, dict_get (index_words (l ++ [UNK_STR])) w = None ->
                 convert v' w = (inr (length l), v')).
  { intros w Hk. unfold convert, dict_contains.
    cbn [w2i frozen unk_token v']. now rewrite Hk. }
  split.
  { unfold VocabClass.init. simpl.
    destruct (String.eqb_spec vocab_file ""); [contradiction|]. simpl.
    unfold VocabClass.i2w_from_vocab_file. rewrite Hr.
    now rewrite read_words_ok. }
  split.
  { unfold set_unk, dict_contains. cbn [frozen w2i negb].
    apply index_words_None in Hunk. rewrite Hunk. cbn [negb].
    unfold add_word. cbn [i2w w2i frozen unk_token].
    rewrite <- index_words_snoc.
    assert (Hg : dict_get (index_words (l ++ [UNK_STR])) UNK_STR
                 = Some (length l)).
    { apply index_words_get. split; [apply nth_error_snoc_last|].
      intros j Hj Hx.
      assert (j < length (l ++ [UNK_STR]))
        by (apply nth_error_Some; congruence).
      rewrite length_app in *. simpl in *. lia. }
    rewrite Hg. reflexivity. }
  split; [reflexivity|].
  split; [cbn [unk_token v']; now rewrite Hlen|].
  split.
  { intros w. destruct (dict_get (index_words (l ++ [UNK_STR])) w) as [k|] eqn:E.
    - now rewrite (Hc w k E).
    - now rewrite (Hn w E). }
  split.
  - intros w Hw.
    destruct (dict_get (index_words (l ++ [UNK_STR])) w) as [k|] eqn:E.
    + exists k. rewrite (Hc w k E). split; [reflexivity|].
      apply index_words_get in E. destruct E as (Hk & _).
      now apply getitem_nth.
    + apply index_words_None in E. exfalso. apply E.
      apply in_or_app. now left.
  - intros w Hw.
    assert (E : dict_get (index_words (l ++ [UNK_STR])) w = None).
    { apply index_words_None. intros Hin. apply Hw.
      apply in_app_or in Hin. destruct Hin as [Hin|[<-|[]]].
      - destruct Hin as [<-|[<-|Hin]]; simpl; auto.
      - simpl. auto. }
    rewrite (Hn w E), <- Hlen. split; [reflexivity|].
    apply getitem_nth. simpl. apply (nth_error_snoc_last l).
Qed.

End FilesFacts.

End VocabFacts.

(** ** [Vocab] at concrete inputs *)

Module VocabExamples.
Import VocabClass VocabFacts VocabDemo.
Import String.StringSyntax.
Local Open Scope string_scope.
Local Open Scope list_scope.

(** The file with a repeated word and an empty line: every line becomes a
    word, and the repeated word is converted to its last position. *)
Example vocabulary_file_with_repeated_word :
  exists v,
    init read_lines strip None (Some "vocab.txt") = inr v
    /\ i2w v = ["<s>"; "</s>"; "the"; "cat"; "sat"; "the"; ""]
    /\ fst (convert v "the") = inr 5
    /\ fst (convert v "dog") = inl AttributeError.
Proof. eexists. repeat split. Qed.

(** X3 at a concrete input: the last word of a vocabulary of three. *)
Lemma getitem_then_convert_witness :
  getitem (after [Convert "cat"]) (-1) = inr "cat"
  /\ convert (after [Convert "cat"]) "cat"
     = (inr (position (after [Convert "cat"]) (-1)), after [Convert "cat"]).
Proof.
  split; [reflexivity|].
  apply (@getitem_then_convert [Convert "cat"] (-1)%Z "cat"). reflexivity.
Defined.

(** X5 at a concrete input: the unknown word is new to the vocabulary, and
    so is the converted word. *)
Lemma set_unk_catches_new_words_witness :
  contains (snd (set_unk (freeze (after [Convert "cat"])) "<unk>")) (Str "dog")
  = false
  /\ fst (set_unk (freeze (after [Convert "cat"])) "<unk>") = inr tt
  /\ (i2w (snd (set_unk (freeze (after [Convert "cat"])) "<unk>"))
      = i2w (after [Convert "cat"])
      \/ i2w (snd (set_unk (freeze (after [Convert "cat"])) "<unk>"))
         = i2w (after [Convert "cat"]) ++ ["<unk>"])
  /\ exists k,
       convert (snd (set_unk (freeze (after [Convert "cat"])) "<unk>")) "dog"
       = (inr k, snd (set_unk (freeze (after [Convert "cat"])) "<unk>"))
       /\ getitem (snd (set_unk (freeze (after [Convert "cat"])) "<unk>"))
                  (Z.of_nat k) = inr "<unk>".
Proof.
  split; [reflexivity|].
  apply (@set_unk_catches_new_words [Convert "cat"] "<unk>" "dog").
  reflexivity.
Defined.

(** X8 at concrete inputs: a file without reserved word, and a file whose
    second line is a reserved word. *)
Lemma i2w_from_vocab_file_cases_witness :
  i2w_from_vocab_file read_lines strip "vocab.txt"
  = inr ["<s>"; "</s>"; "the"; "cat"; "sat"; "the"; ""]
  /\ i2w_from_vocab_file read_lines strip "reserved.txt"
     = inl (RuntimeError
              "Vocab file reserved.txt contains a reserved word: <unk>").
Proof.
  split.
  - apply (@i2w_from_vocab_file_cases read_lines strip "vocab.txt"
             [line "the"; line " cat"; line "sat  "; line "the"; line ""]
             eq_refl).
    repeat constructor; simpl; intros [H|[H|[H|[]]]]; discriminate.
  - apply (proj2 (@i2w_from_vocab_file_cases read_lines strip "reserved.txt"
                    [line "the"; line " <unk>"; line "</s>"] eq_refl)
                 [line "the"] (line " <unk>") [line "</s>"] eq_refl).
    + repeat constructor; simpl; intros [H|[H|[H|[]]]]; discriminate.
    + simpl. auto.
Defined.

(** X10 at a concrete input: the file with a repeated word. *)
Lemma vocabulary_from_file_witness :
  exists v,
    init read_lines strip None (Some "vocab.txt") = inr v
    /\ i2w v = SS_STR :: ES_STR
               :: map strip [line "the"; line " cat"; line "sat  ";
                             line "the"; line ""]
    /\ len v = 2 + 5
    /\ frozen v = true
    /\ convert v SS_STR = (inr Vocab.SS, v)
    /\ convert v ES_STR = (inr Vocab.ES, v)
    /\ contains v (Str UNK_STR) = false.
Proof.
  apply (@vocabulary_from_file read_lines strip "vocab.txt"
           [line "the"; line " cat"; line "sat  "; line "the"; line ""]).
  - discriminate.
  - reflexivity.
  - repeat constructor; simpl; intros [H|[H|[H|[]]]]; discriminate.
Defined.

(** X24 at a concrete input: the file with a repeated word, and the words
    [cat] and [dog]. *)
Lemma vocabulary_from_file_with_unknown_word_witness :
  exists v v',
    init read_lines strip None (Some "vocab.txt") = inr v
    /\ set_unk v "<unk>" = (inr tt, v')
    /\ fst (convert v' "cat") = inr 3
    /\ fst (convert v' "dog") = inr 7
    /\ getitem v' 7 = inr "<unk>".
Proof.
  destruct (@vocabulary_from_file_with_unknown_word read_lines strip
              "vocab.txt"
              [line "the"; line " cat"; line "sat  "; line "the"; line ""])
    as (v & v' & Hi & Hs & Hw & _ & _ & _ & Hu).
  - discriminate.
  - reflexivity.
  - repeat constructor; simpl; intros [H|[H|[H|[]]]]; discriminate.
  - exists v, v'. split; [exact Hi|]. split; [exact Hs|].
    assert (Hd : fst (convert v' "dog") = inr 7 /\ getitem v' 7 = inr "<unk>").
    { apply (Hu "dog"). simpl.
      intros [H|[H|[H|[H|[H|[H|[H|[H|[]]]]]]]]]; discriminate. }
    split; [|exact Hd].
    unfold VocabClass.init in Hi. simpl in Hi. inversion Hi; subst v.
    vm_compute in Hs. inversion Hs; subst v'. reflexivity.
Defined.

End VocabExamples.

(** ** The searches at further concrete inputs *)

Module SearchExamples.
Import Demo DemoFacts.

(** X13 at a concrete input: a beam of size 0 over the translator that peaks
    at word 3. *)
Lemma beam_search_without_steps_witness :
  beam peaked 0 10 true None []
  = (Ok [mkSearchOutput [[]] [[]] [mkHypScore 0%Z 0%Z] [] [] None], []).
Proof.
  apply (@BeamFacts.beam_search_without_steps_returns_the_root nat unit peaked
           add_partial running_scores argsort 0 10 true 0 None [] 0%Z).
  - left. reflexivity.
  - reflexivity.
Defined.

(** X21 at a concrete input: the branching translator with a beam of two,
    where three hypotheses are completed. *)
Lemma beam_search_different_translations_witness :
  match beam branching 2 4 false None [] with
  | (Ok outs, _) =>
      NoDup (map (fun o : BeamSearch.BeamOutput => word_ids o) outs)
  | (Raise _, _) => True
  end.
Proof.
  apply (@BeamFacts.beam_search_returns_different_translations nat unit
           branching add_partial running_scores argsort 2 4 false).
  intros score kth _. apply argsort_perm.
Defined.

(** The scores of a batch of two sentences that end at different steps: the
    third step of the first sentence is padding and adds nothing to its
    score, while the expression recorded for that step has the value -1. *)
Example greedy_scores_of_a_staggered_batch :
  exists o log',
    GreedySearch.generate_output staggered_batch (fun s : nat => s) 5 0 None
      None []
    = (Ok [o], log')
    /\ word_ids o = [[3; 1; 1]; [3; 3; 1]]
    /\ mask o = [[1; 1]; [1; 1]; [0; 1]]%Z
    /\ normalized (score o) = [-2; -3]%Z
    /\ map (fun e => GreedyFacts.picked e 0) (logsoftmaxes o)
       = [-1; -1; -1]%Z.
Proof. eexists. eexists. repeat split. Qed.

(** A forced sample whose targets end early: the first has no
    end-of-sequence word, the second has words after it. *)
Example forced_sample_of_short_targets :
  exists o w',
    SamplingSearch.sample_one staggered_batch (fun s : nat => s)
      counter_sample 5 0
      (Some [SamplingSearch.Sentence [3]; SamplingSearch.Sentence [2; 1; 4]])
      ([], 0)
    = (Ok o, w')
    /\ word_ids o = [[3; 1]; [2; 1]].
Proof. eexists. eexists. split; reflexivity. Qed.

(** A forced greedy search: the word after the end-of-sequence word of the
    first target is replaced; a target that is shorter than the search raises
    [IndexError], also where its element is finished. *)
Example forced_greedy_search_of_a_batch :
  (exists o log',
     GreedySearch.generate_output staggered_batch (fun s : nat => s) 5 0 None
       (Some (GreedySearch.Batched [[3; 1; 4]; [2; 3; 1]])) []
     = (Ok [o], log')
     /\ word_ids o = [[3; 1; 1]; [2; 3; 1]])
  /\ fst (GreedySearch.generate_output staggered_batch (fun s : nat => s) 5 0
            None (Some (GreedySearch.Batched [[3; 1]; [2; 2; 1]])) [])
     = Raise IndexError.
Proof. split; [eexists; eexists; split; reflexivity | reflexivity]. Qed.

End SearchExamples.
